(** * Sparkify ETL pipeline ([etl.py]): a shallow embedding and its properties

    The development follows [etl.py] function by function:
    [process_song_file], [process_log_file], [process_data] and [main].
    Python values are a small tagged union, floats are binary64 numbers,
    a pandas [DataFrame] is a list of labelled rows over a list of column
    names with their dtypes, the database session is a record holding the
    committed store and the open transaction, and every function that can
    raise lives in a state-and-exception monad over that record. *)

From Stdlib Require Import ZArith QArith Qround List String Ascii Bool Lia.
From Stdlib Require SpecFloat.
Set Warnings "-register-all".
Import ListNotations.
Open Scope string_scope.
Open Scope Z_scope.

(* ================================================================== *)
(** ** Python values, exceptions *)

(** [datetime.datetime]: the naive local time the log timestamps are
    converted to. *)
Record datetime := mkdatetime {
  year : Z; month : Z; day : Z;
  hour : Z; minute : Z; second : Z; microsecond : Z
}.

(** The scalars found in the data frames read from the JSON files: a
    missing cell ([None] / [NaN]), an integer, a float, given by its
    value, a string, and a timestamp. *)
Inductive value :=
| VNull
| VInt (n : Z)
| VFloat (q : Q)
| VStr (s : string)
| VTime (t : datetime).

(** The exceptions the pipeline can raise; none of them is caught
    anywhere in [etl.py]. *)
Inductive exn :=
| ValueError
| KeyError (key : string)
| IndexError
| AttributeError (name : string)
| TypeError
| OSError
| OverflowError
| ProgrammingError.

Inductive result (A : Type) :=
| Ok (a : A)
| Raise (e : exn).
Arguments Ok {A} a.
Arguments Raise {A} e.

Definition rbind {A B} (r : result A) (k : A -> result B) : result B :=
  match r with
  | Ok a => k a
  | Raise e => Raise e
  end.

(** [mapM] in [result]: elements are visited left to right and the first
    exception wins, as in a Python loop or [Series.apply]. *)
Fixpoint rmap {A B} (f : A -> result B) (l : list A) : result (list B) :=
  match l with
  | [] => Ok []
  | a :: l' =>
      rbind (f a) (fun b => rbind (rmap f l') (fun bs => Ok (b :: bs)))
  end.

(* ================================================================== *)
(** ** Calendar arithmetic behind [datetime.fromtimestamp] and [Series.dt] *)

(** Proleptic Gregorian date of a day count relative to 1970-01-01. *)
Definition civil_from_days (z : Z) : Z * Z * Z :=
  let z := z + 719468 in
  let era := z / 146097 in
  let doe := z - era * 146097 in
  let yoe := (doe - doe / 1460 + doe / 36524 - doe / 146096) / 365 in
  let y := yoe + era * 400 in
  let doy := doe - (365 * yoe + yoe / 4 - yoe / 100) in
  let mp := (5 * doy + 2) / 153 in
  let d := doy - (153 * mp + 2) / 5 + 1 in
  let m := if mp <? 10 then mp + 3 else mp - 9 in
  (if m <=? 2 then y + 1 else y, m, d).

(** Day count relative to 1970-01-01 of a proleptic Gregorian date. *)
Definition days_from_civil (y m d : Z) : Z :=
  let y := if m <=? 2 then y - 1 else y in
  let era := y / 400 in
  let yoe := y - era * 400 in
  let doy := (153 * (if 2 <? m then m - 3 else m + 9) + 2) / 5 + d - 1 in
  let doe := yoe * 365 + yoe / 4 - yoe / 100 + doy in
  era * 146097 + doe - 719468.

(** The calendar date of a [datetime], as a day count. *)
Definition toordinal (t : datetime) : Z :=
  days_from_civil (year t) (month t) (day t).

(** [round()] to the nearest integer, ties to even: the rounding
    [fromtimestamp] applies to the microsecond count. *)
Definition round_half_even (q : Q) : Z :=
  let f := Qfloor q in
  match Qcompare (q - inject_Z f) (1 # 2) with
  | Lt => f
  | Gt => f + 1
  | Eq => if Z.even f then f else f + 1
  end.

(** Python floats are IEEE 754 binary64 numbers; their operations are
    the ones of the Standard Library's specification of that format. *)
Definition binary64 := SpecFloat.spec_float.

(** [float(n)]: the nearest float, infinite when [n] is too large. *)
Definition binary64_of_Z (n : Z) : binary64 :=
  SpecFloat.binary_normalize 53 1024 n 0 false.

Definition truediv : binary64 -> binary64 -> binary64 := SpecFloat.SFdiv 53 1024.

Definition float_mul : binary64 -> binary64 -> binary64 :=
  SpecFloat.SFmul 53 1024.

(** The float of a cell that holds one: its value is [q]. *)
Definition binary64_of_Q (q : Q) : binary64 :=
  truediv (binary64_of_Z (Qnum q)) (binary64_of_Z (Zpos (Qden q))).

(** The rational a finite float stands for. *)
Definition Q_of_binary64 (f : binary64) : Q :=
  match f with
  | SpecFloat.S754_finite s m e =>
      let v := if 0 <=? e then inject_Z (Zpos m * 2 ^ e)
               else Zpos m # Z.to_pos (2 ^ (- e)) in
      if s then (- v)%Q else v
  | _ => 0%Q
  end.

(** C's [modf]: the integral part, toward zero, and the fractional part
    of a finite float; both are exact. *)
Definition modf (f : binary64) : Z * binary64 :=
  match f with
  | SpecFloat.S754_finite s m e =>
      let sign := if s then -1 else 1 in
      if 0 <=? e then (sign * (Zpos m * 2 ^ e), SpecFloat.S754_zero s)
      else
        let d := 2 ^ (- e) in
        (sign * (Zpos m / d),
         match Zpos m mod d with
         | Zpos r => SpecFloat.S754_finite s r e
         | _ => SpecFloat.S754_zero s
         end)
  | _ => (0, f)
  end.

(** [x / 1000.0] on a cell of the [ts] column; a missing number is the
    float NaN. *)
Definition seconds (x : value) : result binary64 :=
  match x with
  | VInt n =>
      match binary64_of_Z n with
      | SpecFloat.S754_infinity _ => Raise OverflowError
      | f => Ok (truediv f (binary64_of_Z 1000))
      end
  | VFloat q => Ok (truediv (binary64_of_Q q) (binary64_of_Z 1000))
  | VNull => Ok SpecFloat.S754_nan
  | VStr _ | VTime _ => Raise TypeError  (* no [/] with a float *)
  end.

(** The instant [fromtimestamp] reads off the float [d], in microseconds
    since the epoch: [d] is split by [modf], the fraction is scaled to
    microseconds in floating point and rounded half to even, and the
    seconds have to fit a 64-bit [time_t]. *)
Definition micros_of_seconds (d : binary64) : result Z :=
  match d with
  | SpecFloat.S754_nan => Raise ValueError
  | SpecFloat.S754_infinity _ => Raise OverflowError
  | _ =>
      let '(intpart, floatpart) := modf d in
      let floatpart := float_mul floatpart (binary64_of_Z 1000000) in
      let us := intpart * 1000000 + round_half_even (Q_of_binary64 floatpart) in
      if (- 2 ^ 63 <=? us / 1000000) && (us / 1000000 <=? 2 ^ 63) then Ok us
      else Raise OverflowError
  end.

(** Microseconds since the epoch that [fromtimestamp] makes of
    [x / 1000.0] seconds. *)
Definition epoch_micros (x : value) : result Z :=
  rbind (seconds x) micros_of_seconds.

(** The year of second [s], counted from the epoch, fits the [int] in
    which [struct tm] stores it relative to 1900. *)
Definition tm_year_fits (s : Z) : bool :=
  let y := fst (fst (civil_from_days (s / 86400))) in
  (- 2 ^ 31 <=? y - 1900) && (y - 1900 <? 2 ^ 31).

(** The year of the local time at epoch second [s], for the local zone
    whose offset from UTC, in seconds, at epoch second [s] is
    [utcoffset s]: [localtime] breaks the instant down in UTC and then
    in local time, and fails when a year does not fit; a [datetime]
    holds the years 1 to 9999. *)
Definition local_year (utcoffset : Z -> Z) (s : Z) : result Z :=
  let y := fst (fst (civil_from_days ((s + utcoffset s) / 86400))) in
  if tm_year_fits s && tm_year_fits (s + utcoffset s) then
    if (1 <=? y) && (y <=? 9999) then Ok y else Raise ValueError
  else Raise OSError.

(** [datetime.datetime.fromtimestamp(x/1000.0)] in the local zone
    [utcoffset].  Besides the local time of the instant itself, the
    conversion computes the local time one day earlier, and one more when
    the offset has decreased over that day, to tell a repeated local time
    from its first occurrence; each of them has to be in range. *)
Definition fromtimestamp (utcoffset : Z -> Z) (x : value) : result datetime :=
  rbind (epoch_micros x) (fun us =>
    let secs := us / 1000000 in
    rbind (local_year utcoffset secs) (fun _ =>
    rbind (local_year utcoffset (secs - 86400)) (fun _ =>
    let transition := utcoffset secs - utcoffset (secs - 86400) in
    rbind (if transition <? 0 then local_year utcoffset (secs + transition)
           else Ok 0) (fun _ =>
    let local := secs + utcoffset secs in
    let days := local / 86400 in
    let sod := local mod 86400 in
    let '(y, m, d) := civil_from_days days in
    Ok (mkdatetime y m d (sod / 3600) ((sod mod 3600) / 60) (sod mod 60)
          (us mod 1000000)))))).

(** Microseconds from 1970-01-01 00:00:00 to the naive datetime [t]. *)
Definition naive_micros (t : datetime) : Z :=
  (toordinal t * 86400 + hour t * 3600 + minute t * 60 + second t) * 1000000
  + microsecond t.

(** pandas stores datetimes as [datetime64[ns]], a signed 64-bit count of
    nanoseconds: 1677-09-21 00:12:43.145225 to 2262-04-11 23:47:16.854775
    at the resolution of a [datetime]. *)
Definition in_datetime64_ns (t : datetime) : bool :=
  (- 9223372036854775 <=? naive_micros t) &&
  (naive_micros t <=? 9223372036854775).

(** [Series.dt.weekday]: Monday is 0, Sunday is 6. *)
Definition weekday (t : datetime) : Z := (toordinal t + 3) mod 7.

(** Day count of the Monday that starts ISO week 1 of year [y]. *)
Definition isoweek1monday (y : Z) : Z :=
  let firstday := days_from_civil y 1 1 in
  let firstweekday := (firstday + 3) mod 7 in
  let week1monday := firstday - firstweekday in
  if 3 <? firstweekday then week1monday + 7 else week1monday.

(** [Series.dt.weekofyear]: the ISO 8601 week number. *)
Definition weekofyear (t : datetime) : Z :=
  let today := toordinal t in
  let week := (today - isoweek1monday (year t)) / 7 in
  if week <? 0 then (today - isoweek1monday (year t - 1)) / 7 + 1
  else if (52 <=? week) && (isoweek1monday (year t + 1) <=? today) then 1
  else week + 1.

(** One element of [time_data]:
    [(t, t.hour, t.day, t.weekofyear, t.month, t.year, t.weekday)]. *)
Definition time_tuple (t : datetime) : list value :=
  [VTime t; VInt (hour t); VInt (day t); VInt (weekofyear t);
   VInt (month t); VInt (year t); VInt (weekday t)].

(* ================================================================== *)
(** ** Files and data frames *)

(** One row of the frame [pd.read_json(..., lines=True)] builds from a
    JSON-lines file, as the ordered list of its cells.  There is one row
    per line; the cells are the values pandas holds after its
    per-column conversion (a column of numeric strings holds numbers, a
    column of whole floats holds integers). *)
Definition json_record := list (string * value).

(** The input tree under the working directory.  A file carries the
    rows [pd.read_json] makes of it: [None] when the content is not a
    sequence of JSON objects. *)
Inductive node :=
| File (name : string) (content : option (list json_record))
| Dir (name : string) (entries : list node).

Definition path := list string.

Definition node_name (n : node) : string :=
  match n with
  | File name _ => name
  | Dir name _ => name
  end.

Fixpoint find_entry (name : string) (entries : list node) : option node :=
  match entries with
  | [] => None
  | n :: rest =>
      if String.eqb (node_name n) name then Some n else find_entry name rest
  end.

(** Resolution of a path from the working directory. *)
Fixpoint lookup_path (p : path) (entries : list node) : option node :=
  match p with
  | [] => None
  | [name] => find_entry name entries
  | name :: rest =>
      match find_entry name entries with
      | Some (Dir _ sub) => lookup_path rest sub
      | _ => None
      end
  end.

(** A row of a data frame (a pandas [Series] indexed by column name). *)
Definition Series := list (string * value).

(** The dtypes of the columns of a frame read from JSON lines. *)
Inductive dtype := int64 | float64 | object_.

Definition dtype_eqb (a b : dtype) : bool :=
  match a, b with
  | int64, int64 | float64, float64 | object_, object_ => true
  | _, _ => false
  end.

(** A data frame: column names, the dtype of each column, and rows, each
    row under its index label. *)
Record DataFrame := mkDataFrame {
  columns : list string;
  dtypes : string -> dtype;
  rows : list (nat * Series)
}.

Fixpoint lookup (k : string) (r : list (string * value)) : option value :=
  match r with
  | [] => None
  | (k', v) :: r' => if String.eqb k' k then Some v else lookup k r'
  end.

Definition cell (r : list (string * value)) (c : string) : value :=
  match lookup c r with
  | Some v => v
  | None => VNull
  end.

Definition mem_string (s : string) (l : list string) : bool :=
  existsb (String.eqb s) l.

(** Column names in order of first appearance over all records. *)
Fixpoint union_keys (seen : list string) (keys : list string) : list string :=
  match keys with
  | [] => seen
  | k :: ks =>
      if mem_string k seen then union_keys seen ks
      else union_keys (seen ++ [k])%list ks
  end.

Definition frame_columns (records : list json_record) : list string :=
  union_keys [] (flat_map (fun r => map fst r) records).

Fixpoint label_from (i : nat) {A} (l : list A) : list (nat * A) :=
  match l with
  | [] => []
  | a :: l' => (i, a) :: label_from (S i) l'
  end.

Definition is_int (v : value) : bool :=
  match v with
  | VInt _ => true
  | _ => false
  end.

Definition is_number_or_null (v : value) : bool :=
  match v with
  | VNull | VInt _ | VFloat _ => true
  | VStr _ | VTime _ => false
  end.

(** The dtype of a column holding [cells]: [int64] when all are
    integers, [float64] when all are numbers or missing, [object]
    otherwise. *)
Definition column_dtype (cells : list value) : dtype :=
  if forallb is_int cells then int64
  else if forallb is_number_or_null cells then float64
  else object_.

(** The frame [pd.read_json(..., lines=True)] returns for a file with
    these rows: the rows labelled from 0, a cell that a row lacks read
    as null. *)
Definition frame_of_records (records : list json_record) : DataFrame :=
  let cols := frame_columns records in
  mkDataFrame cols
    (fun c => column_dtype (map (fun r => cell r c) records))
    (label_from 0 (map (fun r => map (fun c => (c, cell r c)) cols) records)).

Fixpoint first_missing (cols have : list string) : option string :=
  match cols with
  | [] => None
  | c :: cs => if mem_string c have then first_missing cs have else Some c
  end.

(** [df[[c1, ..., ck]]] *)
Definition select_columns (df : DataFrame) (cols : list string)
  : result DataFrame :=
  match first_missing cols (columns df) with
  | Some c => Raise (KeyError c)
  | None =>
      Ok (mkDataFrame cols (dtypes df)
            (map (fun '(i, r) => (i, map (fun c => (c, cell r c)) cols))
               (rows df)))
  end.

(** [df[c]] *)
Definition column (df : DataFrame) (c : string) : result (list (nat * value)) :=
  if mem_string c (columns df) then
    Ok (map (fun '(i, r) => (i, cell r c)) (rows df))
  else Raise (KeyError c).

(** What pandas hands over for a cell: a Python value, or, for an
    integer that comes straight out of an [int64] array, a
    [numpy.int64] scalar.  (A [numpy.float64] is a Python [float].) *)
Inductive pyobject :=
| Native (v : value)
| NumpyInt64 (n : Z).

(** A cell as the element of an array of the given kind. *)
Definition box (numpy_int : bool) (v : value) : pyobject :=
  match v with
  | VInt n => if numpy_int then NumpyInt64 n else Native v
  | _ => Native v
  end.

(** The value a Python object stands for. *)
Definition unbox (o : pyobject) : value :=
  match o with
  | Native v => v
  | NumpyInt64 n => VInt n
  end.

(** All the columns of the frame are [int64]. *)
Definition all_int64 (df : DataFrame) : bool :=
  forallb (fun c => dtype_eqb (dtypes df c) int64) (columns df).

Definition has_dtype (d : dtype) (df : DataFrame) : bool :=
  existsb (fun c => dtype_eqb (dtypes df c) d) (columns df).

(** [df.values], row by row as [list(row)] reads it: a frame whose
    columns are all [int64] gives an [int64] array, whose elements are
    numpy scalars; columns of several dtypes give an array of Python
    values.  (Integers that such an array holds as floats of the same
    value are kept as they are.) *)
Definition values (df : DataFrame) : list (list pyobject) :=
  map (fun '(_, r) => map (fun '(_, v) => box (all_int64 df) v) r) (rows df).

(** [df.iterrows()]: each label with the row of [df.values]. *)
Definition iterrows (df : DataFrame) : list (nat * list pyobject) :=
  map (fun '(i, r) => (i, map (fun '(_, v) => box (all_int64 df) v) r))
    (rows df).

(** [a[0]] on an array *)
Definition item0 {A} (l : list A) : result A :=
  match l with
  | a :: _ => Ok a
  | [] => Raise IndexError
  end.

(** [df.iloc[0].values.tolist()]: the first row, cell by cell.  When the
    columns have an [object] column among them the row is an array of
    objects that holds the numbers as numpy scalars; otherwise it is a
    numeric array, which [tolist] turns into Python numbers. *)
Definition iloc0_values_tolist (df : DataFrame) : result (list pyobject) :=
  match rows df with
  | [] => Raise IndexError
  | (_, r) :: _ =>
      Ok (map (fun '(c, v) =>
                 box (has_dtype object_ df && dtype_eqb (dtypes df c) int64) v)
            r)
  end.

(** [row.name] for a column name *)
Definition getattr (row : Series) (name : string) : result value :=
  match lookup name row with
  | Some v => Ok v
  | None => Raise (AttributeError name)
  end.

(** [s.loc[index]] *)
Fixpoint loc {A} (s : list (nat * A)) (index : nat) : result A :=
  match s with
  | [] => Raise (KeyError "index")
  | (i, a) :: s' => if Nat.eqb i index then Ok a else loc s' index
  end.

(** [x == 'NextSong'] on one cell *)
Definition is_NextSong (v : value) : bool :=
  match v with
  | VStr s => String.eqb s "NextSong"
  | _ => false
  end.

(** [df[df["page"] == 'NextSong']] *)
Definition filter_NextSong (df : DataFrame) : result DataFrame :=
  rbind (column df "page") (fun _ =>
    Ok (mkDataFrame (columns df) (dtypes df)
          (filter (fun '(_, r) => is_NextSong (cell r "page")) (rows df)))).

(** [Series.apply(f)] *)
Definition series_apply {A B} (f : A -> result B) (s : list (nat * A))
  : result (list (nat * B)) :=
  rmap (fun '(i, a) => rbind (f a) (fun b => Ok (i, b))) s.

(** [t.dt]: a series has the accessor when pandas stored it as
    [datetime64[ns]]; the datetimes [apply] returns are stored so when
    there is at least one and every one is in the range of that type. *)
Definition dt (t : list (nat * datetime)) : result unit :=
  match t with
  | [] => Raise (AttributeError "dt")
  | _ :: _ =>
      if forallb (fun '(_, x) => in_datetime64_ns x) t then Ok tt
      else Raise (AttributeError "dt")
  end.

(** *** [fnmatch]: shell patterns

    A pattern is a sequence of items: [*] (any string), [?] (any
    character), a bracket expression (one character of a class, or one
    outside it), or a character that stands for itself. *)
Inductive glob_item :=
| AnyString
| AnyChar
| OneOf (negated : bool) (singles : list ascii) (ranges : list (ascii * ascii))
| Literal (c : ascii).

Definition ascii_leb (a b : ascii) : bool :=
  Nat.leb (nat_of_ascii a) (nat_of_ascii b).

Definition in_class (singles : list ascii) (ranges : list (ascii * ascii))
  (c : ascii) : bool :=
  existsb (Ascii.eqb c) singles ||
  existsb (fun '(lo, hi) => ascii_leb lo c && ascii_leb c hi) ranges.

Definition item_matches (i : glob_item) (c : ascii) : bool :=
  match i with
  | AnyString => false
  | AnyChar => true
  | OneOf negated singles ranges => xorb negated (in_class singles ranges c)
  | Literal c' => Ascii.eqb c c'
  end.

(** The whole of [s] matches the items. *)
Fixpoint match_items (items : list glob_item) (s : list ascii)
  {struct items} : bool :=
  match items with
  | [] => match s with [] => true | _ => false end
  | AnyString :: rest =>
      (fix try (s : list ascii) : bool :=
         match_items rest s ||
         match s with
         | [] => false
         | _ :: s' => try s'
         end) s
  | i :: rest =>
      match s with
      | [] => false
      | c :: s' => item_matches i c && match_items rest s'
      end
  end.

Fixpoint until_close (l : list ascii) : option (list ascii * list ascii) :=
  match l with
  | [] => None
  | c :: l' =>
      if Ascii.eqb c "]" then Some ([], l')
      else match until_close l' with
           | Some (stuff, rest) => Some (c :: stuff, rest)
           | None => None
           end
  end.

(** The text of a bracket expression and what follows it, for the text
    [l] after the opening bracket: a leading [!] and then a leading
    closing bracket belong to the expression, which runs to the next
    closing bracket.  [None] when there is none. *)
Definition bracket (l : list ascii) : option (list ascii * list ascii) :=
  let '(pre1, l1) :=
    match l with
    | c :: l' => if Ascii.eqb c "!" then ([c], l') else ([], l)
    | [] => ([], l)
    end in
  let '(pre2, l2) :=
    match l1 with
    | c :: l' => if Ascii.eqb c "]" then ([c], l') else ([], l1)
    | [] => ([], l1)
    end in
  match until_close l2 with
  | Some (stuff, rest) => Some ((pre1 ++ pre2 ++ stuff)%list, rest)
  | None => None
  end.

(** The chunks of a bracket expression: it is cut at every hyphen that
    stands between the two ends of a range; [wait] counts the characters
    that have to pass before a hyphen cuts. *)
Fixpoint chunks (wait : nat) (cur : list ascii) (l : list ascii)
  : list (list ascii) :=
  match l with
  | [] => [cur]
  | c :: l' =>
      match wait with
      | O => if Ascii.eqb c "-" then cur :: chunks 2 [] l'
             else chunks 0 (cur ++ [c])%list l'
      | S k => chunks k (cur ++ [c])%list l'
      end
  end.

Definition last_char (l : list ascii) : ascii := List.last l "000"%char.

Definition first_char (l : list ascii) : ascii := List.hd "000"%char l.

(** A hyphen at the very end stands for itself. *)
Fixpoint close_chunks (cs : list (list ascii)) : list (list ascii) :=
  match cs with
  | [] => []
  | [c] => [c]
  | c :: [[]] => [(c ++ ["-"%char])%list]
  | c :: cs' => c :: close_chunks cs'
  end.

(** A range whose ends are in the wrong order is dropped; the ranges
    are gone through from the right. *)
Fixpoint drop_empty (cs : list (list ascii)) : list (list ascii) :=
  match cs with
  | [] => []
  | c :: cs' =>
      match drop_empty cs' with
      | [] => [c]
      | c' :: rest =>
          if negb (ascii_leb (last_char c) (first_char c'))
          then (removelast c ++ tl c')%list :: rest
          else c :: c' :: rest
      end
  end.

(** The single characters and the ranges of a list of chunks: the last
    character of a chunk and the first of the next are the ends of a
    range. *)
Fixpoint class_of (first : bool) (cs : list (list ascii))
  : list ascii * list (ascii * ascii) :=
  match cs with
  | [] => ([], [])
  | [c] => (if first then c else tl c, [])
  | c :: ((c' :: _) as cs') =>
      let '(singles, ranges) := class_of false cs' in
      let body := if first then c else tl c in
      ((removelast body ++ singles)%list,
       (last_char c, first_char c') :: ranges)
  end.

(** The item a bracket expression stands for. *)
Definition class_item (stuff : list ascii) : glob_item :=
  let wait :=
    match stuff with
    | c :: _ => if Ascii.eqb c "!" then 2%nat else 1%nat
    | [] => 1%nat
    end in
  let cs := drop_empty (close_chunks (chunks wait [] stuff)) in
  match cs with
  | (c :: body) :: rest =>
      if Ascii.eqb c "!" then
        match body, rest with
        | [], [] => AnyChar
        | _, _ => let '(s, r) := class_of true (body :: rest) in OneOf true s r
        end
      else let '(s, r) := class_of true cs in OneOf false s r
  | _ => let '(s, r) := class_of true cs in OneOf false s r
  end.

Fixpoint translate_items (fuel : nat) (pat : list ascii) : list glob_item :=
  match fuel with
  | O => []
  | S fuel =>
      match pat with
      | [] => []
      | c :: rest =>
          if Ascii.eqb c "*" then AnyString :: translate_items fuel rest
          else if Ascii.eqb c "?" then AnyChar :: translate_items fuel rest
          else if Ascii.eqb c "[" then
            match bracket rest with
            | Some (stuff, rest') =>
                class_item stuff :: translate_items fuel rest'
            | None => Literal c :: translate_items fuel rest
            end
          else Literal c :: translate_items fuel rest
      end
  end.

(** [fnmatch.translate(pat)] *)
Definition translate (pat : string) : list glob_item :=
  let l := list_ascii_of_string pat in
  translate_items (S (List.length l)) l.

(** [fnmatch.fnmatch(name, pat)] *)
Definition fnmatch (name pat : string) : bool :=
  match_items (translate pat) (list_ascii_of_string name).

(** *** [glob] and [os.walk] *)

(** [glob.has_magic]: the string holds one of [*], [?] and [[]. *)
Definition has_magic (s : string) : bool :=
  existsb (fun c => Ascii.eqb c "*" || Ascii.eqb c "?" || Ascii.eqb c "[")
    (list_ascii_of_string s).

Definition is_hidden (s : string) : bool := String.prefix "." s.

(** [glob]'s [*.json]: the name ends in [.json] and does not start with a
    dot. *)
Definition matches_json (name : string) : bool :=
  let n := String.length name in
  negb (String.prefix "." name) &&
  Nat.leb 5 n && String.eqb (String.substring (n - 5) 5 name) ".json".

(** The directories a directory pattern stands for, with their entries:
    [glob] goes through the components [comps] of the pattern from the
    directory [at_], whose entries are [entries].  A component with one
    of [*], [?] and [[] is a pattern for the names of the subdirectories
    (a hidden one only when the pattern starts with a dot); any other
    component is the name of a subdirectory. *)
Fixpoint glob_dirs (comps : list string) (at_ : path) (entries : list node)
  : list (path * list node) :=
  match comps with
  | [] => [(at_, entries)]
  | c :: rest =>
      if has_magic c then
        flat_map (fun n =>
                    match n with
                    | Dir name sub =>
                        if fnmatch name c &&
                           (is_hidden c || negb (is_hidden name))
                        then glob_dirs rest (at_ ++ [name])%list sub
                        else []
                    | File _ _ => []
                    end) entries
      else
        match find_entry c entries with
        | Some (Dir _ sub) => glob_dirs rest (at_ ++ [c])%list sub
        | _ => []
        end
  end.

(** [glob.glob(os.path.join(root, '*.json'))] from the working directory
    [cwd]: [root] is read as a pattern. *)
Definition glob_json (cwd : list node) (root : path) : list path :=
  flat_map (fun '(d, entries) =>
              map (fun n => (d ++ [node_name n])%list)
                (filter (fun n => matches_json (node_name n)) entries))
    (glob_dirs root [] cwd).

(** The loop over [os.walk(filepath)] started at node [n] of path [root]:
    every directory, top down, gives what [glob] finds for its path, in
    directory order.  Walking something that is not a directory gives
    nothing. *)
Fixpoint walk (cwd : list node) (root : path) (n : node) {struct n}
  : list path :=
  match n with
  | File _ _ => []
  | Dir _ entries =>
      (glob_json cwd root
       ++ (fix subdirs (l : list node) : list path :=
             match l with
             | [] => []
             | c :: l' => walk cwd (root ++ [node_name c]) c ++ subdirs l'
             end) entries)%list
  end.

(* ================================================================== *)
(** ** The destination store and the statements of [sql_queries] *)

Record song_row := mk_song {
  song_id : value; title : value; song_artist_id : value;
  song_year : value; duration : value
}.

Record artist_row := mk_artist {
  artist_id : value; artist_name : value; artist_location : value;
  artist_latitude : value; artist_longitude : value
}.

Record time_row := mk_time {
  start_time : value; time_hour : value; time_day : value;
  time_week : value; time_month : value; time_year : value;
  time_weekday : value
}.

Record user_row := mk_user {
  user_id : value; first_name : value; last_name : value;
  gender : value; level : value
}.

Record songplay_row := mk_songplay {
  sp_start_time : value; sp_user_id : value; sp_level : value;
  sp_song_id : value; sp_artist_id : value; sp_session_id : value;
  sp_location : value; sp_user_agent : value
}.

(** The five tables of the star schema, each in insertion order. *)
Record db := mk_db {
  songs : list song_row;
  artists : list artist_row;
  time : list time_row;
  users : list user_row;
  songplays : list songplay_row
}.

Definition empty_db : db := mk_db [] [] [] [] [].

Definition datetime_eqb (a b : datetime) : bool :=
  (year a =? year b) && (month a =? month b) && (day a =? day b) &&
  (hour a =? hour b) && (minute a =? minute b) && (second a =? second b) &&
  (microsecond a =? microsecond b).

(** Equality of two cells as key values: numbers by numeric value,
    strings and timestamps by content. *)
Definition value_eqb (a b : value) : bool :=
  match a, b with
  | VNull, VNull => true
  | VInt x, VInt y => x =? y
  | VInt x, VFloat q => Qeq_bool (inject_Z x) q
  | VFloat p, VInt y => Qeq_bool p (inject_Z y)
  | VFloat p, VFloat q => Qeq_bool p q
  | VStr s, VStr s' => String.eqb s s'
  | VTime t, VTime t' => datetime_eqb t t'
  | _, _ => false
  end.

(** The SQL comparison [a = b] in a [WHERE] or [ON] clause: a null on
    either side never compares equal. *)
Definition sql_eqb (a b : value) : bool :=
  match a, b with
  | VNull, _ | _, VNull => false
  | _, _ => value_eqb a b
  end.

(** The names [etl.py] imports from [sql_queries]. *)
Inductive query :=
| song_table_insert
| artist_table_insert
| time_table_insert
| user_table_insert
| songplay_table_insert
| song_select.

(** Modelled from the spec: the conflict policy of the song, artist and
    time inserts of [sql_queries.py], which is not part of the sources.
    Insert if absent: a row whose natural key is already in the table is
    dropped, any other row is appended. *)
Definition insert_if_absent {R} (key : R -> value) (r : R) (table : list R)
  : list R :=
  if existsb (fun r' => value_eqb (key r') (key r)) table then table
  else (table ++ [r])%list.

(** Modelled from the spec: the user insert of [sql_queries.py], which is
    not part of the sources.  Insert if absent; when the user is already
    there only the subscription level takes the incoming value. *)
Definition upsert_user (r : user_row) (table : list user_row)
  : list user_row :=
  if existsb (fun r' => value_eqb (user_id r') (user_id r)) table then
    map (fun r' =>
           if value_eqb (user_id r') (user_id r) then
             mk_user (user_id r') (first_name r') (last_name r') (gender r')
               (level r)
           else r') table
  else (table ++ [r])%list.

(** Modelled from the spec: the condition of the lookup [song_select] of
    [sql_queries.py], which is not part of the sources.  A song and an
    artist form a pair when the song is by that artist; the pair matches
    when the title, the artist name and the duration equal the three
    parameters. *)
Definition pair_matches (s : song_row) (a : artist_row)
  (song artist length : value) : bool :=
  sql_eqb (song_artist_id s) (artist_id a) &&
  sql_eqb (title s) song &&
  sql_eqb (artist_name a) artist &&
  sql_eqb (duration s) length.

(** Modelled from the spec: the lookup [song_select] of [sql_queries.py],
    which is not part of the sources.  The matching pairs as rows
    [(song_id, artist_id)], in table order. *)
Definition select_song (d : db) (song artist length : value)
  : list (list value) :=
  flat_map (fun s =>
    flat_map (fun a =>
      if pair_matches s a song artist length
      then [[song_id s; artist_id a]] else [])
      (artists d))
    (songs d).

(** Modelled from the spec: what each statement of [sql_queries.py]
    (not part of the sources) does to the store when executed with a
    parameter sequence; the second component is the result set, present
    for the lookup only.  The fact insert appends unconditionally.  A
    parameter sequence of the wrong length is rejected by the driver. *)
Definition run_query (q : query) (params : list value) (d : db)
  : result (db * option (list (list value))) :=
  match q, params with
  | song_table_insert, [a; b; c; e; f] =>
      Ok (mk_db (insert_if_absent song_id (mk_song a b c e f) (songs d))
            (artists d) (time d) (users d) (songplays d), None)
  | artist_table_insert, [a; b; c; e; f] =>
      Ok (mk_db (songs d)
            (insert_if_absent artist_id (mk_artist a b c e f) (artists d))
            (time d) (users d) (songplays d), None)
  | time_table_insert, [a; b; c; e; f; g; h] =>
      Ok (mk_db (songs d) (artists d)
            (insert_if_absent start_time (mk_time a b c e f g h) (time d))
            (users d) (songplays d), None)
  | user_table_insert, [a; b; c; e; f] =>
      Ok (mk_db (songs d) (artists d) (time d)
            (upsert_user (mk_user a b c e f) (users d)) (songplays d), None)
  | songplay_table_insert, [a; b; c; e; f; g; h; i] =>
      Ok (mk_db (songs d) (artists d) (time d) (users d)
            (songplays d ++ [mk_songplay a b c e f g h i])%list, None)
  | song_select, [a; b; c] => Ok (d, Some (select_song d a b c))
  | _, _ => Raise ProgrammingError
  end.

(* ================================================================== *)
(** ** The session: connection, cursor, standard output *)

(** What [process_data] prints. *)
Inductive line :=
| FilesFound (num_files : nat) (filepath : path)
| FilesProcessed (i num_files : nat).

(** What the run does to the outside, in order. *)
Inductive event :=
| Execute (q : query) (params : list value)
| Commit
| Print (l : line)
| Close.

(** The state the functions of [etl.py] act on: the input tree, the
    committed store, the store as the open transaction sees it, the
    result set of the cursor, and the events so far.  When the program
    ends, normally or by an exception, [persisted] is what the database
    holds. *)
Record world := mk_world {
  fs : list node;
  persisted : db;
  txn : db;
  fetched : option (list (list value));
  events : list event
}.

Definition M (A : Type) : Type := world -> result A * world.

Definition ret {A} (a : A) : M A := fun w => (Ok a, w).

Definition raise {A} (e : exn) : M A := fun w => (Raise e, w).

Definition bind {A B} (m : M A) (k : A -> M B) : M B :=
  fun w =>
    match m w with
    | (Ok a, w') => k a w'
    | (Raise e, w') => (Raise e, w')
    end.

Definition lift {A} (r : result A) : M A := fun w => (r, w).

Notation "x <- m ;; k" := (bind m (fun x => k))
  (at level 61, m at next level, right associativity).
Notation "m ;;; k" := (bind m (fun _ => k))
  (at level 61, right associativity).

(** [for a in l: body(a)] *)
Fixpoint for_each {A} (l : list A) (body : A -> M unit) : M unit :=
  match l with
  | [] => ret tt
  | a :: l' => body a ;;; for_each l' body
  end.

(** [pd.read_json(filepath, lines=True)] *)
Definition read_json (filepath : path) : M DataFrame :=
  fun w =>
    match lookup_path filepath (fs w) with
    | Some (File _ (Some records)) => (Ok (frame_of_records records), w)
    | Some (File _ None) => (Raise ValueError, w)
    | Some (Dir _ _) | None => (Raise OSError, w)
    end.

(** [cur.execute(q, params)] *)
Definition execute (q : query) (params : list value) : M unit :=
  fun w =>
    match run_query q params (txn w) with
    | Ok (d, res) =>
        (Ok tt, mk_world (fs w) (persisted w) d res
                  (events w ++ [Execute q params]))
    | Raise e => (Raise e, w)
    end.

(** How the driver adapts a parameter to SQL; it has no adapter for a
    [numpy.int64]. *)
Definition adapt (o : pyobject) : result value :=
  match o with
  | Native v => Ok v
  | NumpyInt64 _ => Raise ProgrammingError
  end.

(** [cur.execute(q, args)] for a sequence [args] that comes out of a
    numpy array: every element is adapted before the statement is
    sent. *)
Definition execute_adapting (q : query) (args : list pyobject) : M unit :=
  params <- lift (rmap adapt args) ;;
  execute q params.

(** [cur.fetchone()] *)
Definition fetchone : M (option (list value)) :=
  fun w =>
    match fetched w with
    | None => (Raise ProgrammingError, w)
    | Some [] => (Ok None, w)
    | Some (r :: rest) =>
        (Ok (Some r),
         mk_world (fs w) (persisted w) (txn w) (Some rest) (events w))
    end.

(** [conn.commit()] *)
Definition commit : M unit :=
  fun w =>
    (Ok tt, mk_world (fs w) (txn w) (txn w) (fetched w)
              (events w ++ [Commit])).

(** [print(...)] *)
Definition print (l : line) : M unit :=
  fun w =>
    (Ok tt, mk_world (fs w) (persisted w) (txn w) (fetched w)
              (events w ++ [Print l])).

(** [conn.close()]: whatever was not committed is discarded. *)
Definition close : M unit :=
  fun w =>
    (Ok tt, mk_world (fs w) (persisted w) (persisted w) None
              (events w ++ [Close])).

(* ================================================================== *)
(** ** [etl.py] *)

Definition song_columns : list string :=
  ["song_id"; "title"; "artist_id"; "year"; "duration"].

Definition artist_columns : list string :=
  ["artist_id"; "artist_name"; "artist_location"; "artist_latitude";
   "artist_longitude"].

Definition user_columns : list string :=
  ["userId"; "firstName"; "lastName"; "gender"; "level"].

(** [process_song_file(cur, filepath)] *)
Definition process_song_file (filepath : path) : M unit :=
  (* open song file *)
  df <- read_json filepath ;;
  (* insert song record *)
  song_df <- lift (select_columns df song_columns) ;;
  let song_data := values song_df in
  song0 <- lift (item0 song_data) ;;
  execute_adapting song_table_insert song0 ;;;
  (* insert artist record *)
  artist_df <- lift (select_columns df artist_columns) ;;
  artist_data <- lift (iloc0_values_tolist artist_df) ;;
  execute_adapting artist_table_insert artist_data.

(** The body of the last loop of [process_log_file], for one row [row]
    of the filtered frame under its label [index]. *)
Definition insert_songplay (t : list (nat * datetime)) (index : nat)
  (row : Series) : M unit :=
  (* get songid and artistid from song and artist tables *)
  song <- lift (getattr row "song") ;;
  artist <- lift (getattr row "artist") ;;
  length <- lift (getattr row "length") ;;
  execute song_select [song; artist; length] ;;;
  results <- fetchone ;;
  ids <- lift (match results with
               | Some [songid; artistid] => Ok (songid, artistid)
               | Some _ => Raise ValueError
               | None => Ok (VNull, VNull)
               end) ;;
  let '(songid, artistid) := ids in
  (* insert songplay record *)
  start <- lift (loc t index) ;;
  userId <- lift (getattr row "userId") ;;
  level <- lift (getattr row "level") ;;
  sessionId <- lift (getattr row "sessionId") ;;
  location <- lift (getattr row "location") ;;
  userAgent <- lift (getattr row "userAgent") ;;
  execute songplay_table_insert
    [VTime start; userId; level; songid; artistid; sessionId; location;
     userAgent].

(** [process_log_file(cur, filepath)], for the local zone [utcoffset].
    The three loops run once per filtered row, in frame order.  The rows
    of [time_df] hold a timestamp and integers and those of the last loop
    hold the string of the [page] column, so [iterrows] yields Python
    values for both. *)
Definition process_log_file (utcoffset : Z -> Z) (filepath : path) : M unit :=
  (* open log file *)
  df <- read_json filepath ;;
  (* filter by NextSong action *)
  df <- lift (filter_NextSong df) ;;
  (* convert timestamp column to datetime *)
  ts <- lift (column df "ts") ;;
  t <- lift (series_apply (fromtimestamp utcoffset) ts) ;;
  (* insert time data records *)
  lift (dt t) ;;;
  let time_data := map (fun '(_, x) => time_tuple x) t in
  for_each time_data (fun row => execute time_table_insert row) ;;;
  (* load user table *)
  user_df <- lift (select_columns df user_columns) ;;
  (* insert user records *)
  for_each (iterrows user_df)
    (fun '(_, row) => execute_adapting user_table_insert row) ;;;
  (* insert songplay records *)
  for_each (rows df) (fun '(index, row) => insert_songplay t index row).

(** The loop of [process_data] over [enumerate(all_files, i)]. *)
Fixpoint process_files (func : path -> M unit) (num_files i : nat)
  (files : list path) : M unit :=
  match files with
  | [] => ret tt
  | datafile :: rest =>
      func datafile ;;;
      commit ;;;
      print (FilesProcessed i num_files) ;;;
      process_files func num_files (S i) rest
  end.

(** The files the walk of [filepath] finds. *)
Definition all_files (w : world) (filepath : path) : list path :=
  match lookup_path filepath (fs w) with
  | Some n => walk (fs w) filepath n
  | None => []
  end.

(** [process_data(cur, conn, filepath, func)] *)
Definition process_data (filepath : path) (func : path -> M unit) : M unit :=
  fun w =>
    (* get all files matching extension from directory *)
    let files := all_files w filepath in
    (* get total number of files found *)
    let num_files := List.length files in
    (print (FilesFound num_files filepath) ;;;
     (* iterate over files and process *)
     process_files func num_files 1 files) w.

(** [main()], started on a fresh connection. *)
Definition main (utcoffset : Z -> Z) : M unit :=
  process_data ["data"; "song_data"] process_song_file ;;;
  process_data ["data"; "log_data"] (process_log_file utcoffset) ;;;
  close.

(** A fresh connection to a database holding [d], in the tree [tree]. *)
Definition connect (tree : list node) (d : db) : world :=
  mk_world tree d d None [].

(* ================================================================== *)
(** ** Notions the properties are stated with *)

(** Day count of January 1st of year [y]. *)
Definition jan1 (y : Z) : Z := days_from_civil y 1 1.

(** The calendar year a day count falls in. *)
Definition year_of (z : Z) : Z := fst (fst (civil_from_days z)).

(** A float that is not positive. *)
Definition not_positive (f : binary64) : Prop :=
  match f with
  | SpecFloat.S754_finite s _ _ | SpecFloat.S754_infinity s => s = true
  | SpecFloat.S754_zero _ | SpecFloat.S754_nan => True
  end.

(** The ISO 8601 week of a day, in the words of the standard: weeks run
    from Monday to Sunday, a week belongs to the year its Thursday falls
    in, and weeks are numbered from 1 within that year. *)
Definition iso_week (days : Z) : Z :=
  let thursday := days - (days + 3) mod 7 + 3 in
  let '(y, _, _) := civil_from_days thursday in
  (thursday - days_from_civil y 1 1) / 7 + 1.

(** The local day count of the instant [us] microseconds after the
    epoch: the calendar date obtained by converting the timestamp
    directly. *)
Definition local_day (utcoffset : Z -> Z) (us : Z) : Z :=
  (us / 1000000 + utcoffset (us / 1000000)) / 86400.

Definition is_execute (e : event) : bool :=
  match e with
  | Execute _ _ => true
  | _ => false
  end.

(** The store after a statement that was accepted. *)
Definition exec_db (q : query) (params : list value) (d : db) : db :=
  match run_query q params d with
  | Ok (d', _) => d'
  | Raise _ => d
  end.

(** What an event does to the committed store and to the store as the
    open transaction sees it. *)
Definition replay_event (s : db * db) (e : event) : db * db :=
  match e with
  | Execute q params => (fst s, exec_db q params (snd s))
  | Commit => (snd s, snd s)
  | Print _ => s
  | Close => (fst s, fst s)
  end.

Definition replay (ev : list event) (s : db * db) : db * db :=
  fold_left replay_event ev s.

(** The ids the loop body of [process_log_file] takes from the first row
    of the lookup, or the two nulls. *)
Definition resolved_ids (d : db) (song artist length : value)
  : value * value :=
  match select_song d song artist length with
  | [songid; artistid] :: _ => (songid, artistid)
  | _ => (VNull, VNull)
  end.

(** The parameters of the fact insert for a filtered row [row] whose
    timestamp was converted to [start], against the store [d]. *)
Definition songplay_params (d : db) (start : datetime) (row : Series)
  : list value :=
  let ids := resolved_ids d (cell row "song") (cell row "artist")
               (cell row "length") in
  [VTime start; cell row "userId"; cell row "level"; fst ids; snd ids;
   cell row "sessionId"; cell row "location"; cell row "userAgent"].

(** The fact row these parameters insert. *)
Definition songplay_of (d : db) (start : datetime) (row : Series)
  : songplay_row :=
  let ids := resolved_ids d (cell row "song") (cell row "artist")
               (cell row "length") in
  mk_songplay (VTime start) (cell row "userId") (cell row "level")
    (fst ids) (snd ids)
    (cell row "sessionId") (cell row "location") (cell row "userAgent").

(** The rows of a decoded log file that pass the [NextSong] filter. *)
Definition NextSong_rows (records : list json_record) : list (nat * Series) :=
  filter (fun '(_, r) => is_NextSong (cell r "page"))
    (rows (frame_of_records records)).

(** The entries of the directory at path [p] below [entries]. *)
Fixpoint resolve (p : path) (entries : list node) : option (list node) :=
  match p with
  | [] => Some entries
  | name :: rest =>
      match find_entry name entries with
      | Some (Dir _ sub) => resolve rest sub
      | _ => None
      end
  end.

(** A tree as a file system holds it, with plain directory names: in no
    directory do two entries have the same name, and no directory name
    holds one of the characters [*], [?] and [[]. *)
Inductive plain : node -> Prop :=
| plain_file name content : plain (File name content)
| plain_dir name entries :
    NoDup (map node_name entries) ->
    Forall (fun c => match c with
                     | Dir n _ => has_magic n = false
                     | File _ _ => True
                     end) entries ->
    Forall plain entries ->
    plain (Dir name entries).

(** The lines of a log file whose [page] is the string [NextSong]. *)
Definition played (records : list json_record) : list json_record :=
  filter (fun r => value_eqb (cell r "page") (VStr "NextSong")) records.

(** A computation that only goes through the cursor: it leaves the input
    tree and the committed store alone, and what it does to the open
    transaction is what the statements it executed do. *)
Definition cursor_only {A} (m : M A) : Prop :=
  forall w r w',
    m w = (r, w') ->
    fs w' = fs w /\ persisted w' = persisted w /\
    exists ev,
      events w' = (events w ++ ev)%list /\
      Forall (fun e => is_execute e = true) ev /\
      txn w' = snd (replay ev (persisted w, txn w)).

(** A computation whose effect on the database is the one of the events
    it adds. *)
Definition sourced {A} (m : M A) : Prop :=
  forall w r w',
    m w = (r, w') ->
    fs w' = fs w /\
    exists ev,
      events w' = (events w ++ ev)%list /\
      (persisted w', txn w') = replay ev (persisted w, txn w).

(** The time row and the user row the loops of [process_log_file]
    insert for a converted timestamp and for a filtered row. *)
Definition time_row_of (x : datetime) : time_row :=
  mk_time (VTime x) (VInt (hour x)) (VInt (day x)) (VInt (weekofyear x))
    (VInt (month x)) (VInt (year x)) (VInt (weekday x)).

Definition user_row_of (r : Series) : user_row :=
  mk_user (cell r "userId") (cell r "firstName") (cell r "lastName")
    (cell r "gender") (cell r "level").

(** The events of the last loop of [process_log_file] for the rows
    [rowsl], whose timestamps were converted to [starts]. *)
Definition songplay_events (d : db) (rowsl : list (nat * Series))
  (starts : list datetime) : list event :=
  flat_map (fun '((_, r), x) =>
              [Execute song_select [cell r "song"; cell r "artist";
                                    cell r "length"];
               Execute songplay_table_insert (songplay_params d x r)])
    (combine rowsl starts).

(** The fact rows that loop inserts. *)
Definition songplay_rows (d : db) (rowsl : list (nat * Series))
  (starts : list datetime) : list songplay_row :=
  map (fun '((_, r), x) => songplay_of d x r) (combine rowsl starts).

Definition query_eqb (q q' : query) : bool :=
  match q, q' with
  | song_table_insert, song_table_insert
  | artist_table_insert, artist_table_insert
  | time_table_insert, time_table_insert
  | user_table_insert, user_table_insert
  | songplay_table_insert, songplay_table_insert
  | song_select, song_select => true
  | _, _ => false
  end.

(** How many times statement [q] was executed in [ev]. *)
Definition count_execute (q : query) (ev : list event) : nat :=
  List.length
    (filter (fun e => match e with
                      | Execute q' _ => query_eqb q q'
                      | _ => false
                      end) ev).

(** The two foreign keys of a fact row are both null or both set. *)
Definition ids_consistent (f : songplay_row) : Prop :=
  (sp_song_id f = VNull /\ sp_artist_id f = VNull) \/
  (sp_song_id f <> VNull /\ sp_artist_id f <> VNull).

(** A key value occurs among [keys]. *)
Definition has_key (keys : list value) (k : value) : bool :=
  existsb (fun k' => value_eqb k' k) keys.

Definition keys_incl (ks ks' : list value) : Prop :=
  forall k, has_key ks k = true -> has_key ks' k = true.

(** Every natural key of a dimension table of [d] is one of [d']. *)
Definition keys_sub (d d' : db) : Prop :=
  keys_incl (map song_id (songs d)) (map song_id (songs d')) /\
  keys_incl (map artist_id (artists d)) (map artist_id (artists d')) /\
  keys_incl (map start_time (time d)) (map start_time (time d')) /\
  keys_incl (map user_id (users d)) (map user_id (users d')).

(** What identifies a user row apart from the subscription level. *)
Definition user_identity (r : user_row) : value * value * value * value :=
  (user_id r, first_name r, last_name r, gender r).

(** Two stores have the same dimension tables, up to the subscription
    level of the users. *)
Definition dims_same (d d' : db) : Prop :=
  songs d = songs d' /\ artists d = artists d' /\ time d = time d' /\
  map user_identity (users d) = map user_identity (users d').

(** Two events are the same up to the parameters of a lookup or of a
    fact insert. *)
Definition view_eq (e1 e2 : event) : Prop :=
  match e1, e2 with
  | Execute song_select _, Execute song_select _ => True
  | Execute songplay_table_insert _, Execute songplay_table_insert _ => True
  | _, _ => e1 = e2
  end.

(** Two computations that, run in the same input tree on any two stores,
    end the same way with results related by [R], having added events
    that are the same up to lookups and fact inserts. *)
Definition sim {A} (R : A -> A -> Prop) (m1 m2 : M A) : Prop :=
  forall w v r1 w1 r2 v1,
    fs w = fs v ->
    m1 w = (r1, w1) ->
    m2 v = (r2, v1) ->
    fs w1 = fs v1 /\
    match r1, r2 with
    | Ok a, Ok b => R a b
    | Raise e, Raise e' => e = e'
    | _, _ => False
    end /\
    exists e1 e2,
      events w1 = (events w ++ e1)%list /\
      events v1 = (events v ++ e2)%list /\
      Forall2 view_eq e1 e2.

(** [inside n rel c]: the entry [c] lies under the directory [n], [rel]
    being the names from the entry of [n] it is reached through down to
    [c] itself. *)
Inductive inside : node -> path -> node -> Prop :=
| inside_entry name entries c :
    In c entries -> inside (Dir name entries) [node_name c] c
| inside_deeper name entries d rel c :
    In d entries -> inside d rel c ->
    inside (Dir name entries) (node_name d :: rel) c.

(** Statements of the two kinds of file. *)
Definition song_stmt (e : event) : Prop :=
  match e with
  | Execute song_table_insert _ | Execute artist_table_insert _ => True
  | _ => False
  end.

Definition log_stmt (e : event) : Prop :=
  match e with
  | Execute time_table_insert _ | Execute user_table_insert _
  | Execute songplay_table_insert _ | Execute song_select _ => True
  | _ => False
  end.

(** A computation all of whose events satisfy [P], however it ends. *)
Definition emits {A} (P : event -> Prop) (m : M A) : Prop :=
  forall w r w',
    m w = (r, w') ->
    exists ev, events w' = (events w ++ ev)%list /\ Forall P ev.

(** The number of lines of the log file at [f] whose [page] is
    [NextSong]; 0 where [f] is not a decodable file. *)
Definition NextSong_count (tree : list node) (f : path) : nat :=
  match lookup_path f tree with
  | Some (File _ (Some records)) =>
      List.length (filter (fun r => is_NextSong (cell r "page")) records)
  | _ => 0%nat
  end.

(** In [table], the user [k] is present and every row of that user has
    level [l]. *)
Definition user_has_level (k l : value) (table : list user_row) : Prop :=
  (exists u, In u table /\ value_eqb (user_id u) k = true) /\
  (forall u, In u table -> value_eqb (user_id u) k = true -> level u = l).

(** No two keys of the list are equal. *)
Fixpoint unique_keys (ks : list value) : Prop :=
  match ks with
  | [] => True
  | k :: ks' => has_key ks' k = false /\ unique_keys ks'
  end.

(** Every dimension table of [d] has pairwise distinct natural keys. *)
Definition unique_db (d : db) : Prop :=
  unique_keys (map song_id (songs d)) /\
  unique_keys (map artist_id (artists d)) /\
  unique_keys (map start_time (time d)) /\
  unique_keys (map user_id (users d)).

(** [l'] is [l] followed by further elements. *)
Definition is_prefix {A} (l l' : list A) : Prop :=
  exists rest, l' = (l ++ rest)%list.

(** The store [d'] holds every row of [d], in place, a user row up to
    its subscription level, and possibly further rows after them. *)
Definition extends (d d' : db) : Prop :=
  is_prefix (songs d) (songs d') /\
  is_prefix (artists d) (artists d') /\
  is_prefix (time d) (time d') /\
  is_prefix (map user_identity (users d)) (map user_identity (users d')) /\
  is_prefix (songplays d) (songplays d').

(** The rows a metadata record inserts. *)
Definition song_row_of (r : json_record) : song_row :=
  mk_song (cell r "song_id") (cell r "title") (cell r "artist_id")
    (cell r "year") (cell r "duration").

Definition artist_row_of (r : json_record) : artist_row :=
  mk_artist (cell r "artist_id") (cell r "artist_name")
    (cell r "artist_location") (cell r "artist_latitude")
    (cell r "artist_longitude").

(** The zone of the examples: UTC. *)
Definition utc : Z -> Z := fun _ => 0.

(** A metadata record and a log line, and input trees holding them. *)
Definition example_song : json_record :=
  [("song_id", VStr "S1"); ("title", VStr "T"); ("artist_id", VStr "A1");
   ("year", VInt 2000); ("duration", VFloat (401 # 2));
   ("artist_name", VStr "X"); ("artist_location", VStr "L");
   ("artist_latitude", VFloat (71 # 2));
   ("artist_longitude", VFloat (- 361 # 4))].

Definition example_event (page song : string) (ts : Z) : json_record :=
  [("page", VStr page); ("ts", VInt ts); ("song", VStr song);
   ("artist", VStr "X"); ("length", VFloat (401 # 2)); ("userId", VStr "u7");
   ("firstName", VStr "A"); ("lastName", VStr "B"); ("gender", VStr "F");
   ("level", VStr "free"); ("sessionId", VInt 100); ("location", VStr "LA");
   ("userAgent", VStr "UA")].

Definition example_log : list json_record :=
  [example_event "Home" "T" 1541105830000;
   example_event "NextSong" "T" 1541105830796;
   example_event "NextSong" "U" 1541105900000].

Definition example_tree : list node :=
  [Dir "data"
     [Dir "song_data"
        [Dir "A" [File "a.json" (Some [example_song]); File "notes.txt" None]];
      Dir "log_data" [File "2018-11-01-events.json" (Some example_log)]]].

Definition example_log_path : path :=
  ["data"; "log_data"; "2018-11-01-events.json"].

(** A store holding the song and the artist of [example_song]. *)
Definition example_db : db :=
  mk_db
    [mk_song (VStr "S1") (VStr "T") (VStr "A1") (VInt 2000) (VFloat (401 # 2))]
    [mk_artist (VStr "A1") (VStr "X") (VStr "L") (VFloat (71 # 2))
       (VFloat (- 361 # 4))]
    [] [] [].

(** The same tree with a metadata file that is not JSON between two that
    are. *)
Definition broken_tree : list node :=
  [Dir "data"
     [Dir "song_data"
        [File "a.json" (Some [example_song]);
         File "b.json" None;
         File "c.json" (Some [example_song])];
      Dir "log_data" [File "2018-11-01-events.json" (Some example_log)]]].

(* ================================================================== *)
(** * Properties *)

(** ** Calendar arithmetic *)

Section Calendar.

Lemma yoe_bounds doe :
  0 <= doe < 146097 ->
  let yoe := (doe - doe / 1460 + doe / 36524 - doe / 146096) / 365 in
  0 <= yoe < 400 /\ 0 <= doe - (365 * yoe + yoe / 4 - yoe / 100) < 366.
Proof.
  intros H. cbv zeta.
  Z.div_mod_to_equations. lia.
Qed.

(** The decomposition [civil_from_days] computes: era, year of era and
    day of the year counted from March 1st. *)
Lemma civil_from_days_spec z :
  exists era yoe doy,
    z = era * 146097 + (doy + (365 * yoe + yoe / 4 - yoe / 100)) - 719468 /\
    0 <= yoe < 400 /\ 0 <= doy < 366 /\
    0 <= doy + (365 * yoe + yoe / 4 - yoe / 100) < 146097 /\
    civil_from_days z =
      (if doy <? 306 then yoe + era * 400 else yoe + era * 400 + 1,
       if doy <? 306 then (5 * doy + 2) / 153 + 3 else (5 * doy + 2) / 153 - 9,
       doy - (153 * ((5 * doy + 2) / 153) + 2) / 5 + 1).
Proof.
  unfold civil_from_days.
  set (z' := z + 719468).
  set (era := z' / 146097).
  set (doe := z' - era * 146097).
  assert (Hdoe : 0 <= doe < 146097).
  { subst doe era. Z.div_mod_to_equations. lia. }
  pose proof (yoe_bounds doe Hdoe) as Hy. cbv zeta in Hy.
  set (yoe := (doe - doe / 1460 + doe / 36524 - doe / 146096) / 365) in *.
  set (doy := doe - (365 * yoe + yoe / 4 - yoe / 100)) in *.
  exists era, yoe, doy.
  assert (Hz : z = era * 146097 + doe - 719468) by (subst doe z'; lia).
  assert (Hd : doe = doy + (365 * yoe + yoe / 4 - yoe / 100))
    by (subst doy; lia).
  clearbody doy yoe doe era.
  repeat split; try lia.
  destruct (Z.ltb_spec doy 306);
    destruct (Z.ltb_spec ((5 * doy + 2) / 153) 10);
    try (exfalso; Z.div_mod_to_equations; lia).
  - destruct (Z.leb_spec ((5 * doy + 2) / 153 + 3) 2); [exfalso | reflexivity].
    Z.div_mod_to_equations; lia.
  - destruct (Z.leb_spec ((5 * doy + 2) / 153 - 9) 2); [reflexivity | exfalso].
    Z.div_mod_to_equations; lia.
Qed.

(** Converting a day count to a date and back gives the day count. *)
Lemma days_from_civil_from_days z :
  let '(y, m, d) := civil_from_days z in
  days_from_civil y m d = z /\ 1 <= m <= 12 /\ 1 <= d <= 31.
Proof.
  destruct (civil_from_days_spec z)
    as (era & yoe & doy & Hz & Hy & Hdoy & Hdoe & ->).
  unfold days_from_civil.
  destruct (Z.ltb_spec doy 306).
  - destruct (Z.leb_spec ((5 * doy + 2) / 153 + 3) 2);
      [exfalso; Z.div_mod_to_equations; lia|].
    destruct (Z.ltb_spec 2 ((5 * doy + 2) / 153 + 3)); [|lia].
    replace ((5 * doy + 2) / 153 + 3 - 3) with ((5 * doy + 2) / 153) by lia.
    assert ((yoe + era * 400) / 400 = era) as ->
      by (Z.div_mod_to_equations; lia).
    replace (yoe + era * 400 - era * 400) with yoe by lia.
    repeat split; try lia; Z.div_mod_to_equations; lia.
  - destruct (Z.leb_spec ((5 * doy + 2) / 153 - 9) 2);
      [|exfalso; Z.div_mod_to_equations; lia].
    destruct (Z.ltb_spec 2 ((5 * doy + 2) / 153 - 9)); [lia|].
    replace ((5 * doy + 2) / 153 - 9 + 9) with ((5 * doy + 2) / 153) by lia.
    replace (yoe + era * 400 + 1 - 1) with (yoe + era * 400) by lia.
    assert ((yoe + era * 400) / 400 = era) as ->
      by (Z.div_mod_to_equations; lia).
    replace (yoe + era * 400 - era * 400) with yoe by lia.
    repeat split; try lia; Z.div_mod_to_equations; lia.
Qed.

Lemma jan1_eq y :
  jan1 y = (y - 1) / 400 * 146097
           + ((y - 1 - (y - 1) / 400 * 400) * 365
              + (y - 1 - (y - 1) / 400 * 400) / 4
              - (y - 1 - (y - 1) / 400 * 400) / 100 + 306) - 719468.
Proof. reflexivity. Qed.

(** A year has 365 or 366 days. *)
Lemma jan1_step y :
  jan1 (y + 1) - jan1 y = 365 \/ jan1 (y + 1) - jan1 y = 366.
Proof.
  rewrite !jan1_eq.
  replace (y + 1 - 1) with y by lia.
  Z.div_mod_to_equations; lia.
Qed.

Lemma jan1_mono a b : a <= b -> jan1 a <= jan1 b.
Proof.
  intros H. rewrite !jan1_eq. Z.div_mod_to_equations; lia.
Qed.

(** A day lies between January 1st of its year and of the next. *)
Lemma year_of_bounds z : jan1 (year_of z) <= z < jan1 (year_of z + 1).
Proof.
  unfold year_of.
  destruct (civil_from_days_spec z)
    as (era & yoe & doy & Hz & Hy & Hdoy & Hdoe & ->).
  cbn [fst]. rewrite !jan1_eq.
  destruct (Z.ltb_spec doy 306).
  - replace (yoe + era * 400 + 1 - 1) with (yoe + era * 400) by lia.
    Z.div_mod_to_equations; lia.
  - replace (yoe + era * 400 + 1 + 1 - 1) with (yoe + era * 400 + 1) by lia.
    replace (yoe + era * 400 + 1 - 1) with (yoe + era * 400) by lia.
    Z.div_mod_to_equations; lia.
Qed.

Lemma year_of_unique z y : jan1 y <= z < jan1 (y + 1) -> year_of z = y.
Proof.
  intros H. pose proof (year_of_bounds z) as B.
  destruct (Z.lt_trichotomy (year_of z) y) as [L | [E | G]]; [|exact E|].
  - pose proof (jan1_mono (year_of z + 1) y ltac:(lia)). lia.
  - pose proof (jan1_mono (y + 1) (year_of z) ltac:(lia)). lia.
Qed.

(** Week 1 starts on a Monday at most three days away from January 1st. *)
Lemma isoweek1monday_spec y :
  (isoweek1monday y + 3) mod 7 = 0 /\
  jan1 y - 3 <= isoweek1monday y <= jan1 y + 3.
Proof.
  unfold isoweek1monday. fold (jan1 y).
  destruct (Z.ltb_spec 3 ((jan1 y + 3) mod 7));
    split; Z.div_mod_to_equations; lia.
Qed.

(** [weekofyear] computes the ISO week of the date. *)
Lemma weekofyear_iso D y m d hh mi ss us :
  civil_from_days D = (y, m, d) ->
  weekofyear (mkdatetime y m d hh mi ss us) = iso_week D /\
  1 <= iso_week D <= 53.
Proof.
  intros E.
  pose proof (days_from_civil_from_days D) as R. rewrite E in R.
  destruct R as (R & _).
  pose proof (year_of_bounds D) as B. unfold year_of in B. rewrite E in B.
  cbn [fst] in B.
  unfold weekofyear, toordinal. cbn [year month day]. rewrite R.
  unfold iso_week.
  set (th := D - (D + 3) mod 7 + 3).
  pose proof (isoweek1monday_spec y) as (M0 & W0).
  pose proof (isoweek1monday_spec (y - 1)) as (Mp & Wp).
  pose proof (isoweek1monday_spec (y + 1)) as (Mn & Wn).
  pose proof (jan1_step (y - 1)) as Sp.
  replace (y - 1 + 1) with y in Sp by lia.
  pose proof (jan1_step y) as S0.
  pose proof (jan1_step (y + 1)) as Sn.
  assert (Hth : forall y', jan1 y' <= th < jan1 (y' + 1) ->
            civil_from_days th =
              (y', snd (fst (civil_from_days th)), snd (civil_from_days th))).
  { intros y' Hy'. apply year_of_unique in Hy'. unfold year_of in Hy'.
    destruct (civil_from_days th) as [[a b] c]. cbn in *. congruence. }
  destruct (Z.ltb_spec ((D - isoweek1monday y) / 7) 0) as [L | L].
  - rewrite (Hth (y - 1)).
    + fold (jan1 (y - 1)). subst th. split; Z.div_mod_to_equations; lia.
    + replace (y - 1 + 1) with y by lia. subst th.
      Z.div_mod_to_equations; lia.
  - destruct (Z.leb_spec 52 ((D - isoweek1monday y) / 7)) as [L2 | L2];
      [destruct (Z.leb_spec (isoweek1monday (y + 1)) D) as [L3 | L3] |];
      cbn [andb].
    + rewrite (Hth (y + 1)).
      * fold (jan1 (y + 1)). subst th. split; Z.div_mod_to_equations; lia.
      * subst th. replace (y + 1 + 1) with (y + 2) in * by lia.
        Z.div_mod_to_equations; lia.
    + rewrite (Hth y).
      * fold (jan1 y). subst th. split; Z.div_mod_to_equations; lia.
      * subst th. Z.div_mod_to_equations; lia.
    + rewrite (Hth y).
      * fold (jan1 y). subst th. split; Z.div_mod_to_equations; lia.
      * subst th. Z.div_mod_to_equations; lia.
Qed.

End Calendar.

(** ** Time derivation *)

Lemma local_year_inv utcoffset s y :
  local_year utcoffset s = Ok y ->
  y = fst (fst (civil_from_days ((s + utcoffset s) / 86400))) /\
  1 <= y <= 9999.
Proof.
  unfold local_year.
  set (yy := fst (fst (civil_from_days ((s + utcoffset s) / 86400)))).
  cbv zeta.
  destruct (tm_year_fits s && tm_year_fits (s + utcoffset s)); [|discriminate].
  destruct (Z.leb_spec 1 yy); [|discriminate].
  destruct (Z.leb_spec yy 9999); [|discriminate].
  intros E. injection E as <-. split; [reflexivity | lia].
Qed.

Lemma fromtimestamp_inv utcoffset x t :
  fromtimestamp utcoffset x = Ok t ->
  exists us,
    epoch_micros x = Ok us /\
    civil_from_days (local_day utcoffset us) = (year t, month t, day t) /\
    hour t = ((us / 1000000 + utcoffset (us / 1000000)) mod 86400) / 3600 /\
    1 <= year t <= 9999.
Proof.
  unfold fromtimestamp, rbind.
  destruct (epoch_micros x) as [us | e]; [|discriminate].
  destruct (local_year utcoffset (us / 1000000)) as [y0|] eqn:Ey;
    [|discriminate].
  destruct (local_year utcoffset (us / 1000000 - 86400)); [|discriminate].
  destruct (if _ <? 0 then _ else _); [|discriminate].
  apply local_year_inv in Ey. fold (local_day utcoffset us) in *.
  destruct (civil_from_days (local_day utcoffset us)) as [[y m] d] eqn:E.
  cbn [fst] in Ey.
  intros [= <-]. exists us. cbn [year month day hour].
  repeat split; try reflexivity; try exact E; lia.
Qed.

(** C4. For any timestamp the pipeline converts, the time record built
    from it has an hour between 0 and 23 and a weekday between 0 and 6;
    the date rebuilt from its year, month and day is the calendar date of
    the timestamp converted directly; its week is the ISO 8601 week of
    that date and its weekday counts from Monday as 0.  The same
    derivation serves every row, whatever the file. *)
Theorem time_record_fields utcoffset x t :
  fromtimestamp utcoffset x = Ok t ->
  exists us,
    epoch_micros x = Ok us /\
    time_tuple t =
      [VTime t; VInt (hour t); VInt (day t); VInt (weekofyear t);
       VInt (month t); VInt (year t); VInt (weekday t)] /\
    0 <= hour t <= 23 /\
    0 <= weekday t <= 6 /\
    civil_from_days (local_day utcoffset us) = (year t, month t, day t) /\
    days_from_civil (year t) (month t) (day t) = local_day utcoffset us /\
    weekofyear t = iso_week (local_day utcoffset us) /\
    1 <= weekofyear t <= 53 /\
    weekday t = (local_day utcoffset us + 3) mod 7.
Proof.
  intros H. destruct (fromtimestamp_inv _ _ _ H) as (us & Hus & Hc & Hh & Hy).
  exists us.
  pose proof (days_from_civil_from_days (local_day utcoffset us)) as R.
  rewrite Hc in R. destruct R as (R & _).
  assert (Hw : weekofyear t = iso_week (local_day utcoffset us) /\
               1 <= iso_week (local_day utcoffset us) <= 53).
  { destruct t as [y m d hh mi ss u]. cbn [year month day] in Hc.
    apply weekofyear_iso. exact Hc. }
  destruct Hw as (Hw & Hr).
  repeat split; try assumption; try reflexivity.
  - rewrite Hh. Z.div_mod_to_equations; lia.
  - rewrite Hh. Z.div_mod_to_equations; lia.
  - unfold weekday. Z.div_mod_to_equations; lia.
  - unfold weekday. Z.div_mod_to_equations; lia.
  - rewrite Hw. lia.
  - rewrite Hw. lia.
  - unfold weekday, toordinal. rewrite R. reflexivity.
Qed.

Lemma time_record_fields_witness :
  exists us,
    epoch_micros (VInt 1541105830796) = Ok us /\
    time_tuple (mkdatetime 2018 11 1 20 57 10 796000) =
      [VTime (mkdatetime 2018 11 1 20 57 10 796000); VInt 20; VInt 1;
       VInt (weekofyear (mkdatetime 2018 11 1 20 57 10 796000));
       VInt 11; VInt 2018;
       VInt (weekday (mkdatetime 2018 11 1 20 57 10 796000))] /\
    0 <= 20 <= 23 /\
    0 <= weekday (mkdatetime 2018 11 1 20 57 10 796000) <= 6 /\
    civil_from_days (local_day utc us) = (2018, 11, 1) /\
    days_from_civil 2018 11 1 = local_day utc us /\
    weekofyear (mkdatetime 2018 11 1 20 57 10 796000)
      = iso_week (local_day utc us) /\
    1 <= weekofyear (mkdatetime 2018 11 1 20 57 10 796000) <= 53 /\
    weekday (mkdatetime 2018 11 1 20 57 10 796000)
      = (local_day utc us + 3) mod 7.
Proof.
  apply (time_record_fields utc (VInt 1541105830796)
           (mkdatetime 2018 11 1 20 57 10 796000)).
  vm_compute. reflexivity.
Defined.

Lemma fromtimestamp_fields utcoffset x t :
  fromtimestamp utcoffset x = Ok t ->
  exists us,
    epoch_micros x = Ok us /\
    let local := us / 1000000 + utcoffset (us / 1000000) in
    civil_from_days (local / 86400) = (year t, month t, day t) /\
    hour t = (local mod 86400) / 3600 /\
    minute t = ((local mod 86400) mod 3600) / 60 /\
    second t = (local mod 86400) mod 60 /\
    microsecond t = us mod 1000000.
Proof.
  unfold fromtimestamp, rbind.
  destruct (epoch_micros x) as [us | e]; [|discriminate].
  destruct (local_year utcoffset (us / 1000000)); [|discriminate].
  destruct (local_year utcoffset (us / 1000000 - 86400)); [|discriminate].
  destruct (if _ <? 0 then _ else _); [|discriminate].
  destruct (civil_from_days ((us / 1000000 + utcoffset (us / 1000000)) / 86400))
    as [[y m] d] eqn:E.
  intros [= <-]. exists us. cbn. repeat split; try reflexivity. exact E.
Qed.

(** The datetime and the offset in force give back the instant. *)
Lemma fromtimestamp_round_trip utcoffset x t us :
  fromtimestamp utcoffset x = Ok t ->
  epoch_micros x = Ok us ->
  naive_micros t = us + utcoffset (us / 1000000) * 1000000.
Proof.
  intros H Hus. destruct (fromtimestamp_fields _ _ _ H) as (us' & Hus' & F).
  rewrite Hus in Hus'. injection Hus' as <-. cbv zeta in F.
  destruct F as (Hc & Hh & Hm & Hs & Hu).
  pose proof (days_from_civil_from_days
                ((us / 1000000 + utcoffset (us / 1000000)) / 86400)) as R.
  rewrite Hc in R. destruct R as (R & _).
  unfold naive_micros, toordinal. rewrite R, Hh, Hm, Hs, Hu.
  generalize (utcoffset (us / 1000000)) as o. intros o.
  Z.div_mod_to_equations. lia.
Qed.

(** ** The float arithmetic of the conversion *)

Lemma binary_round_aux_sign mx ex lx :
  not_positive (SpecFloat.binary_round_aux 53 1024 true mx ex lx).
Proof.
  unfold SpecFloat.binary_round_aux.
  destruct (SpecFloat.shr_fexp 53 1024 mx ex lx) as [mrs e].
  destruct (SpecFloat.shr_fexp 53 1024 _ e SpecFloat.loc_Exact) as [mrs' e'].
  destruct (SpecFloat.shr_m mrs'); [exact I | | exact I].
  destruct (e' <=? 1024 - 53); reflexivity.
Qed.

Lemma binary64_of_Z_sign n : n < 0 -> not_positive (binary64_of_Z n).
Proof.
  destruct n as [|p|p]; try lia. intros _.
  unfold binary64_of_Z, SpecFloat.binary_normalize, SpecFloat.binary_round.
  destruct (SpecFloat.shl_align p 0 _) as [mz ez].
  apply binary_round_aux_sign.
Qed.

Lemma truediv_sign f k :
  not_positive f -> (0 < k)%Z ->
  not_positive (truediv f (binary64_of_Z k)).
Proof.
  intros Hf Hk. destruct k as [|k|k]; try lia.
  unfold binary64_of_Z, SpecFloat.binary_normalize, SpecFloat.binary_round.
  destruct (SpecFloat.shl_align k 0 _) as [mz ez].
  unfold SpecFloat.binary_round_aux.
  destruct (SpecFloat.shr_fexp 53 1024 (Z.pos mz) ez SpecFloat.loc_Exact)
    as [mrs e].
  destruct (SpecFloat.shr_fexp 53 1024 _ e SpecFloat.loc_Exact) as [mrs' e'].
  unfold truediv, SpecFloat.SFdiv.
  destruct (SpecFloat.shr_m mrs') as [|m|m];
    [| destruct (e' <=? 1024 - 53) |];
    destruct f as [s|s| |s m0 e0]; cbn in Hf |- *; subst; try exact I;
    try reflexivity.
  destruct (SpecFloat.SFdiv_core_binary 53 1024 (Z.pos m0) e0 (Z.pos m) e')
    as [[mz' ez'] lz]. apply binary_round_aux_sign.
Qed.

Lemma float_mul_sign f k :
  not_positive f -> (0 < k)%Z ->
  not_positive (float_mul f (binary64_of_Z k)).
Proof.
  intros Hf Hk. destruct k as [|k|k]; try lia.
  unfold binary64_of_Z, SpecFloat.binary_normalize, SpecFloat.binary_round.
  destruct (SpecFloat.shl_align k 0 _) as [mz ez].
  unfold SpecFloat.binary_round_aux.
  destruct (SpecFloat.shr_fexp 53 1024 (Z.pos mz) ez SpecFloat.loc_Exact)
    as [mrs e].
  destruct (SpecFloat.shr_fexp 53 1024 _ e SpecFloat.loc_Exact) as [mrs' e'].
  unfold float_mul, SpecFloat.SFmul.
  destruct (SpecFloat.shr_m mrs') as [|m|m];
    [| destruct (e' <=? 1024 - 53) |];
    destruct f as [s|s| |s m0 e0]; cbn in Hf |- *; subst; try exact I;
    try reflexivity.
  apply binary_round_aux_sign.
Qed.

Lemma modf_sign f :
  not_positive f ->
  fst (modf f) <= 0 /\ not_positive (snd (modf f)).
Proof.
  destruct f as [s|s| |s m e]; cbn [modf fst snd not_positive].
  - intros _. split; [lia | exact I].
  - intros ->. split; [lia | reflexivity].
  - intros _. split; [lia | exact I].
  - intros ->. destruct (0 <=? e).
    + cbn [fst snd]. split; [|exact I].
      assert (0 <= 2 ^ e) by apply Z.pow_nonneg, Z.le_0_2. nia.
    + cbn [fst snd]. split.
      * assert (0 <= Z.pos m / 2 ^ (- e))
          by (apply Z_div_nonneg_nonneg; [lia | apply Z.pow_nonneg; lia]).
        lia.
      * destruct (Z.pos m mod 2 ^ (- e)); cbn; auto.
Qed.

Lemma Q_of_binary64_sign f :
  not_positive f -> (Q_of_binary64 f <= 0)%Q.
Proof.
  destruct f as [s|s| |s m e]; cbn [Q_of_binary64 not_positive];
    try (intros _; apply Qle_refl).
  intros ->. destruct (0 <=? e).
  - unfold Qle, Qopp, inject_Z. cbn [Qnum Qden].
    assert (0 <= 2 ^ e) by apply Z.pow_nonneg, Z.le_0_2. nia.
  - unfold Qle, Qopp. cbn [Qnum Qden]. lia.
Qed.

Lemma round_half_even_sign q : (q <= 0)%Q -> round_half_even q <= 0.
Proof.
  intros H. unfold round_half_even.
  assert (F : Qfloor q <= 0).
  { change 0 with (Qfloor 0). apply Qfloor_resp_le. exact H. }
  destruct (Qcompare_spec (q - inject_Z (Qfloor q)) (1 # 2)) as [E|L|G].
  - destruct (Z.even (Qfloor q)) eqn:Ev; [exact F|].
    destruct (Z.eq_dec (Qfloor q) 0) as [Z0|]; [|lia].
    rewrite Z0 in Ev. discriminate.
  - exact F.
  - destruct (Z.eq_dec (Qfloor q) 0) as [Z0|]; [|lia].
    exfalso. rewrite Z0 in G. apply (Qlt_irrefl 0).
    apply Qlt_trans with (1 # 2)%Q; [reflexivity|].
    apply Qlt_le_trans with (q - inject_Z 0)%Q; [exact G|].
    unfold Qminus. change (- inject_Z 0)%Q with 0%Q. rewrite Qplus_0_r.
    exact H.
Qed.

Lemma epoch_micros_sign n us :
  n < 0 -> epoch_micros (VInt n) = Ok us -> us <= 0.
Proof.
  intros Hn. unfold epoch_micros, seconds, rbind.
  pose proof (binary64_of_Z_sign n Hn) as Hf.
  assert (Hd : not_positive (truediv (binary64_of_Z n) (binary64_of_Z 1000)))
    by (apply truediv_sign; [exact Hf | lia]).
  assert (K : forall d, not_positive d -> micros_of_seconds d = Ok us -> us <= 0).
  { clear. intros d Hd. unfold micros_of_seconds.
    pose proof (modf_sign d Hd) as (Hi & Hfr).
    destruct (modf d) as [intpart floatpart]. cbn [fst snd] in Hi, Hfr.
    pose proof (round_half_even_sign _
                  (Q_of_binary64_sign _
                     (float_mul_sign floatpart 1000000 Hfr eq_refl))) as Hr.
    set (r := round_half_even _) in *.
    destruct d; try discriminate;
      (destruct (_ && _); [|discriminate]; intros E; injection E as <-; lia). }
  destruct (binary64_of_Z n); try discriminate; apply K; exact Hd.
Qed.

(** C9, as the code has it.  Time derivation is a function of the
    timestamp and of the local offset from UTC alone, and a negative
    timestamp is not an error case: whenever the conversion returns, the
    datetime is the local date and time of the instant the division by
    [1000.0] yields, and for a negative timestamp that instant lies at
    or before the epoch. *)
Theorem fromtimestamp_outcome utcoffset x t :
  fromtimestamp utcoffset x = Ok t ->
  exists us,
    epoch_micros x = Ok us /\
    naive_micros t = us + utcoffset (us / 1000000) * 1000000 /\
    (forall n, x = VInt n -> n < 0 -> us <= 0).
Proof.
  intros H. destruct (fromtimestamp_fields _ _ _ H) as (us & Hus & _).
  exists us. split; [exact Hus|]. split.
  - exact (fromtimestamp_round_trip _ _ _ _ H Hus).
  - intros n -> Hn. exact (epoch_micros_sign n us Hn Hus).
Qed.

Lemma fromtimestamp_outcome_witness :
  exists us,
    epoch_micros (VInt (-1000)) = Ok us /\
    naive_micros (mkdatetime 1969 12 31 23 59 59 0)
      = us + utc (us / 1000000) * 1000000 /\
    (forall n, VInt (-1000) = VInt n -> n < 0 -> us <= 0).
Proof.
  apply (fromtimestamp_outcome utc (VInt (-1000))
           (mkdatetime 1969 12 31 23 59 59 0)).
  vm_compute. reflexivity.
Defined.

(** C9, as stated, fails: one second before the epoch is converted, not
    rejected. *)
Lemma negative_timestamp_not_rejected :
  fromtimestamp utc (VInt (-1000)) = Ok (mkdatetime 1969 12 31 23 59 59 0) /\
  ~ (exists e, fromtimestamp utc (VInt (-1000)) = Raise e).
Proof.
  split; [vm_compute; reflexivity|].
  intros [e H]. vm_compute in H. discriminate.
Qed.

(** ** Data frames *)

Lemma lookup_row f cols c :
  lookup c (map (fun c' => (c', f c')) cols)
  = if mem_string c cols then Some (f c) else None.
Proof.
  unfold mem_string.
  induction cols as [|c' cols IH]; cbn; [reflexivity|].
  rewrite (String.eqb_sym c c').
  destruct (String.eqb_spec c' c) as [->|]; [reflexivity | exact IH].
Qed.

Lemma cell_row f cols c :
  mem_string c cols = true ->
  cell (map (fun c' => (c', f c')) cols) c = f c.
Proof.
  intros H. unfold cell. rewrite lookup_row, H. reflexivity.
Qed.

Lemma first_missing_none cols have :
  first_missing cols have = None <->
  Forall (fun c => mem_string c have = true) cols.
Proof.
  induction cols as [|c cols IH]; cbn.
  - split; [constructor | reflexivity].
  - destruct (mem_string c have) eqn:E.
    + rewrite IH. split; [intros; constructor; assumption|].
      intros H; inversion H; assumption.
    + split; [discriminate|]. intros H; inversion H; congruence.
Qed.

Lemma frame_columns_nil : frame_columns [] = [].
Proof. reflexivity. Qed.

Lemma select_columns_ok df cols :
  first_missing cols (columns df) = None ->
  select_columns df cols =
    Ok (mkDataFrame cols (dtypes df)
          (map (fun '(i, r) => (i, map (fun c => (c, cell r c)) cols))
             (rows df))).
Proof. unfold select_columns. intros ->. reflexivity. Qed.

Lemma map_snd_row (f : string -> value) cols :
  map snd (map (fun c => (c, f c)) cols) = map f cols.
Proof. rewrite map_map. reflexivity. Qed.

Lemma select_columns_missing df cols c :
  first_missing cols (columns df) = Some c ->
  select_columns df cols = Raise (KeyError c).
Proof. unfold select_columns. intros ->. reflexivity. Qed.

Lemma frame_row0 r rest sel :
  Forall (fun c => mem_string c (frame_columns (r :: rest)) = true) sel ->
  exists others,
    map (fun '(i, r) => (i, map (fun c => (c, cell r c)) sel))
      (rows (frame_of_records (r :: rest)))
    = (0%nat, map (fun c => (c, cell r c)) sel) :: others.
Proof.
  intros F. cbn [rows frame_of_records map label_from].
  eexists. f_equal. f_equal.
  apply map_ext_in. intros c Hc. f_equal.
  apply cell_row. rewrite Forall_forall in F. apply F, Hc.
Qed.

(** ** Metadata files *)

Lemma first_missing_app a b have :
  first_missing (a ++ b) have =
    match first_missing a have with
    | Some c => Some c
    | None => first_missing b have
    end.
Proof.
  induction a as [|c a IH]; cbn; [reflexivity|].
  destruct (mem_string c have); [exact IH | reflexivity].
Qed.

(** What the driver accepts is what the array held. *)
Lemma rmap_adapt_inv args params :
  rmap adapt args = Ok params -> params = map unbox args.
Proof.
  revert params. induction args as [|o args IH]; intros params; cbn.
  - intros [= <-]. reflexivity.
  - destruct o as [v|n]; cbn; [|discriminate].
    destruct (rmap adapt args) as [l|e]; cbn; [|discriminate].
    intros [= <-]. rewrite (IH l eq_refl). reflexivity.
Qed.

Lemma unbox_box b v : unbox (box b v) = v.
Proof. destruct v; try reflexivity. cbn. destruct b; reflexivity. Qed.

Lemma unbox_row (b : string -> bool) (f : string -> value) cols :
  map unbox (map (fun '(c, v) => box (b c) v) (map (fun c => (c, f c)) cols))
  = map f cols.
Proof.
  rewrite !map_map. apply map_ext. intros c. apply unbox_box.
Qed.

Lemma execute_adapting_inv q args w r w' :
  execute_adapting q args w = (r, w') ->
  (r = Raise ProgrammingError /\ w' = w) \/
  execute q (map unbox args) w = (r, w').
Proof.
  unfold execute_adapting, bind, lift.
  destruct (rmap adapt args) as [params|e] eqn:E.
  - apply rmap_adapt_inv in E. subst params. right. assumption.
  - intros [= <- <-]. left. split; [|reflexivity].
    clear -E. revert e E. induction args as [|o args IH]; intros e; cbn;
      [discriminate|].
    destruct o as [v|n]; cbn; [|intros [= <-]; reflexivity].
    destruct (rmap adapt args) as [l|e0]; cbn; [discriminate|].
    intros [= <-]. apply IH. reflexivity.
Qed.

(** What a metadata file does, however it ends: the committed store is
    untouched; a run to the end executed the song insert and the artist
    insert with the cells of the first row; a failure came before the
    first statement or between the two. *)
Lemma process_song_file_run filepath w r0 w' :
  process_song_file filepath w = (r0, w') ->
  fs w' = fs w /\ persisted w' = persisted w /\
  match r0 with
  | Ok _ =>
      exists name r rest,
        lookup_path filepath (fs w) = Some (File name (Some (r :: rest))) /\
        first_missing song_columns (frame_columns (r :: rest)) = None /\
        first_missing artist_columns (frame_columns (r :: rest)) = None /\
        txn w' =
          exec_db artist_table_insert (map (cell r) artist_columns)
            (exec_db song_table_insert (map (cell r) song_columns) (txn w)) /\
        events w' =
          (events w ++
           [Execute song_table_insert (map (cell r) song_columns);
            Execute artist_table_insert (map (cell r) artist_columns)])%list
  | Raise e =>
      match lookup_path filepath (fs w) with
      | Some (File _ (Some records)) =>
          match first_missing song_columns (frame_columns records) with
          | Some c => e = KeyError c /\ w' = w
          | None =>
              (e = ProgrammingError /\ w' = w) \/
              exists r rest,
                records = r :: rest /\
                (e = ProgrammingError \/
                 first_missing artist_columns (frame_columns records)
                 = Some (match e with KeyError c => c | _ => "" end)) /\
                events w' =
                  (events w ++
                   [Execute song_table_insert (map (cell r) song_columns)])%list
          end
      | Some (File _ None) => e = ValueError /\ w' = w
      | _ => e = OSError /\ w' = w
      end
  end.
Proof.
  unfold process_song_file, bind at 1, read_json.
  destruct (lookup_path filepath (fs w)) as [[name [records|] | name sub]|];
    try (intros [= <- <-]; repeat split; reflexivity).
  unfold bind at 1, lift at 1.
  destruct (first_missing song_columns (frame_columns records)) as [c|] eqn:Es.
  { rewrite (select_columns_missing _ _ c) by exact Es.
    intros [= <- <-]. repeat split; reflexivity. }
  rewrite select_columns_ok by exact Es.
  pose proof Es as Fs. apply first_missing_none in Fs.
  destruct records as [|r rest].
  { rewrite frame_columns_nil in Fs. inversion Fs. discriminate. }
  unfold values. cbn [rows].
  destruct (frame_row0 r rest song_columns Fs) as (o1 & ->).
  cbn [map item0]. unfold bind at 1, lift at 1. unfold bind at 1.
  destruct (execute_adapting _ _ w) as [[[]|e1] w1] eqn:Q1.
  2:{ intros [= <- <-]. apply execute_adapting_inv in Q1.
      destruct Q1 as [([= ->] & ->) | Q1].
      - repeat split. left. split; reflexivity.
      - rewrite (unbox_row (fun _ => _)) in Q1. unfold execute in Q1.
        cbn [song_columns map run_query] in Q1. discriminate. }
  apply execute_adapting_inv in Q1. destruct Q1 as [(Q1 & _) | Q1];
    [discriminate|].
  rewrite (unbox_row (fun _ => _)) in Q1. unfold execute in Q1.
  pose proof Q1 as Q1p. cbn [song_columns map run_query] in Q1p.
  injection Q1p as <-. clear Q1.
  unfold bind at 1, lift at 1.
  destruct (first_missing artist_columns (frame_columns (r :: rest)))
    as [c|] eqn:Ea.
  { rewrite (select_columns_missing _ _ c) by exact Ea.
    intros [= <- <-]. cbn [fs persisted events]. repeat split.
    right. exists r, rest. repeat split. right. reflexivity. }
  rewrite select_columns_ok by exact Ea.
  pose proof Ea as Fa. apply first_missing_none in Fa.
  unfold iloc0_values_tolist. cbn [rows].
  destruct (frame_row0 r rest artist_columns Fa) as (o2 & ->).
  unfold bind at 1, lift at 1.
  intros Q2. apply execute_adapting_inv in Q2.
  destruct Q2 as [(-> & ->) | Q2].
  { cbn [fs persisted events]. repeat split. right. exists r, rest.
    repeat split. left. reflexivity. }
  rewrite (unbox_row (fun c => _)) in Q2. unfold execute in Q2.
  cbn [artist_columns map run_query txn fs persisted events] in Q2.
  injection Q2 as <- <-. cbn [fs persisted txn events]. repeat split.
  exists name, r, rest. repeat split; try assumption.
  rewrite <- app_assoc. reflexivity.
Qed.

(** C8, as the code has it.  A metadata file that is processed to its
    end gave exactly one song insert and one artist insert, both with
    the cells of the first row of the frame read from the file, whatever
    rows follow.  The function raises when the file does not decode and
    when a required column is absent from the frame. *)
Theorem process_song_file_outcome filepath w name content r0 w' :
  lookup_path filepath (fs w) = Some (File name content) ->
  process_song_file filepath w = (r0, w') ->
  (r0 = Ok tt ->
   exists r rest,
     content = Some (r :: rest) /\
     events w' =
       (events w ++
        [Execute song_table_insert (map (cell r) song_columns);
         Execute artist_table_insert (map (cell r) artist_columns)])%list) /\
  (content = None -> r0 = Raise ValueError) /\
  (forall records c,
      content = Some records ->
      first_missing (song_columns ++ artist_columns) (frame_columns records)
      = Some c ->
      exists e, r0 = Raise e).
Proof.
  intros L E. destruct (process_song_file_run _ _ _ _ E) as (_ & _ & R).
  rewrite L in R. split; [|split].
  - intros ->. destruct R as (name' & r & rest & [= _ ->] & _ & _ & _ & Ev).
    exists r, rest. split; [reflexivity | exact Ev].
  - intros ->. destruct r0 as [[]|e].
    + destruct R as (? & ? & ? & [=] & _).
    + destruct R as (-> & _). reflexivity.
  - intros records c -> M. destruct r0 as [[]|e]; [|eauto].
    exfalso. destruct R as (name' & r & rest & [= _ ->] & Es & Ea & _).
    rewrite first_missing_app, Es, Ea in M. discriminate.
Qed.

Lemma process_song_file_outcome_witness :
  let w := connect example_tree empty_db in
  let filepath := ["data"; "song_data"; "A"; "a.json"] in
  let w' := snd (process_song_file filepath w) in
  (Ok tt = Ok tt ->
   exists r rest,
     Some [example_song] = Some (r :: rest) /\
     events w' =
       (events w ++
        [Execute song_table_insert (map (cell r) song_columns);
         Execute artist_table_insert (map (cell r) artist_columns)])%list) /\
  (Some [example_song] = None -> Ok tt = Raise ValueError) /\
  (forall records c,
      Some [example_song] = Some records ->
      first_missing (song_columns ++ artist_columns) (frame_columns records)
      = Some c ->
      exists e, Ok tt = Raise e).
Proof.
  intros w filepath w'.
  apply (process_song_file_outcome filepath w "a.json" (Some [example_song])
           (Ok tt) w'); vm_compute; reflexivity.
Defined.

(** C8, as stated, fails: a metadata file of two records is accepted,
    and its first record is loaded. *)
Lemma two_record_song_file_accepted :
  let record (sid aid : string) : json_record :=
    [("song_id", VStr sid); ("title", VStr "T"); ("artist_id", VStr aid);
     ("year", VInt 2000); ("duration", VFloat (401 # 2));
     ("artist_name", VStr "X"); ("artist_location", VStr "L");
     ("artist_latitude", VFloat (71 # 2));
     ("artist_longitude", VFloat (- 361 # 4))] in
  let w :=
    connect [File "a.json" (Some [record "S1" "A1"; record "S2" "A2"])]
      empty_db in
  fst (process_song_file ["a.json"] w) = Ok tt /\
  map song_id (songs (txn (snd (process_song_file ["a.json"] w))))
    = [VStr "S1"] /\
  map artist_id (artists (txn (snd (process_song_file ["a.json"] w))))
    = [VStr "A1"].
Proof. repeat split; vm_compute; reflexivity. Qed.

(** ** The session monad *)

Lemma bind_ok_inv {A B} (m : M A) (k : A -> M B) w b w' :
  bind m k w = (Ok b, w') ->
  exists a w1, m w = (Ok a, w1) /\ k a w1 = (Ok b, w').
Proof.
  unfold bind. destruct (m w) as [[a | e] w1]; [eauto | discriminate].
Qed.

Lemma bind_raise_inv {A B} (m : M A) (k : A -> M B) w e w' :
  bind m k w = (Raise e, w') ->
  m w = (Raise e, w') \/
  exists a w1, m w = (Ok a, w1) /\ k a w1 = (Raise e, w').
Proof.
  unfold bind. destruct (m w) as [[a | e0] w1]; [eauto|].
  intros [= -> ->]. left. reflexivity.
Qed.

Lemma bind_inv {A B} (m : M A) (k : A -> M B) w r w' :
  bind m k w = (r, w') ->
  (exists e, r = Raise e /\ m w = (Raise e, w')) \/
  exists a w1, m w = (Ok a, w1) /\ k a w1 = (r, w').
Proof.
  unfold bind. destruct (m w) as [[a | e0] w1]; [eauto|].
  intros [= <- <-]. left. eauto.
Qed.

Lemma replay_app ev1 ev2 s :
  replay (ev1 ++ ev2) s = replay ev2 (replay ev1 s).
Proof. apply fold_left_app. Qed.

Lemma replay_execute_fst ev s :
  Forall (fun e => is_execute e = true) ev -> fst (replay ev s) = fst s.
Proof.
  intros F. revert s. induction F as [|e ev He _ IH]; intros s; [reflexivity|].
  cbn. unfold replay in IH. rewrite IH.
  destruct e; try discriminate. reflexivity.
Qed.

Lemma cursor_only_sourced {A} (m : M A) : cursor_only m -> sourced m.
Proof.
  intros H w r w' E. destruct (H w r w' E) as (F & P & ev & Ev & Fa & T).
  split; [exact F|]. exists ev. split; [exact Ev|].
  rewrite (surjective_pairing (replay ev (persisted w, txn w))).
  rewrite replay_execute_fst by exact Fa. cbn [fst]. congruence.
Qed.

Lemma cursor_only_pure {A} (m : M A) :
  (forall w, snd (m w) = w) -> cursor_only m.
Proof.
  intros H w r w' E. pose proof (H w) as Hw. rewrite E in Hw. cbn in Hw.
  subst w'. repeat split. exists []. rewrite app_nil_r.
  repeat split. constructor.
Qed.

Lemma cursor_only_ret {A} (a : A) : cursor_only (ret a).
Proof. apply cursor_only_pure. reflexivity. Qed.

Lemma cursor_only_lift {A} (r : result A) : cursor_only (lift r).
Proof. apply cursor_only_pure. reflexivity. Qed.

Lemma cursor_only_read_json filepath : cursor_only (read_json filepath).
Proof.
  apply cursor_only_pure. intros w. unfold read_json.
  destruct (lookup_path filepath (fs w)) as [[? [?|] | ? ?]|]; reflexivity.
Qed.

Lemma cursor_only_bind {A B} (m : M A) (k : A -> M B) :
  cursor_only m -> (forall a, cursor_only (k a)) -> cursor_only (bind m k).
Proof.
  intros Hm Hk w r w' E.
  destruct (bind_inv _ _ _ _ _ E) as [(e & -> & E1) | (a & w1 & E1 & E2)].
  - exact (Hm _ _ _ E1).
  - destruct (Hm _ _ _ E1) as (F1 & P1 & ev1 & Ev1 & Fa1 & T1).
    destruct (Hk a _ _ _ E2) as (F2 & P2 & ev2 & Ev2 & Fa2 & T2).
    repeat split; try congruence.
    exists (ev1 ++ ev2)%list. repeat split.
    + rewrite Ev2, Ev1, app_assoc. reflexivity.
    + apply Forall_app. split; assumption.
    + rewrite replay_app.
      rewrite (surjective_pairing (replay ev1 (persisted w, txn w))).
      rewrite replay_execute_fst by exact Fa1. cbn [fst].
      rewrite <- T1, <- P1. exact T2.
Qed.

Lemma cursor_only_execute q params : cursor_only (execute q params).
Proof.
  intros w r w'. unfold execute.
  destruct (run_query q params (txn w)) as [[d res] | e] eqn:E.
  - intros [= <- <-]. cbn. repeat split.
    exists [Execute q params]. repeat split.
    + repeat constructor.
    + cbn. unfold exec_db. rewrite E. reflexivity.
  - intros [= <- <-]. repeat split. exists []. rewrite app_nil_r.
    repeat split. constructor.
Qed.

Lemma cursor_only_fetchone : cursor_only fetchone.
Proof.
  intros w r w'. unfold fetchone.
  destruct (fetched w) as [[|row rest]|]; intros [= <- <-]; cbn;
    repeat split; exists []; rewrite app_nil_r; repeat split; constructor.
Qed.

Lemma cursor_only_for_each {A} (l : list A) (body : A -> M unit) :
  (forall a, cursor_only (body a)) -> cursor_only (for_each l body).
Proof.
  intros H. induction l as [|a l IH]; cbn.
  - apply cursor_only_ret.
  - apply cursor_only_bind; [apply H | intros _; exact IH].
Qed.

Create HintDb cursor.
#[local] Hint Resolve cursor_only_ret cursor_only_lift cursor_only_read_json
  cursor_only_execute cursor_only_fetchone : cursor.

Ltac cursor_only_tac :=
  repeat first
    [ apply cursor_only_bind; [|intros ?]
    | apply cursor_only_for_each; intros ?
    | solve [auto with cursor]
    | match goal with
      | |- cursor_only (let '(_, _) := ?p in _) => destruct p
      end ].

Lemma cursor_only_process_song_file filepath :
  cursor_only (process_song_file filepath).
Proof. unfold process_song_file. cursor_only_tac. Qed.

Lemma cursor_only_process_log_file utcoffset filepath :
  cursor_only (process_log_file utcoffset filepath).
Proof.
  unfold process_log_file. cursor_only_tac.
Qed.


(** ** The batch driver *)

Lemma process_files_cons func n i f rest :
  process_files func n i (f :: rest) =
    (func f ;;; commit ;;; print (FilesProcessed i n) ;;;
     process_files func n (S i) rest).
Proof. reflexivity. Qed.

Lemma process_files_ok func n :
  (forall f, cursor_only (func f)) ->
  forall files i w w',
    process_files func n i files w = (Ok tt, w') ->
    fs w' = fs w /\
    (files <> [] -> persisted w' = txn w') /\
    (files = [] -> w' = w) /\
    exists evs,
      Forall2 (fun f ev =>
                 Forall (fun e => is_execute e = true) ev /\
                 exists w1 w2, func f w1 = (Ok tt, w2) /\
                               events w2 = (events w1 ++ ev)%list)
        files evs /\
      events w' =
        (events w ++
         flat_map (fun '(i, ev) => ev ++ [Commit; Print (FilesProcessed i n)])
           (combine (seq i (List.length files)) evs))%list.
Proof.
  intros Hf files. induction files as [|f rest IH]; intros i w w' E.
  - cbn in E. injection E as <-. repeat split; try congruence.
    exists []. split; [constructor|]. cbn. rewrite app_nil_r. reflexivity.
  - rewrite process_files_cons in E.
    apply bind_ok_inv in E. destruct E as ([] & w1 & E1 & E).
    apply bind_ok_inv in E. destruct E as ([] & w2 & E2 & E).
    apply bind_ok_inv in E. destruct E as ([] & w3 & E3 & E).
    destruct (Hf f _ _ _ E1) as (F1 & P1 & ev & Ev & Fa & T1).
    unfold commit in E2. injection E2 as <-.
    unfold print in E3. injection E3 as <-. cbn [fs persisted txn fetched events] in *.
    destruct (IH _ _ _ E) as (F & P & N & evs & F2 & Evs).
    cbn [fs persisted txn events] in *.
    split; [congruence|]. split; [|split; [discriminate|]].
    + intros _. destruct rest as [|f' rest'].
      * rewrite (N eq_refl). reflexivity.
      * apply P. discriminate.
    + exists (ev :: evs). split.
      * constructor; [|exact F2]. split; [exact Fa|]. eauto.
      * rewrite Evs, Ev. cbn [List.length seq combine flat_map].
        repeat rewrite <- app_assoc. reflexivity.
Qed.

Lemma process_files_raise func n :
  forall files i w e w',
    process_files func n i files w = (Raise e, w') ->
    exists done f rest wk,
      files = (done ++ f :: rest)%list /\
      process_files func n i done w = (Ok tt, wk) /\
      func f wk = (Raise e, w').
Proof.
  intros files. induction files as [|f rest IH]; intros i w e w' E.
  - discriminate.
  - rewrite process_files_cons in E.
    apply bind_raise_inv in E. destruct E as [E | ([] & w1 & E1 & E)].
    { exists [], f, rest, w. repeat split. exact E. }
    apply bind_raise_inv in E. destruct E as [E | ([] & w2 & E2 & E)];
      [discriminate|].
    apply bind_raise_inv in E. destruct E as [E | ([] & w3 & E3 & E)];
      [discriminate|].
    destruct (IH _ _ _ _ E) as (done & f' & rest' & wk & -> & Ed & Ef).
    exists (f :: done), f', rest', wk. repeat split; [|exact Ef].
    rewrite process_files_cons. unfold bind at 1. rewrite E1.
    unfold bind at 1. rewrite E2. unfold bind at 1. rewrite E3. exact Ed.
Qed.

(** C6. When [process_data] completes, what it did is, after the count
    of files found: for each discovered file in turn, the statements of
    [func] on that file, which returned normally, then a commit, then the
    report of [(i, num_files)], where [num_files] is the number of files
    discovered and [i] runs from 1 in steps of one.  All work is
    committed at the end. *)
Theorem process_data_trace filepath func w w' :
  (forall f, cursor_only (func f)) ->
  process_data filepath func w = (Ok tt, w') ->
  let files := all_files w filepath in
  let num_files := List.length files in
  exists evs,
    Forall2 (fun f ev =>
               Forall (fun e => is_execute e = true) ev /\
               exists w1 w2, func f w1 = (Ok tt, w2) /\
                             events w2 = (events w1 ++ ev)%list)
      files evs /\
    events w' =
      (events w ++
       Print (FilesFound num_files filepath) ::
       flat_map (fun '(i, ev) =>
                   ev ++ [Commit; Print (FilesProcessed i num_files)])
         (combine (seq 1 num_files) evs))%list /\
    (files <> [] -> persisted w' = txn w').
Proof.
  intros Hf E files num_files. unfold process_data in E.
  fold files num_files in E.
  apply bind_ok_inv in E. destruct E as ([] & w1 & E1 & E).
  unfold print in E1. injection E1 as <-.
  destruct (process_files_ok func num_files Hf _ _ _ _ E)
    as (_ & P & _ & evs & F2 & Evs).
  exists evs. repeat split; [exact F2 | | exact P].
  rewrite Evs. cbn [events]. rewrite <- app_assoc. reflexivity.
Qed.

Lemma process_data_trace_witness :
  let w := connect example_tree empty_db in
  let filepath := ["data"; "song_data"] in
  let w' := snd (process_data filepath process_song_file w) in
  let files := all_files w filepath in
  let num_files := List.length files in
  exists evs,
    Forall2 (fun f ev =>
               Forall (fun e => is_execute e = true) ev /\
               exists w1 w2, process_song_file f w1 = (Ok tt, w2) /\
                             events w2 = (events w1 ++ ev)%list)
      files evs /\
    events w' =
      (events w ++
       Print (FilesFound num_files filepath) ::
       flat_map (fun '(i, ev) =>
                   ev ++ [Commit; Print (FilesProcessed i num_files)])
         (combine (seq 1 num_files) evs))%list /\
    (files <> [] -> persisted w' = txn w').
Proof.
  intros w filepath w'.
  apply (process_data_trace filepath process_song_file w w').
  - intros f. apply cursor_only_process_song_file.
  - vm_compute. reflexivity.
Defined.

(** A run of [process_data] that raised: some file made [func] raise,
    after the files before it had been processed. *)
Lemma process_data_raise_inv filepath func w e w' :
  process_data filepath func w = (Raise e, w') ->
  let files := all_files w filepath in
  let num_files := List.length files in
  exists done f rest wk,
    files = (done ++ f :: rest)%list /\
    (print (FilesFound num_files filepath) ;;;
     process_files func num_files 1 done) w = (Ok tt, wk) /\
    func f wk = (Raise e, w').
Proof.
  intros E files num_files. unfold process_data in E.
  fold files num_files in E.
  apply bind_raise_inv in E. destruct E as [E | ([] & w1 & E1 & E)];
    [discriminate|].
  destruct (process_files_raise _ _ _ _ _ _ _ E)
    as (done & f & rest & wk & Hfiles & Ed & Ef).
  exists done, f, rest, wk. repeat split; try assumption.
  unfold bind at 1. rewrite E1. exact Ed.
Qed.

(** The loop stops at the first file on which [func] raises. *)
Lemma process_files_stop func n f rest e w' :
  forall done i w wk,
    process_files func n i done w = (Ok tt, wk) ->
    func f wk = (Raise e, w') ->
    process_files func n i (done ++ f :: rest) w = (Raise e, w').
Proof.
  intros done. induction done as [|g done IH]; intros i w wk Ed Ef.
  - cbn in Ed. injection Ed as <-. cbn [app]. rewrite process_files_cons.
    unfold bind at 1. rewrite Ef. reflexivity.
  - cbn [app]. rewrite process_files_cons in Ed |- *.
    apply bind_ok_inv in Ed. destruct Ed as ([] & w1 & E1 & Ed).
    apply bind_ok_inv in Ed. destruct Ed as ([] & w2 & E2 & Ed).
    apply bind_ok_inv in Ed. destruct Ed as ([] & w3 & E3 & Ed).
    unfold bind at 1. rewrite E1. unfold bind at 1. rewrite E2.
    unfold bind at 1. rewrite E3. exact (IH _ _ _ Ed Ef).
Qed.

(** C7. When [func] raises on a file, the files before it having been
    processed, [process_data] raises the same exception at once and in
    the state [func] left: no later file is touched, the failing file
    added statements only (no commit, no report), and the committed
    store is the one left by the last commit, without the work of the
    failing file.  Whatever follows [process_data], as in [main], is not
    run. *)
Theorem process_data_abort filepath func w done f rest wk e w' :
  (forall f, cursor_only (func f)) ->
  all_files w filepath = (done ++ f :: rest)%list ->
  (print (FilesFound (List.length (all_files w filepath)) filepath) ;;;
   process_files func (List.length (all_files w filepath)) 1 done) w
  = (Ok tt, wk) ->
  func f wk = (Raise e, w') ->
  process_data filepath func w = (Raise e, w') /\
  (forall (k : unit -> M unit),
      bind (process_data filepath func) k w = (Raise e, w')) /\
  (exists ev,
      events w' = (events wk ++ ev)%list /\
      Forall (fun e => is_execute e = true) ev) /\
  persisted w' = persisted wk /\
  (done <> [] -> persisted wk = txn wk) /\
  (done = [] -> persisted wk = persisted w).
Proof.
  intros Hf Hfiles Ed Ef.
  assert (E : process_data filepath func w = (Raise e, w')).
  { unfold process_data. cbv zeta.
    set (n := List.length (all_files w filepath)) in *. rewrite Hfiles.
    apply bind_ok_inv in Ed. destruct Ed as ([] & w1 & E1 & Ed).
    unfold bind at 1. rewrite E1.
    exact (process_files_stop _ _ _ _ _ _ _ _ _ _ Ed Ef). }
  split; [exact E|]. split.
  { intros k. unfold bind. rewrite E. reflexivity. }
  destruct (Hf f _ _ _ Ef) as (F1 & P1 & ev & Ev & Fa & T1).
  apply bind_ok_inv in Ed. destruct Ed as ([] & w1 & E1 & Ed).
  destruct (process_files_ok func _ Hf _ _ _ _ Ed) as (_ & P & N & _).
  unfold print in E1. injection E1 as <-.
  repeat split; try assumption.
  - exists ev. split; assumption.
  - intros ->. rewrite (N eq_refl). reflexivity.
Qed.

Lemma process_data_abort_witness :
  let w := connect broken_tree empty_db in
  let filepath := ["data"; "song_data"] in
  let done := [["data"; "song_data"; "a.json"]] in
  let f := ["data"; "song_data"; "b.json"] in
  let wk :=
    snd ((print (FilesFound 3 filepath) ;;;
          process_files process_song_file 3 1 done) w) in
  let w' := snd (process_song_file f wk) in
  process_data filepath process_song_file w = (Raise ValueError, w') /\
  (forall (k : unit -> M unit),
      bind (process_data filepath process_song_file) k w
      = (Raise ValueError, w')) /\
  (exists ev,
      events w' = (events wk ++ ev)%list /\
      Forall (fun e => is_execute e = true) ev) /\
  persisted w' = persisted wk /\
  (done <> [] -> persisted wk = txn wk) /\
  (done = [] -> persisted wk = persisted w).
Proof.
  intros w filepath done f wk w'.
  apply (process_data_abort filepath process_song_file w done f
           [["data"; "song_data"; "c.json"]] wk ValueError w').
  - intros p. apply cursor_only_process_song_file.
  - vm_compute. reflexivity.
  - vm_compute. reflexivity.
  - vm_compute. reflexivity.
Defined.

(** ** Loops over statements *)

Lemma for_each_ext {A} (l : list A) (body body' : A -> M unit) :
  (forall a, In a l -> body a = body' a) ->
  for_each l body = for_each l body'.
Proof.
  induction l as [|a l IH]; intros H; cbn; [reflexivity|].
  rewrite (H a) by (left; reflexivity).
  rewrite IH by (intros; apply H; right; assumption). reflexivity.
Qed.

(** A loop of statements the driver accepts runs to its end and executes
    one statement per element. *)
Lemma for_each_execute {A} q (g : A -> list value) (l : list A) :
  Forall (fun a => forall d, exists d', run_query q (g a) d = Ok (d', None)) l ->
  forall w, exists w',
    for_each l (fun a => execute q (g a)) w = (Ok tt, w') /\
    fs w' = fs w /\ persisted w' = persisted w /\
    txn w' = fold_left (fun d a => exec_db q (g a) d) l (txn w) /\
    events w' = (events w ++ map (fun a => Execute q (g a)) l)%list.
Proof.
  induction 1 as [|a l Ha _ IH]; intros w.
  - exists w. cbn. rewrite app_nil_r. repeat split.
  - destruct (Ha (txn w)) as (d' & Hd).
    cbn [for_each]. unfold bind at 1. unfold execute at 1. rewrite Hd.
    destruct (IH (mk_world (fs w) (persisted w) d' None
                    (events w ++ [Execute q (g a)]))) as (w' & E & F & P & T & Ev).
    exists w'. cbn [fs persisted txn events] in *.
    repeat split; try assumption.
    + rewrite T. cbn [fold_left]. unfold exec_db at 3. rewrite Hd. reflexivity.
    + rewrite Ev. cbn [map]. rewrite <- app_assoc. reflexivity.
Qed.

(** ** The lookup and the fact insert *)

Lemma getattr_ok row name :
  lookup name row <> None -> getattr row name = Ok (cell row name).
Proof.
  unfold getattr, cell. destruct (lookup name row); [reflexivity|congruence].
Qed.

(** Every row of the lookup is the pair of ids of a matching pair. *)
Lemma select_song_rows d song artist length r :
  In r (select_song d song artist length) ->
  exists s a,
    In s (songs d) /\ In a (artists d) /\
    pair_matches s a song artist length = true /\
    r = [song_id s; artist_id a].
Proof.
  unfold select_song. rewrite in_flat_map. intros (s & Hs & Hr).
  rewrite in_flat_map in Hr. destruct Hr as (a & Ha & Hr).
  destruct (pair_matches s a song artist length) eqn:E; [|contradiction].
  destruct Hr as [<- | []]. exists s, a. repeat split; assumption.
Qed.

(** The lookup is empty exactly when no pair matches. *)
Lemma select_song_nil d song artist length :
  select_song d song artist length = [] <->
  (forall s a, In s (songs d) -> In a (artists d) ->
               pair_matches s a song artist length = false).
Proof.
  split.
  - intros E s a Hs Ha.
    destruct (pair_matches s a song artist length) eqn:M; [|reflexivity].
    assert (In [song_id s; artist_id a] (select_song d song artist length)).
    { unfold select_song. rewrite in_flat_map. exists s. split; [exact Hs|].
      rewrite in_flat_map. exists a. split; [exact Ha|]. rewrite M.
      left. reflexivity. }
    rewrite E in H. contradiction.
  - intros H. destruct (select_song d song artist length) as [|r rows] eqn:E;
      [reflexivity|].
    destruct (select_song_rows d song artist length r) as (s & a & Hs & Ha & M & _).
    { rewrite E. left. reflexivity. }
    rewrite (H s a Hs Ha) in M. discriminate.
Qed.

(** What the ids are: those of a matching pair when there is one, the
    two nulls otherwise. *)
Lemma resolved_ids_spec d song artist length :
  (exists s a,
      In s (songs d) /\ In a (artists d) /\
      pair_matches s a song artist length = true /\
      resolved_ids d song artist length = (song_id s, artist_id a)) \/
  ((forall s a, In s (songs d) -> In a (artists d) ->
                pair_matches s a song artist length = false) /\
   resolved_ids d song artist length = (VNull, VNull)).
Proof.
  unfold resolved_ids.
  destruct (select_song d song artist length) as [|r rows] eqn:E.
  - right. split; [|reflexivity]. apply select_song_nil. exact E.
  - left. destruct (select_song_rows d song artist length r)
      as (s & a & Hs & Ha & M & ->).
    { rewrite E. left. reflexivity. }
    exists s, a. repeat split; assumption.
Qed.

(** The loop body, run on a row that has the eight attributes it reads
    and whose label is in [t]. *)
Lemma insert_songplay_run t index row w start :
  Forall (fun name => lookup name row <> None)
    ["song"; "artist"; "length"; "userId"; "level"; "sessionId"; "location";
     "userAgent"] ->
  loc t index = Ok start ->
  exists w',
    insert_songplay t index row w = (Ok tt, w') /\
    fs w' = fs w /\ persisted w' = persisted w /\
    txn w' = mk_db (songs (txn w)) (artists (txn w)) (time (txn w))
               (users (txn w))
               (songplays (txn w) ++ [songplay_of (txn w) start row]) /\
    events w' =
      (events w ++
       [Execute song_select [cell row "song"; cell row "artist";
                             cell row "length"];
        Execute songplay_table_insert (songplay_params (txn w) start row)])%list.
Proof.
  intros H L.
  repeat match goal with
         | H : Forall _ (_ :: _) |- _ => inversion H; clear H; subst
         end.
  unfold insert_songplay, bind, lift.
  repeat rewrite getattr_ok by assumption.
  unfold execute at 1. cbn [run_query txn].
  unfold songplay_of, songplay_params, resolved_ids, fetchone.
  cbn [fetched fs persisted txn events].
  destruct (select_song (txn w) (cell row "song") (cell row "artist")
              (cell row "length")) as [|r rows] eqn:E.
  - rewrite L. unfold execute. cbn [run_query txn fs persisted events fst snd].
    eexists. repeat split. cbn [events]. rewrite <- app_assoc. reflexivity.
  - destruct (select_song_rows (txn w) (cell row "song") (cell row "artist")
                (cell row "length") r) as (s & a & _ & _ & _ & ->).
    { rewrite E. left. reflexivity. }
    rewrite L. unfold execute. cbn [run_query txn fs persisted events fst snd].
    eexists. repeat split. cbn [events]. rewrite <- app_assoc. reflexivity.
Qed.

Lemma insert_songplay_attrs t index row w w' :
  insert_songplay t index row w = (Ok tt, w') ->
  Forall (fun name => lookup name row <> None)
    ["song"; "artist"; "length"; "userId"; "level"; "sessionId"; "location";
     "userAgent"] /\
  exists start, loc t index = Ok start.
Proof.
  unfold insert_songplay. intros E.
  repeat match goal with
         | E : bind (lift (getattr ?r ?n)) _ _ = (Ok _, _) |- _ =>
             let v := fresh "v" in
             let w1 := fresh "w" in
             let E1 := fresh "G" in
             apply bind_ok_inv in E; destruct E as (v & w1 & E1 & E);
             unfold lift in E1; injection E1 as E1 <-
         | E : bind (execute _ _) _ _ = (Ok _, _) |- _ =>
             let w1 := fresh "w" in
             apply bind_ok_inv in E; destruct E as ([] & w1 & _ & E)
         | E : bind fetchone _ _ = (Ok _, _) |- _ =>
             let w1 := fresh "w" in
             let v := fresh "res" in
             apply bind_ok_inv in E; destruct E as (v & w1 & _ & E)
         | E : bind (lift (match _ with _ => _ end)) _ _ = (Ok _, _) |- _ =>
             let w1 := fresh "w" in
             let v := fresh "ids" in
             apply bind_ok_inv in E; destruct E as (v & w1 & _ & E);
             destruct v
         | E : bind (lift (loc _ _)) _ _ = (Ok _, _) |- _ =>
             let v := fresh "start" in
             let w1 := fresh "w" in
             let E1 := fresh "L" in
             apply bind_ok_inv in E; destruct E as (v & w1 & E1 & E);
             unfold lift in E1; injection E1 as E1 <-
         end.
  split; [|eauto].
  repeat constructor;
    match goal with
    | H : getattr row ?n = Ok _ |- lookup ?n row <> None =>
        unfold getattr in H; destruct (lookup n row); [discriminate | discriminate]
    end.
Qed.

Lemma select_song_ext d d' song artist length :
  songs d' = songs d -> artists d' = artists d ->
  select_song d' song artist length = select_song d song artist length.
Proof. unfold select_song. intros -> ->. reflexivity. Qed.

Lemma songplay_of_ext d d' start row :
  songs d' = songs d -> artists d' = artists d ->
  songplay_of d' start row = songplay_of d start row /\
  songplay_params d' start row = songplay_params d start row.
Proof.
  intros Hs Ha. unfold songplay_of, songplay_params, resolved_ids.
  rewrite (select_song_ext d d') by assumption. split; reflexivity.
Qed.

Lemma songplay_loop t rowsl :
  forall w w',
    for_each rowsl (fun '(index, row) => insert_songplay t index row) w
    = (Ok tt, w') ->
    exists starts,
      Forall2 (fun '(i, _) x => loc t i = Ok x) rowsl starts /\
      fs w' = fs w /\ persisted w' = persisted w /\
      songs (txn w') = songs (txn w) /\
      artists (txn w') = artists (txn w) /\
      time (txn w') = time (txn w) /\
      users (txn w') = users (txn w) /\
      songplays (txn w') =
        (songplays (txn w) ++ songplay_rows (txn w) rowsl starts)%list /\
      events w' = (events w ++ songplay_events (txn w) rowsl starts)%list.
Proof.
  induction rowsl as [|[index row] rowsl IH]; intros w w' E.
  - cbn in E. injection E as <-. exists []. unfold songplay_rows, songplay_events.
    cbn. rewrite !app_nil_r. repeat split. constructor.
  - cbn [for_each] in E. apply bind_ok_inv in E.
    destruct E as ([] & w1 & E1 & E).
    destruct (insert_songplay_attrs _ _ _ _ _ E1) as (At & start & L).
    destruct (insert_songplay_run t index row w start At L)
      as (w1' & R & F1 & P1 & T1 & Ev1).
    rewrite E1 in R. injection R as <-.
    destruct (IH _ _ E) as (starts & F2 & F & P & S & A & Ti & U & SP & Ev).
    rewrite T1 in S, A, Ti, U, SP. cbn [songs artists time users songplays] in *.
    destruct (songplay_of_ext (txn w) (txn w1) start row) as (Eo & Ep);
      [rewrite T1; reflexivity | rewrite T1; reflexivity |].
    exists (start :: starts). repeat split; try congruence.
    + constructor; assumption.
    + rewrite SP. unfold songplay_rows. cbn [combine map].
      rewrite <- app_assoc. reflexivity.
    + rewrite Ev, Ev1, T1. unfold songplay_events. cbn [combine flat_map].
      rewrite <- app_assoc. reflexivity.
Qed.

(** ** Labels *)

Lemma series_apply_inv {A B} (f : A -> result B) s t :
  series_apply f s = Ok t ->
  Forall2 (fun '(i, a) '(j, b) => j = i /\ f a = Ok b) s t.
Proof.
  unfold series_apply. revert t.
  induction s as [|[i a] s IH]; intros t; cbn.
  - intros [= <-]. constructor.
  - destruct (f a) as [b|e] eqn:Fa; [|discriminate]. cbn.
    destruct (rmap _ s) as [bs|e]; [|discriminate]. cbn.
    intros [= <-]. constructor; [split; [reflexivity | exact Fa]|].
    apply IH. reflexivity.
Qed.

Lemma label_from_fst {A} (l : list A) i :
  map fst (label_from i l) = seq i (List.length l).
Proof.
  revert i. induction l as [|a l IH]; intros i; cbn; [reflexivity|].
  rewrite IH. reflexivity.
Qed.

Lemma NoDup_map_filter {A B} (f : A -> B) p (l : list A) :
  NoDup (map f l) -> NoDup (map f (filter p l)).
Proof.
  induction l as [|a l IH]; cbn; [intros; constructor|].
  intros H. inversion H as [|? ? Hn Hd]; subst.
  destruct (p a); [|apply IH, Hd].
  cbn. constructor; [|apply IH, Hd].
  intros Hin. apply Hn. rewrite in_map_iff in *.
  destruct Hin as (x & Hx & Hin). exists x. split; [exact Hx|].
  apply filter_In in Hin. apply Hin.
Qed.

Lemma NextSong_rows_labels records : NoDup (map fst (NextSong_rows records)).
Proof.
  unfold NextSong_rows. apply NoDup_map_filter.
  cbn [rows frame_of_records]. rewrite label_from_fst. apply seq_NoDup.
Qed.

Lemma loc_unique {A} (s : list (nat * A)) i a :
  NoDup (map fst s) -> In (i, a) s -> loc s i = Ok a.
Proof.
  induction s as [|[j b] s IH]; cbn; [contradiction|].
  intros H. inversion H as [|? ? Hn Hd]; subst.
  intros [[= -> ->] | Hin].
  - rewrite Nat.eqb_refl. reflexivity.
  - destruct (Nat.eqb_spec j i) as [->|]; [|apply IH; assumption].
    exfalso. apply Hn. apply (in_map fst) in Hin. exact Hin.
Qed.

Lemma starts_of_labels {A B} (f : A -> result B)
  (rowsl : list (nat * A)) (t : list (nat * B)) :
  NoDup (map fst t) ->
  forall rows' t' starts,
    Forall2 (fun '(i, a) '(j, b) => j = i /\ f a = Ok b) rows' t' ->
    Forall2 (fun '(i, _) x => loc t i = Ok x) rows' starts ->
    incl t' t ->
    starts = map snd t'.
Proof.
  intros N rows' t' starts F. revert starts.
  induction F as [|[i a] [j b] rows' t' [-> Hf] _ IH]; intros starts F2 I.
  - inversion F2. reflexivity.
  - inversion F2 as [|? x ? starts' L F2']; subst. cbn [map snd].
    rewrite (loc_unique t i b N) in L by (apply I; left; reflexivity).
    injection L as <-. f_equal. apply IH; [exact F2'|].
    intros p Hp. apply I. right. exact Hp.
Qed.

Lemma Forall2_of_map {A B C} (f : A -> B) (R : B -> C -> Prop) l t :
  Forall2 R (map f l) t -> Forall2 (fun a c => R (f a) c) l t.
Proof.
  revert t. induction l as [|a l IH]; intros t H; inversion H; subst;
    constructor; auto.
Qed.

Lemma fold_left_map_ext {A B C} (f : A -> B -> A) (g : C -> B)
  (h : A -> C -> A) l :
  (forall a x, f a (g x) = h a x) ->
  forall a, fold_left f (map g l) a = fold_left h l a.
Proof.
  intros H. induction l as [|x l IH]; intros a; cbn; [reflexivity|].
  rewrite H. apply IH.
Qed.

(** ** Statement loops on the store *)

Lemma fold_time_inserts (l : list (nat * datetime)) d :
  exists d',
    fold_left (fun d a => exec_db time_table_insert (time_tuple (snd a)) d) l d
    = d' /\
    songs d' = songs d /\ artists d' = artists d /\ users d' = users d /\
    songplays d' = songplays d /\
    time d' = fold_left (fun tbl a =>
                           insert_if_absent start_time (time_row_of (snd a)) tbl)
                l (time d).
Proof.
  revert d. induction l as [|a l IH]; intros d; cbn [fold_left].
  - exists d. repeat split.
  - destruct (IH (exec_db time_table_insert (time_tuple (snd a)) d))
      as (d' & E & S & A & U & P & T).
    exists d'. split; [exact E|]. rewrite S, A, U, P, T. repeat split.
Qed.

Lemma fold_user_inserts (l : list (nat * Series)) d :
  exists d',
    fold_left (fun d a => exec_db user_table_insert
                            (map (cell (snd a)) user_columns) d) l d = d' /\
    songs d' = songs d /\ artists d' = artists d /\ time d' = time d /\
    songplays d' = songplays d /\
    users d' = fold_left (fun tbl a => upsert_user (user_row_of (snd a)) tbl)
                 l (users d).
Proof.
  revert d. induction l as [|a l IH]; intros d; cbn [fold_left].
  - exists d. repeat split.
  - destruct (IH (exec_db user_table_insert
                    (map (cell (snd a)) user_columns) d))
      as (d' & E & S & A & U & P & T).
    exists d'. split; [exact E|]. rewrite S, A, U, P, T. repeat split.
Qed.

(** ** Log files *)

Lemma column_inv df c s :
  column df c = Ok s -> s = map (fun '(i, r) => (i, cell r c)) (rows df).
Proof.
  unfold column. destruct (mem_string c (columns df)); [|discriminate].
  intros [= <-]. reflexivity.
Qed.

Lemma select_columns_inv df cols df' :
  select_columns df cols = Ok df' ->
  df' = mkDataFrame cols (dtypes df)
          (map (fun '(i, r) => (i, map (fun c => (c, cell r c)) cols))
             (rows df)).
Proof.
  unfold select_columns. destruct (first_missing cols (columns df));
    [discriminate|]. intros [= <-]. reflexivity.
Qed.

(** What a log file that was processed to its end did. *)
Lemma for_each_map {A B} (f : A -> B) (l : list A) (body : B -> M unit) :
  for_each (map f l) body = for_each l (fun a => body (f a)).
Proof.
  induction l as [|a l IH]; cbn; [reflexivity|]. rewrite IH. reflexivity.
Qed.

(** A loop of statements over numpy rows that ran to its end ran the
    statements on the values the rows held. *)
Lemma for_each_adapting {A} q (g : A -> list pyobject) (l : list A) w w' :
  for_each l (fun a => execute_adapting q (g a)) w = (Ok tt, w') ->
  for_each l (fun a => execute q (map unbox (g a))) w = (Ok tt, w').
Proof.
  revert w. induction l as [|a l IH]; intros w; cbn [for_each]; [trivial|].
  intros E. apply bind_ok_inv in E. destruct E as ([] & w1 & E1 & E).
  apply execute_adapting_inv in E1. destruct E1 as [(E1 & _) | E1];
    [discriminate|].
  unfold bind at 1. rewrite E1. apply IH. exact E.
Qed.

Lemma unbox_cells b (r : Series) :
  map unbox (map (fun '(_, v) => box b v) r) = map snd r.
Proof.
  rewrite map_map. apply map_ext. intros [c v]. apply unbox_box.
Qed.

Lemma process_log_file_ok utcoffset filepath w w' :
  process_log_file utcoffset filepath w = (Ok tt, w') ->
  exists name records t,
    lookup_path filepath (fs w) = Some (File name (Some records)) /\
    Forall2 (fun '(i, r) '(j, x) =>
               j = i /\ fromtimestamp utcoffset (cell r "ts") = Ok x)
      (NextSong_rows records) t /\
    fs w' = fs w /\ persisted w' = persisted w /\
    songs (txn w') = songs (txn w) /\
    artists (txn w') = artists (txn w) /\
    time (txn w') =
      fold_left (fun tbl a =>
                   insert_if_absent start_time (time_row_of (snd a)) tbl)
        t (time (txn w)) /\
    users (txn w') =
      fold_left (fun tbl a => upsert_user (user_row_of (snd a)) tbl)
        (NextSong_rows records) (users (txn w)) /\
    songplays (txn w') =
      (songplays (txn w) ++
       songplay_rows (txn w) (NextSong_rows records) (map snd t))%list /\
    events w' =
      (events w ++
       map (fun a => Execute time_table_insert (time_tuple (snd a))) t ++
       map (fun a => Execute user_table_insert
                       (map (cell (snd a)) user_columns))
         (NextSong_rows records) ++
       songplay_events (txn w) (NextSong_rows records) (map snd t))%list.
Proof.
  unfold process_log_file. intros E.
  apply bind_ok_inv in E. destruct E as (df & w1 & E1 & E).
  unfold read_json in E1.
  destruct (lookup_path filepath (fs w)) as [[name [records|] | ? ?]|] eqn:Lk;
    try discriminate.
  injection E1 as <- <-.
  apply bind_ok_inv in E. destruct E as (df' & w1 & E1 & E).
  unfold lift in E1. injection E1 as E1 <-.
  unfold filter_NextSong, rbind in E1.
  destruct (column (frame_of_records records) "page"); [|discriminate].
  injection E1 as <-.
  fold (NextSong_rows records) in E.
  apply bind_ok_inv in E. destruct E as (ts & w1 & E1 & E).
  unfold lift in E1. injection E1 as E1 <-.
  apply column_inv in E1. cbn [rows] in E1. subst ts.
  apply bind_ok_inv in E. destruct E as (t & w1 & E1 & E).
  unfold lift in E1. injection E1 as E1 <-.
  apply series_apply_inv in E1.
  assert (Ft : Forall2 (fun '(i, r) '(j, x) =>
                          j = i /\ fromtimestamp utcoffset (cell r "ts") = Ok x)
                 (NextSong_rows records) t).
  { apply Forall2_of_map in E1. revert E1. apply Forall2_impl.
    intros [i r] [j x] H. exact H. }
  clear E1.
  apply bind_ok_inv in E. destruct E as ([] & w1 & E1 & E).
  unfold lift in E1. injection E1 as _ <-.
  (* time loop *)
  apply bind_ok_inv in E. destruct E as ([] & w2 & E1 & E).
  rewrite (for_each_ext _ _ (fun a => execute time_table_insert (id a))) in E1
    by reflexivity.
  destruct (for_each_execute time_table_insert id
              (map (fun '(_, x) => time_tuple x) t)) with (w := w)
    as (w2' & R & F2 & P2 & T2 & Ev2).
  { apply Forall_forall. intros p Hp. apply in_map_iff in Hp.
    destruct Hp as ([i x] & <- & _). intros d. eexists. reflexivity. }
  pose proof (eq_trans (eq_sym E1) R) as Hw. injection Hw as <-. clear E1 R.
  (* user loop *)
  apply bind_ok_inv in E. destruct E as (user_df & w1 & E1 & E).
  unfold lift in E1. injection E1 as E1 <-.
  apply select_columns_inv in E1. cbn [rows] in E1. subst user_df.
  cbn [rows] in E.
  apply bind_ok_inv in E. destruct E as ([] & w3 & E1 & E).
  change (filter _ (label_from 0 _)) with (NextSong_rows records) in *.
  unfold iterrows in E1. cbn [rows] in E1. rewrite for_each_map in E1.
  rewrite for_each_ext
    with (body' := fun a : nat * Series =>
                     execute_adapting user_table_insert
                       (map (fun '(_, v) => box (all_int64 _) v) (snd a)))
    in E1 by (intros [i r] _; reflexivity).
  apply for_each_adapting in E1.
  rewrite for_each_ext
    with (body' := fun a : nat * Series =>
                     execute user_table_insert (map snd (snd a))) in E1
    by (intros [i r] _; rewrite unbox_cells; reflexivity).
  destruct (for_each_execute user_table_insert (fun a => map snd (snd a))
              (map (fun '(i, r) =>
                      (i, map (fun c => (c, cell r c)) user_columns))
                 (NextSong_rows records))) with (w := w2)
    as (w3' & R & F3 & P3 & T3 & Ev3).
  { apply Forall_forall. intros p Hp. apply in_map_iff in Hp.
    destruct Hp as ([i r] & <- & _). intros d. eexists. reflexivity. }
  pose proof (eq_trans (eq_sym E1) R) as Hw. injection Hw as <-. clear E1 R.
  (* songplay loop *)
  destruct (songplay_loop _ _ _ _ E)
    as (starts & Fs & F4 & P4 & S4 & A4 & Ti4 & U4 & SP4 & Ev4).
  assert (starts = map snd t) as ->.
  { apply (starts_of_labels (fun r => fromtimestamp utcoffset (cell r "ts"))
             (NextSong_rows records) t) with (rows' := NextSong_rows records).
    - assert (map fst t = map fst (NextSong_rows records)) as ->.
      { clear -Ft. induction Ft as [|[i r] [j x] ? ? [-> _] _ IH];
          [reflexivity|]. cbn. f_equal. exact IH. }
      apply NextSong_rows_labels.
    - clear -Ft. induction Ft as [|[i r] [j x] ? ? H _ IH]; constructor;
        assumption.
    - exact Fs.
    - apply incl_refl. }
  (* the stores *)
  assert (T2' : txn w2 = fold_left
            (fun d a => exec_db time_table_insert (time_tuple (snd a)) d)
            t (txn w)).
  { rewrite T2. apply fold_left_map_ext. intros d [i x]. reflexivity. }
  assert (T3' : txn w3 = fold_left
            (fun d a => exec_db user_table_insert
                          (map (cell (snd a)) user_columns) d)
            (NextSong_rows records) (txn w2)).
  { rewrite T3. apply fold_left_map_ext. intros d [i r]. cbn [snd].
    rewrite map_snd_row. reflexivity. }
  destruct (fold_time_inserts t (txn w)) as (d2 & D2 & S2 & A2 & U2 & SP2 & Ti2).
  rewrite <- T2' in D2. subst d2.
  destruct (fold_user_inserts (NextSong_rows records) (txn w2))
    as (d3 & D3 & S3 & A3 & Ti3 & SP3 & U3).
  rewrite <- T3' in D3. subst d3.
  exists name, records, t.
  repeat split; try congruence.
  - rewrite SP4, SP3, SP2. f_equal. unfold songplay_rows.
    apply map_ext. intros [[i r] x].
    apply (songplay_of_ext (txn w) (txn w3)); congruence.
  - rewrite Ev4, Ev3, Ev2. rewrite !map_map. repeat rewrite <- app_assoc.
    f_equal. f_equal.
    { apply map_ext. intros [i x]. reflexivity. }
    f_equal.
    { apply map_ext. intros [i r]. cbn [snd]. rewrite map_snd_row.
      reflexivity. }
    unfold songplay_events. apply flat_map_ext. intros [[i r] x].
    destruct (songplay_of_ext (txn w) (txn w3) x r) as (_ & ->);
      [congruence | congruence | reflexivity].
Qed.

(** ** Fact resolution *)

(** C1. For a filtered row, the loop body returns normally and appends
    one fact row.  When some loaded song/artist pair matches the row's
    song title, artist name and duration, the row carries the ids of a
    matching pair (of the matching pair, when there is only one); when
    none matches, it carries two nulls, and is inserted all the same; the
    commit that follows the file makes it durable. *)
Theorem fact_resolution t index row w start :
  Forall (fun name => lookup name row <> None)
    ["song"; "artist"; "length"; "userId"; "level"; "sessionId"; "location";
     "userAgent"] ->
  loc t index = Ok start ->
  exists w' songid artistid,
    insert_songplay t index row w = (Ok tt, w') /\
    songplays (txn w') =
      (songplays (txn w) ++
       [mk_songplay (VTime start) (cell row "userId") (cell row "level")
          songid artistid (cell row "sessionId") (cell row "location")
          (cell row "userAgent")])%list /\
    songplays (persisted (snd (commit w'))) = songplays (txn w') /\
    ((exists s a,
         In s (songs (txn w)) /\ In a (artists (txn w)) /\
         pair_matches s a (cell row "song") (cell row "artist")
           (cell row "length") = true) ->
     exists s a,
       In s (songs (txn w)) /\ In a (artists (txn w)) /\
       pair_matches s a (cell row "song") (cell row "artist")
         (cell row "length") = true /\
       songid = song_id s /\ artistid = artist_id a) /\
    ((forall s a,
         In s (songs (txn w)) -> In a (artists (txn w)) ->
         pair_matches s a (cell row "song") (cell row "artist")
           (cell row "length") = false) ->
     songid = VNull /\ artistid = VNull).
Proof.
  intros At L.
  destruct (insert_songplay_run t index row w start At L)
    as (w' & R & _ & _ & T & _).
  exists w'.
  exists (fst (resolved_ids (txn w) (cell row "song") (cell row "artist")
                 (cell row "length"))).
  exists (snd (resolved_ids (txn w) (cell row "song") (cell row "artist")
                 (cell row "length"))).
  split; [exact R|]. split; [rewrite T; reflexivity|].
  split; [reflexivity|].
  destruct (resolved_ids_spec (txn w) (cell row "song") (cell row "artist")
              (cell row "length"))
    as [(s & a & Hs & Ha & M & ->) | (N & ->)]; cbn [fst snd].
  - split.
    + intros _. exists s, a. repeat split; assumption.
    + intros N. rewrite (N s a Hs Ha) in M. discriminate.
  - split.
    + intros (s & a & Hs & Ha & M). rewrite (N s a Hs Ha) in M. discriminate.
    + intros _. split; reflexivity.
Qed.

Lemma fact_resolution_witness :
  let t := [(1%nat, mkdatetime 2018 11 1 20 57 10 796000)] in
  let row := example_event "NextSong" "Unknown" 1541105830796 in
  let w := connect [] example_db in
  exists w' songid artistid,
    insert_songplay t 1 row w = (Ok tt, w') /\
    songplays (txn w') =
      (songplays (txn w) ++
       [mk_songplay (VTime (mkdatetime 2018 11 1 20 57 10 796000))
          (cell row "userId") (cell row "level")
          songid artistid (cell row "sessionId") (cell row "location")
          (cell row "userAgent")])%list /\
    songplays (persisted (snd (commit w'))) = songplays (txn w') /\
    ((exists s a,
         In s (songs (txn w)) /\ In a (artists (txn w)) /\
         pair_matches s a (cell row "song") (cell row "artist")
           (cell row "length") = true) ->
     exists s a,
       In s (songs (txn w)) /\ In a (artists (txn w)) /\
       pair_matches s a (cell row "song") (cell row "artist")
         (cell row "length") = true /\
       songid = song_id s /\ artistid = artist_id a) /\
    ((forall s a,
         In s (songs (txn w)) -> In a (artists (txn w)) ->
         pair_matches s a (cell row "song") (cell row "artist")
           (cell row "length") = false) ->
     songid = VNull /\ artistid = VNull).
Proof.
  intros t row w.
  apply (fact_resolution t 1%nat row w (mkdatetime 2018 11 1 20 57 10 796000)).
  - repeat constructor; vm_compute; discriminate.
  - reflexivity.
Defined.

(** ** Log files: counts *)

Lemma count_execute_app q ev1 ev2 :
  count_execute q (ev1 ++ ev2) = (count_execute q ev1 + count_execute q ev2)%nat.
Proof.
  unfold count_execute. rewrite filter_app, length_app. reflexivity.
Qed.

Lemma count_execute_map {A} q q' (g : A -> list value) l :
  count_execute q (map (fun a => Execute q' (g a)) l)
  = if query_eqb q q' then List.length l else 0%nat.
Proof.
  unfold count_execute. induction l as [|a l IH]; cbn.
  - destruct (query_eqb q q'); reflexivity.
  - destruct (query_eqb q q'); cbn; rewrite IH; reflexivity.
Qed.

Lemma length_combine_map_snd {A B C} (l : list (A * B)) (t : list (A * C)) :
  List.length l = List.length t ->
  List.length (combine l (map snd t)) = List.length l.
Proof.
  intros H. rewrite length_combine, length_map, <- H. apply Nat.min_id.
Qed.

Lemma count_songplay_events q d rowsl starts :
  count_execute q (songplay_events d rowsl starts)
  = ((if query_eqb q song_select then 1 else 0) * List.length (combine rowsl starts)
     + (if query_eqb q songplay_table_insert then 1 else 0)
       * List.length (combine rowsl starts))%nat.
Proof.
  unfold songplay_events, count_execute.
  induction (combine rowsl starts) as [|[[i r] x] l IH].
  - cbn. destruct (query_eqb q song_select),
      (query_eqb q songplay_table_insert); reflexivity.
  - cbn [flat_map app filter].
    destruct (query_eqb q song_select), (query_eqb q songplay_table_insert);
      cbn [List.length]; rewrite IH; lia.
Qed.

Lemma filter_frame_rows_length cols records i :
  mem_string "page" cols = true ->
  List.length
    (filter (fun '(_, r) => is_NextSong (cell r "page"))
       (label_from i
          (map (fun r => map (fun c => (c, cell r c)) cols) records)))
  = List.length (filter (fun r => is_NextSong (cell r "page")) records).
Proof.
  intros Hc. revert i.
  induction records as [|r records IH]; intros i; [reflexivity|].
  cbn [map label_from filter]. rewrite (cell_row _ _ _ Hc).
  destruct (is_NextSong (cell r "page")); cbn [List.length]; rewrite IH;
    reflexivity.
Qed.

(** The filter keeps as many frame rows as there are lines whose [page]
    is [NextSong], when some line has a [page]. *)
Lemma NextSong_rows_length records :
  mem_string "page" (frame_columns records) = true ->
  List.length (NextSong_rows records)
  = List.length (filter (fun r => is_NextSong (cell r "page")) records).
Proof.
  intros H. unfold NextSong_rows. cbn [rows frame_of_records].
  apply filter_frame_rows_length. exact H.
Qed.

Lemma process_log_file_page utcoffset filepath w w' name records :
  lookup_path filepath (fs w) = Some (File name (Some records)) ->
  process_log_file utcoffset filepath w = (Ok tt, w') ->
  mem_string "page" (frame_columns records) = true.
Proof.
  intros Lk E. unfold process_log_file in E.
  apply bind_ok_inv in E. destruct E as (df & w1 & E1 & E).
  unfold read_json in E1. rewrite Lk in E1. injection E1 as <- <-.
  apply bind_ok_inv in E. destruct E as (df' & w1 & E1 & _).
  unfold lift in E1. injection E1 as E1 _.
  unfold filter_NextSong, column in E1. cbn [columns frame_of_records] in E1.
  destruct (mem_string "page" (frame_columns records)); [reflexivity|].
  discriminate.
Qed.

Lemma is_NextSong_eqb v : is_NextSong v = value_eqb v (VStr "NextSong").
Proof. destruct v; reflexivity. Qed.

Lemma mem_string_app c a b :
  mem_string c (a ++ b) = mem_string c a || mem_string c b.
Proof. unfold mem_string. apply existsb_app. Qed.

Lemma mem_union_keys c keys :
  forall seen,
    mem_string c (union_keys seen keys) = mem_string c seen || mem_string c keys.
Proof.
  induction keys as [|k keys IH]; intros seen; cbn [union_keys].
  - cbn. rewrite orb_false_r. reflexivity.
  - destruct (mem_string k seen) eqn:E; rewrite IH.
    + cbn [mem_string existsb]. fold (mem_string c keys).
      destruct (String.eqb_spec c k) as [->|]; [|reflexivity].
      rewrite E. reflexivity.
    + rewrite mem_string_app. cbn [mem_string existsb].
      fold (mem_string c keys). rewrite orb_false_r, orb_assoc. reflexivity.
Qed.

(** A row of the frame holds the cells of its line, and no other. *)
Lemma cell_frame_row records r c :
  In r records ->
  cell (map (fun c' => (c', cell r c')) (frame_columns records)) c = cell r c.
Proof.
  intros Hin. unfold cell at 1. rewrite lookup_row.
  destruct (mem_string c (frame_columns records)) eqn:E; [reflexivity|].
  unfold cell. destruct (lookup c r) as [v|] eqn:L; [|reflexivity].
  exfalso. unfold frame_columns in E. rewrite mem_union_keys in E.
  cbn in E. assert (mem_string c (flat_map (fun r => map fst r) records) = true);
    [|congruence].
  unfold mem_string. apply existsb_exists. exists c. split;
    [|apply String.eqb_refl].
  apply in_flat_map. exists r. split; [exact Hin|].
  clear -L. induction r as [|[k v'] r IH]; cbn in *; [discriminate|].
  destruct (String.eqb_spec k c) as [->|]; [left; reflexivity|].
  right. apply IH. exact L.
Qed.

(** The rows that pass the filter are the rows of the lines whose
    [page] is [NextSong], in order. *)
Lemma NextSong_rows_played records :
  map snd (NextSong_rows records)
  = map (fun r => map (fun c => (c, cell r c)) (frame_columns records))
      (played records).
Proof.
  unfold NextSong_rows, played. cbn [rows frame_of_records].
  generalize 0%nat as i.
  assert (H : incl records records) by apply incl_refl. revert H.
  generalize records at 1 4 6 as l.
  induction l as [|r l IH]; intros H i; [reflexivity|].
  cbn [map label_from filter].
  rewrite cell_frame_row by (apply H; left; reflexivity).
  rewrite is_NextSong_eqb.
  assert (H' : incl l records) by (intros x Hx; apply H; right; exact Hx).
  destruct (value_eqb (cell r "page") (VStr "NextSong")); cbn [map];
    rewrite IH by exact H'; reflexivity.
Qed.

Lemma played_incl records : incl (played records) records.
Proof. intros r Hr. apply filter_In in Hr. apply Hr. Qed.

(** A log file that is processed to its end has a line whose [page] is
    [NextSong]. *)
Lemma process_log_file_played utcoffset filepath w w' name records :
  lookup_path filepath (fs w) = Some (File name (Some records)) ->
  process_log_file utcoffset filepath w = (Ok tt, w') ->
  played records <> [].
Proof.
  intros Lk E. unfold process_log_file in E.
  apply bind_ok_inv in E. destruct E as (df & w1 & E1 & E).
  unfold read_json in E1. rewrite Lk in E1. injection E1 as <- <-.
  apply bind_ok_inv in E. destruct E as (df' & w1 & E1 & E).
  unfold lift in E1. injection E1 as E1 <-.
  unfold filter_NextSong, rbind in E1.
  destruct (column (frame_of_records records) "page"); [|discriminate].
  injection E1 as <-.
  fold (NextSong_rows records) in E.
  apply bind_ok_inv in E. destruct E as (ts & w1 & E1 & E).
  unfold lift in E1. injection E1 as E1 <-.
  apply column_inv in E1. cbn [rows] in E1. subst ts.
  apply bind_ok_inv in E. destruct E as (t & w1 & E1 & E).
  unfold lift in E1. injection E1 as E1 <-.
  apply series_apply_inv in E1. apply Forall2_length in E1.
  apply bind_ok_inv in E. destruct E as ([] & w1 & E2 & _).
  unfold lift in E2. injection E2 as E2 _.
  intros Hp.
  pose proof (NextSong_rows_played records) as R. rewrite Hp in R.
  change (filter _ (label_from 0 _)) with (NextSong_rows records) in E1.
  destruct (NextSong_rows records); [|discriminate].
  destruct t; [discriminate E2 | cbn in E1; discriminate E1].
Qed.

Lemma combine_map_l {A B C} (f : A -> B) (l : list A) (t : list C) :
  combine (map f l) t = map (fun '(a, c) => (f a, c)) (combine l t).
Proof.
  revert t. induction l as [|a l IH]; intros [|c t]; cbn; try reflexivity.
  rewrite IH. reflexivity.
Qed.

Lemma map_combine_snd {A B C D} (f : B -> C -> D) (l : list (A * B))
  (xs : list C) :
  map (fun '((_, r), x) => f r x) (combine l xs)
  = map (fun '(r, x) => f r x) (combine (map snd l) xs).
Proof.
  revert xs. induction l as [|[i r] l IH]; intros [|x xs]; cbn;
    try reflexivity.
  rewrite IH. reflexivity.
Qed.

Lemma flat_map_combine_snd {A B C D} (f : B -> C -> list D)
  (l : list (A * B)) (xs : list C) :
  flat_map (fun '((_, r), x) => f r x) (combine l xs)
  = flat_map (fun '(r, x) => f r x) (combine (map snd l) xs).
Proof.
  revert xs. induction l as [|[i r] l IH]; intros [|x xs]; cbn;
    try reflexivity.
  rewrite IH. reflexivity.
Qed.

Lemma flat_map_ext_in {A B} (f g : A -> list B) l :
  (forall a, In a l -> f a = g a) -> flat_map f l = flat_map g l.
Proof.
  induction l as [|a l IH]; intros H; cbn; [reflexivity|].
  rewrite (H a) by (left; reflexivity).
  rewrite IH by (intros; apply H; right; assumption). reflexivity.
Qed.

(** C2. When a log file has been processed, the number of fact rows it
    added and the number of timestamps it converted both equal the
    number of lines of the file whose [page] is [NextSong], which is not
    zero.  Every statement executed for the file takes its parameters
    from such a line: one time insert and one user insert per line, then
    one lookup and one fact insert per line, in file order; the other
    lines reach no statement. *)
Theorem fact_rows_count utcoffset filepath w w' name records :
  lookup_path filepath (fs w) = Some (File name (Some records)) ->
  process_log_file utcoffset filepath w = (Ok tt, w') ->
  let lines := played records in
  let n := List.length lines in
  (1 <= n)%nat /\
  List.length (songplays (txn w')) = (List.length (songplays (txn w)) + n)%nat /\
  exists t,
    List.length t = n /\
    Forall2 (fun r x => fromtimestamp utcoffset (cell r "ts") = Ok x) lines t /\
    songplays (txn w') =
      (songplays (txn w) ++
       map (fun '(r, x) => songplay_of (txn w) x r) (combine lines t))%list /\
    events w' =
      (events w ++
       map (fun x => Execute time_table_insert (time_tuple x)) t ++
       map (fun r => Execute user_table_insert (map (cell r) user_columns))
         lines ++
       flat_map (fun '(r, x) =>
                   [Execute song_select
                      [cell r "song"; cell r "artist"; cell r "length"];
                    Execute songplay_table_insert
                      (songplay_params (txn w) x r)])
         (combine lines t))%list.
Proof.
  intros Lk E lines n.
  pose proof (process_log_file_played _ _ _ _ _ _ Lk E) as Hne.
  destruct (process_log_file_ok _ _ _ _ E)
    as (name' & records' & t & Lk' & Ft & _ & _ & _ & _ & _ & _ & SP & Ev).
  rewrite Lk in Lk'. injection Lk' as <- <-.
  pose proof (NextSong_rows_played records) as R. fold lines in R.
  set (rowify := fun r : json_record =>
                   map (fun c => (c, cell r c)) (frame_columns records)) in *.
  assert (Hc : forall r c, In r lines -> cell (rowify r) c = cell r c).
  { intros r c Hr. apply cell_frame_row. apply played_incl. exact Hr. }
  assert (Hl : List.length t = n).
  { pose proof (Forall2_length Ft) as Hft.
    pose proof (f_equal (@List.length _) R) as HR.
    rewrite !length_map in HR. unfold n.
    etransitivity; [symmetry; exact Hft | exact HR]. }
  assert (Ft' : Forall2 (fun r x => fromtimestamp utcoffset (cell r "ts") = Ok x)
                  lines (map snd t)).
  { assert (G : Forall2 (fun row x =>
                           fromtimestamp utcoffset (cell row "ts") = Ok x)
                  (map snd (NextSong_rows records)) (map snd t)).
    { clear -Ft. induction Ft as [|[i r] [j x] ? ? [_ H] _ IH]; constructor;
        assumption. }
    rewrite R in G. clear -G Hc.
    assert (I : incl lines lines) by apply incl_refl. revert I G.
    generalize (map snd t) as xs. generalize lines at 1 3 4 as l.
    induction l as [|r l IH]; intros xs I G; inversion G; subst; constructor.
    - rewrite <- Hc by (apply I; left; reflexivity). assumption.
    - apply IH; [|assumption]. intros a Ha. apply I. right. exact Ha. }
  assert (Hcomb : combine (map snd (NextSong_rows records)) (map snd t)
                  = map (fun '(r, x) => (rowify r, x))
                      (combine lines (map snd t))).
  { rewrite R. apply combine_map_l. }
  split.
  { unfold n, lines. clear -Hne.
    destruct (played records); [congruence | cbn; lia]. }
  assert (Hlen : List.length (combine lines (map snd t)) = n).
  { rewrite length_combine, length_map, Hl. apply Nat.min_id. }
  assert (HSP : songplays (txn w') =
      (songplays (txn w) ++
       map (fun '(r, x) => songplay_of (txn w) x r)
         (combine lines (map snd t)))%list).
  { rewrite SP. f_equal. unfold songplay_rows.
    etransitivity;
      [exact (map_combine_snd (fun r x => songplay_of (txn w) x r) _ _)|].
    etransitivity; [apply f_equal; exact Hcomb|].
    rewrite map_map.
    apply map_ext_in. intros [r x] Hin. apply in_combine_l in Hin.
    unfold songplay_of, resolved_ids. rewrite !Hc by exact Hin. reflexivity. }
  split.
  { rewrite HSP, length_app, length_map. f_equal. exact Hlen. }
  exists (map snd t). rewrite length_map.
  split; [exact Hl|]. split; [exact Ft'|]. split; [exact HSP|].
  assert (A1 : map (fun a : nat * datetime =>
                      Execute time_table_insert (time_tuple (snd a))) t
               = map (fun x => Execute time_table_insert (time_tuple x))
                   (map snd t)).
  { rewrite map_map. reflexivity. }
  assert (A2 : map (fun a : nat * Series =>
                      Execute user_table_insert
                        (map (cell (snd a)) user_columns))
                 (NextSong_rows records)
               = map (fun r => Execute user_table_insert
                                 (map (cell r) user_columns)) lines).
  { transitivity (map (fun row : Series =>
                         Execute user_table_insert
                           (map (cell row) user_columns))
                    (map snd (NextSong_rows records))).
    { rewrite map_map. reflexivity. }
    rewrite R, map_map. apply map_ext_in. intros r Hin.
    f_equal. apply map_ext. intros c. apply Hc. exact Hin. }
  assert (A3 : songplay_events (txn w) (NextSong_rows records) (map snd t)
               = flat_map (fun '(r, x) =>
                   [Execute song_select
                      [cell r "song"; cell r "artist"; cell r "length"];
                    Execute songplay_table_insert
                      (songplay_params (txn w) x r)])
                   (combine lines (map snd t))).
  { unfold songplay_events.
    etransitivity;
      [exact (flat_map_combine_snd
               (fun r x =>
                  [Execute song_select
                     [cell r "song"; cell r "artist"; cell r "length"];
                   Execute songplay_table_insert
                     (songplay_params (txn w) x r)]) _ _)|].
    etransitivity; [apply f_equal; exact Hcomb|].
    rewrite flat_map_concat_map, map_map, <- flat_map_concat_map.
    apply flat_map_ext_in. intros [r x] Hin. apply in_combine_l in Hin.
    unfold songplay_params, resolved_ids. rewrite !Hc by exact Hin.
    reflexivity. }
  rewrite Ev. f_equal. f_equal; [exact A1|]. f_equal; [exact A2 | exact A3].
Qed.

Lemma fact_rows_count_witness :
  let w := connect example_tree example_db in
  let w' := snd (process_log_file utc example_log_path w) in
  let lines := played example_log in
  let n := List.length lines in
  (1 <= n)%nat /\
  List.length (songplays (txn w')) = (List.length (songplays (txn w)) + n)%nat /\
  exists t,
    List.length t = n /\
    Forall2 (fun r x => fromtimestamp utc (cell r "ts") = Ok x) lines t /\
    songplays (txn w') =
      (songplays (txn w) ++
       map (fun '(r, x) => songplay_of (txn w) x r) (combine lines t))%list /\
    events w' =
      (events w ++
       map (fun x => Execute time_table_insert (time_tuple x)) t ++
       map (fun r => Execute user_table_insert (map (cell r) user_columns))
         lines ++
       flat_map (fun '(r, x) =>
                   [Execute song_select
                      [cell r "song"; cell r "artist"; cell r "length"];
                    Execute songplay_table_insert
                      (songplay_params (txn w) x r)])
         (combine lines t))%list.
Proof.
  intros w w'.
  apply (fact_rows_count utc example_log_path w w' "2018-11-01-events.json"
           example_log); vm_compute; reflexivity.
Defined.

(** ** Log files: foreign keys and start times *)

Lemma sql_eqb_nonnull_r a b : sql_eqb a b = true -> b <> VNull.
Proof. destruct a, b; cbn; congruence. Qed.

Lemma resolved_ids_consistent d song artist length :
  Forall (fun s => song_id s <> VNull) (songs d) ->
  let ids := resolved_ids d song artist length in
  (fst ids = VNull /\ snd ids = VNull) \/
  (fst ids <> VNull /\ snd ids <> VNull).
Proof.
  intros H. cbv zeta.
  destruct (resolved_ids_spec d song artist length)
    as [(s & a & Hs & Ha & M & ->) | (_ & ->)]; cbn [fst snd].
  - right. split.
    + rewrite Forall_forall in H. apply H, Hs.
    + unfold pair_matches in M. rewrite !andb_true_iff in M.
      destruct M as (((M & _) & _) & _).
      apply (sql_eqb_nonnull_r _ _ M).
  - left. split; reflexivity.
Qed.

(** C5. When the song rows of the store all have a song id, every fact
    row a processed log file adds has its song id and its artist id
    either both null or both set. *)
Theorem fact_ids_both_or_neither utcoffset filepath w w' :
  Forall (fun s => song_id s <> VNull) (songs (txn w)) ->
  process_log_file utcoffset filepath w = (Ok tt, w') ->
  exists new,
    songplays (txn w') = (songplays (txn w) ++ new)%list /\
    Forall ids_consistent new /\
    songs (txn w') = songs (txn w).
Proof.
  intros H E.
  destruct (process_log_file_ok _ _ _ _ E)
    as (name & records & t & _ & _ & _ & _ & S & _ & _ & _ & SP & _).
  eexists. split; [exact SP|]. split; [|exact S].
  unfold songplay_rows. apply Forall_forall. intros f Hf.
  apply in_map_iff in Hf. destruct Hf as ([[i r] x] & <- & _).
  unfold ids_consistent, songplay_of. cbn [sp_song_id sp_artist_id].
  apply resolved_ids_consistent. exact H.
Qed.

Lemma fact_ids_both_or_neither_witness :
  let w := connect example_tree example_db in
  let w' := snd (process_log_file utc example_log_path w) in
  exists new,
    songplays (txn w') = (songplays (txn w) ++ new)%list /\
    Forall ids_consistent new /\
    songs (txn w') = songs (txn w).
Proof.
  intros w w'.
  apply (fact_ids_both_or_neither utc example_log_path w w').
  - repeat constructor. discriminate.
  - vm_compute. reflexivity.
Defined.

Lemma datetime_eqb_eq a b : datetime_eqb a b = true -> a = b.
Proof.
  unfold datetime_eqb. rewrite !andb_true_iff, !Z.eqb_eq.
  destruct a, b; cbn. intros ((((((-> & ->) & ->) & ->) & ->) & ->) & ->).
  reflexivity.
Qed.

Lemma value_eqb_time v x : value_eqb v (VTime x) = true -> v = VTime x.
Proof.
  destruct v; cbn; try discriminate. intros H.
  apply datetime_eqb_eq in H. congruence.
Qed.

Lemma insert_if_absent_incl {R} (key : R -> value) r table :
  incl table (insert_if_absent key r table).
Proof.
  unfold insert_if_absent. destruct (existsb _ table).
  - apply incl_refl.
  - apply incl_appl, incl_refl.
Qed.

Lemma insert_time_present x table :
  exists row, In row (insert_if_absent start_time (time_row_of x) table) /\
              start_time row = VTime x.
Proof.
  unfold insert_if_absent.
  destruct (existsb _ table) eqn:E.
  - apply existsb_exists in E. destruct E as (row & Hin & Hk).
    exists row. split; [exact Hin|]. apply value_eqb_time. exact Hk.
  - exists (time_row_of x). split; [|reflexivity].
    apply in_or_app. right. left. reflexivity.
Qed.

Lemma fold_time_present (t : list (nat * datetime)) table p :
  In p t ->
  exists row,
    In row (fold_left (fun tbl a =>
                         insert_if_absent start_time (time_row_of (snd a)) tbl)
              t table) /\
    start_time row = VTime (snd p).
Proof.
  assert (Mono : forall (l : list (nat * datetime)) tbl row,
             In row tbl ->
             In row (fold_left (fun tbl a =>
                        insert_if_absent start_time (time_row_of (snd a)) tbl)
                       l tbl)).
  { induction l as [|a l IH]; intros tbl row Hin; [exact Hin|].
    cbn [fold_left]. apply IH. apply insert_if_absent_incl. exact Hin. }
  revert table. induction t as [|a t IH]; intros table Hin; [contradiction|].
  cbn [fold_left]. destruct Hin as [-> | Hin].
  - destruct (insert_time_present (snd p) table) as (row & Hr & Hs).
    exists row. split; [apply Mono; exact Hr | exact Hs].
  - apply IH. exact Hin.
Qed.

(** C10. When a log file has been processed, its events are the time
    inserts, then the other statements, with no commit in between; every
    fact row added for a filtered row has as start time the datetime
    derived from the timestamp of that same row; a time insert with that
    start time was executed among the time inserts, before any fact
    insert; and the time table of the transaction holds a row with that
    start time. *)
Theorem fact_start_time_loaded utcoffset filepath w w' :
  process_log_file utcoffset filepath w = (Ok tt, w') ->
  exists name records time_ev later new,
    lookup_path filepath (fs w) = Some (File name (Some records)) /\
    events w' = (events w ++ time_ev ++ later)%list /\
    Forall (fun e => exists x, e = Execute time_table_insert (time_tuple x))
      time_ev /\
    Forall (fun e => is_execute e = true) later /\
    (forall params,
        In (Execute songplay_table_insert params) (time_ev ++ later) ->
        In (Execute songplay_table_insert params) later /\
        exists x rest,
          params = VTime x :: rest /\
          In (Execute time_table_insert (time_tuple x)) time_ev) /\
    songplays (txn w') = (songplays (txn w) ++ new)%list /\
    Forall2 (fun '(_, r) f =>
               exists x,
                 fromtimestamp utcoffset (cell r "ts") = Ok x /\
                 sp_start_time f = VTime x /\
                 In (Execute time_table_insert (time_tuple x)) time_ev /\
                 exists row, In row (time (txn w')) /\ start_time row = VTime x)
      (NextSong_rows records) new.
Proof.
  intros E.
  destruct (process_log_file_ok _ _ _ _ E)
    as (name & records & t & Lk & Ft & _ & _ & _ & _ & Ti & _ & SP & Ev).
  exists name, records.
  exists (map (fun a => Execute time_table_insert (time_tuple (snd a))) t).
  eexists. eexists.
  split; [exact Lk|]. split; [exact Ev|].
  assert (Hin : forall p, In p t ->
            In (Execute time_table_insert (time_tuple (snd p)))
              (map (fun a => Execute time_table_insert (time_tuple (snd a))) t)).
  { intros p Hp. apply in_map_iff. exists p. split; [reflexivity | exact Hp]. }
  split; [|split; [|split; [|split; [exact SP|]]]].
  - apply Forall_forall. intros e He. apply in_map_iff in He.
    destruct He as (a & <- & _). eauto.
  - apply Forall_app. split.
    + apply Forall_forall. intros e He. apply in_map_iff in He.
      destruct He as (a & <- & _). reflexivity.
    + unfold songplay_events. apply Forall_forall. intros e He.
      apply in_flat_map in He. destruct He as ([[i r] x] & _ & He).
      destruct He as [<- | [<- | []]]; reflexivity.
  - intros params Hp. apply in_app_or in Hp. destruct Hp as [Hp | Hp].
    { apply in_map_iff in Hp. destruct Hp as (a & Ha & _). discriminate. }
    split; [exact Hp|].
    apply in_app_or in Hp. destruct Hp as [Hp | Hp].
    { apply in_map_iff in Hp. destruct Hp as (a & Ha & _). discriminate. }
    unfold songplay_events in Hp. apply in_flat_map in Hp.
    destruct Hp as ([[i r] x] & Hc & He).
    destruct He as [He | [He | []]]; [discriminate|].
    injection He as <-. unfold songplay_params. eexists. eexists.
    split; [reflexivity|].
    apply in_combine_r in Hc. apply in_map_iff in Hc.
    destruct Hc as (p & <- & Hp). apply Hin, Hp.
  - unfold songplay_rows. clear -Ft Ti Hin.
    assert (Hall : forall p, In p t ->
              exists row, In row (time (txn w')) /\ start_time row = VTime (snd p)).
    { intros p Hp. rewrite Ti. apply fold_time_present. exact Hp. }
    clear Ti. revert Hin Hall.
    generalize (map (fun a => Execute time_table_insert (time_tuple (snd a))) t)
      as time_ev.
    intros time_ev.
    assert (G : forall t', incl t' t ->
              forall rs, Forall2 (fun '(i, r) '(j, x) =>
                   j = i /\ fromtimestamp utcoffset (cell r "ts") = Ok x) rs t' ->
              (forall p, In p t -> In (Execute time_table_insert (time_tuple (snd p))) time_ev) ->
              (forall p, In p t -> exists row, In row (time (txn w')) /\ start_time row = VTime (snd p)) ->
              Forall2 (fun '(_, r) f =>
                 exists x, fromtimestamp utcoffset (cell r "ts") = Ok x /\
                   sp_start_time f = VTime x /\
                   In (Execute time_table_insert (time_tuple x)) time_ev /\
                   exists row, In row (time (txn w')) /\ start_time row = VTime x)
                rs (map (fun '(_, r, x) => songplay_of (txn w) x r)
                      (combine rs (map snd t')))).
    { intros t' I rs F. induction F as [|[i r] [j x] rs t' [-> Hx] _ IH];
        intros Hin Hall; cbn [map snd combine]; constructor.
      - exists x. split; [exact Hx|]. split; [reflexivity|].
        split; [apply (Hin (i, x)), I; left; reflexivity|].
        apply (Hall (i, x)), I. left. reflexivity.
      - apply IH; try assumption. intros p Hp. apply I. right. exact Hp. }
    intros Hin Hall. apply (G t (incl_refl t) _ Ft Hin Hall).
Qed.

Lemma fact_start_time_loaded_witness :
  let w := connect example_tree example_db in
  let w' := snd (process_log_file utc example_log_path w) in
  exists name records time_ev later new,
    lookup_path example_log_path (fs w) = Some (File name (Some records)) /\
    events w' = (events w ++ time_ev ++ later)%list /\
    Forall (fun e => exists x, e = Execute time_table_insert (time_tuple x))
      time_ev /\
    Forall (fun e => is_execute e = true) later /\
    (forall params,
        In (Execute songplay_table_insert params) (time_ev ++ later) ->
        In (Execute songplay_table_insert params) later /\
        exists x rest,
          params = VTime x :: rest /\
          In (Execute time_table_insert (time_tuple x)) time_ev) /\
    songplays (txn w') = (songplays (txn w) ++ new)%list /\
    Forall2 (fun '(_, r) f =>
               exists x,
                 fromtimestamp utc (cell r "ts") = Ok x /\
                 sp_start_time f = VTime x /\
                 In (Execute time_table_insert (time_tuple x)) time_ev /\
                 exists row, In row (time (txn w')) /\ start_time row = VTime x)
      (NextSong_rows records) new.
Proof.
  intros w w'.
  apply (fact_start_time_loaded utc example_log_path w w').
  vm_compute. reflexivity.
Defined.

(** ** Keys and conflict policies *)

Lemma value_eqb_refl v : value_eqb v v = true.
Proof.
  destruct v as [|n|q|s|t]; cbn.
  - reflexivity.
  - apply Z.eqb_refl.
  - apply Qeq_bool_iff. reflexivity.
  - apply String.eqb_refl.
  - unfold datetime_eqb. rewrite !Z.eqb_refl. reflexivity.
Qed.

Lemma keys_incl_refl ks : keys_incl ks ks.
Proof. intros k H. exact H. Qed.

Lemma keys_incl_trans a b c : keys_incl a b -> keys_incl b c -> keys_incl a c.
Proof. intros H1 H2 k H. apply H2, H1, H. Qed.

Lemma keys_sub_refl d : keys_sub d d.
Proof. repeat split; apply keys_incl_refl. Qed.

Lemma keys_sub_trans a b c : keys_sub a b -> keys_sub b c -> keys_sub a c.
Proof.
  intros (A1 & A2 & A3 & A4) (B1 & B2 & B3 & B4).
  repeat split; eapply keys_incl_trans; eassumption.
Qed.

Lemma dims_same_refl d : dims_same d d.
Proof. repeat split. Qed.

Lemma dims_same_trans a b c : dims_same a b -> dims_same b c -> dims_same a c.
Proof.
  intros (A1 & A2 & A3 & A4) (B1 & B2 & B3 & B4). repeat split; congruence.
Qed.

Lemma user_ids_of_identity us :
  map user_id us = map (fun i => fst (fst (fst i))) (map user_identity us).
Proof. rewrite map_map. reflexivity. Qed.

Lemma dims_same_keys a b : dims_same a b -> keys_sub a b.
Proof.
  intros (A1 & A2 & A3 & A4). unfold keys_sub.
  rewrite A1, A2, A3, (user_ids_of_identity (users a)), A4,
    <- (user_ids_of_identity (users b)).
  repeat split; apply keys_incl_refl.
Qed.

Lemma existsb_map {A B} (f : B -> bool) (g : A -> B) l :
  existsb f (map g l) = existsb (fun x => f (g x)) l.
Proof.
  induction l as [|a l IH]; cbn; [reflexivity|]. rewrite IH. reflexivity.
Qed.

(** An insert-if-absent keeps every key and holds the key of its row. *)
Lemma insert_if_absent_keys {R} (key : R -> value) r table :
  keys_incl (map key table) (map key (insert_if_absent key r table)) /\
  has_key (map key (insert_if_absent key r table)) (key r) = true.
Proof.
  unfold insert_if_absent, has_key.
  destruct (existsb (fun r' => value_eqb (key r') (key r)) table) eqn:E.
  - split; [apply keys_incl_refl|]. rewrite existsb_map. exact E.
  - split.
    + intros k H. unfold has_key in *. rewrite map_app, existsb_app, H.
      reflexivity.
    + rewrite map_app, existsb_app. cbn. rewrite value_eqb_refl.
      rewrite orb_true_r. reflexivity.
Qed.

(** On a key conflict an insert-if-absent does nothing. *)
Lemma insert_if_absent_conflict {R} (key : R -> value) r table :
  has_key (map key table) (key r) = true ->
  insert_if_absent key r table = table.
Proof.
  unfold insert_if_absent, has_key. rewrite existsb_map. intros ->.
  reflexivity.
Qed.

(** The user insert keeps every key and holds the key of its row. *)
Lemma upsert_user_keys r table :
  keys_incl (map user_id table) (map user_id (upsert_user r table)) /\
  has_key (map user_id (upsert_user r table)) (user_id r) = true.
Proof.
  unfold upsert_user, has_key.
  destruct (existsb (fun r' => value_eqb (user_id r') (user_id r)) table) eqn:E.
  - assert (Hm : map user_id
               (map (fun r' => if value_eqb (user_id r') (user_id r)
                               then mk_user (user_id r') (first_name r')
                                      (last_name r') (gender r') (level r)
                               else r') table) = map user_id table).
    { rewrite map_map. apply map_ext. intros r'.
      destruct (value_eqb (user_id r') (user_id r)); reflexivity. }
    rewrite Hm. split; [apply keys_incl_refl|]. rewrite existsb_map. exact E.
  - split.
    + intros k H. unfold has_key in *. rewrite map_app, existsb_app, H.
      reflexivity.
    + rewrite map_app, existsb_app. cbn. rewrite value_eqb_refl.
      rewrite orb_true_r. reflexivity.
Qed.

(** On a key conflict the user insert changes subscription levels only:
    identities stay, and the rows of that user take the incoming level. *)
Lemma upsert_user_conflict r table :
  has_key (map user_id table) (user_id r) = true ->
  map user_identity (upsert_user r table) = map user_identity table /\
  List.length (upsert_user r table) = List.length table /\
  Forall (fun r' => value_eqb (user_id r') (user_id r) = true ->
                    level r' = level r)
    (upsert_user r table).
Proof.
  unfold upsert_user, has_key. rewrite existsb_map. intros ->.
  repeat split.
  - rewrite map_map. apply map_ext. intros r'.
    destruct (value_eqb (user_id r') (user_id r)); reflexivity.
  - apply length_map.
  - apply Forall_forall. intros r' Hin. apply in_map_iff in Hin.
    destruct Hin as (r0 & <- & _).
    destruct (value_eqb (user_id r0) (user_id r)) eqn:E; cbn; [reflexivity|].
    congruence.
Qed.

(** A statement only adds keys. *)
Lemma exec_db_keys q params d : keys_sub d (exec_db q params d).
Proof.
  unfold exec_db.
  destruct (run_query q params d) as [[d' res]|e] eqn:E;
    [|apply keys_sub_refl].
  destruct q;
    repeat (destruct params as [|? params]; try discriminate);
    cbn in E; injection E as <- _; unfold keys_sub; cbn;
    repeat split; try apply keys_incl_refl;
    first [apply insert_if_absent_keys | apply upsert_user_keys].
Qed.

(** A statement whose keys the store [K] already holds leaves the
    dimensions of a store like [K] as they are. *)
Lemma exec_db_absorbed q params d1 K d2 :
  keys_sub (exec_db q params d1) K ->
  dims_same K d2 ->
  dims_same K (exec_db q params d2).
Proof.
  intros Hk Hs. apply (dims_same_trans _ d2); [exact Hs|].
  pose proof (dims_same_keys _ _ Hs) as (K1 & K2 & K3 & K4).
  destruct Hk as (H1 & H2 & H3 & H4).
  unfold exec_db in *.
  destruct q;
    repeat (destruct params as [|? params]; try apply dims_same_refl);
    cbn in *; unfold dims_same; cbn; repeat split.
  - symmetry. apply insert_if_absent_conflict. apply K1, H1.
    apply insert_if_absent_keys.
  - symmetry. apply insert_if_absent_conflict. apply K2, H2.
    apply insert_if_absent_keys.
  - symmetry. apply insert_if_absent_conflict. apply K3, H3.
    apply insert_if_absent_keys.
  - symmetry. apply upsert_user_conflict. apply K4, H4.
    apply upsert_user_keys.
Qed.

(** Lookups and fact inserts do not touch the dimensions. *)
Lemma exec_db_fact q params d :
  q = song_select \/ q = songplay_table_insert ->
  dims_same d (exec_db q params d).
Proof.
  unfold exec_db. intros [-> | ->];
    repeat (destruct params as [|? params]; try apply dims_same_refl).
  cbn. repeat split.
Qed.

(** ** Replaying a trace on a store that already holds its keys *)

Lemma view_eq_cases e1 e2 :
  view_eq e1 e2 ->
  e1 = e2 \/
  exists q p1 p2,
    (q = song_select \/ q = songplay_table_insert) /\
    e1 = Execute q p1 /\ e2 = Execute q p2.
Proof.
  destruct e1 as [q p| | |], e2 as [q' p'| | |]; cbn;
    try (destruct q; intros H; left; exact H);
    try (intros H; left; exact H).
  destruct q, q'; intros H; try (left; exact H);
    right; eexists; eexists; eexists; eauto.
Qed.

Lemma view_eq_refl e : view_eq e e.
Proof. destruct e as [q p| | |]; cbn; try reflexivity. destruct q; reflexivity. Qed.

Lemma replay_cons e ev s : replay (e :: ev) s = replay ev (replay_event s e).
Proof. reflexivity. Qed.

(** The committed store only gains keys along a trace. *)
Lemma replay_persisted_keys ev :
  forall p t, keys_sub p t -> keys_sub p (fst (replay ev (p, t))).
Proof.
  induction ev as [|e ev IH]; intros p t H; [apply keys_sub_refl|].
  rewrite replay_cons. destruct e as [q params| | |]; cbn [replay_event fst snd].
  - apply IH. eapply keys_sub_trans; [exact H | apply exec_db_keys].
  - eapply keys_sub_trans; [exact H|]. apply IH, keys_sub_refl.
  - apply IH, H.
  - apply IH, keys_sub_refl.
Qed.

(** Replaying a trace on a store that holds every key the trace commits
    leaves the dimensions of the committed store as they are. *)
Lemma replay_rerun ev1 ev2 :
  Forall2 view_eq ev1 ev2 ->
  forall p1 t1 p2 t2 K,
    keys_sub p1 t1 ->
    keys_sub (fst (replay ev1 (p1, t1))) K ->
    dims_same K p2 ->
    (keys_sub t1 K -> dims_same K t2) ->
    dims_same K (fst (replay ev2 (p2, t2))).
Proof.
  induction 1 as [|e1 e2 ev1 ev2 V _ IH]; intros p1 t1 p2 t2 K Hpt Hfin Hp Ht.
  - exact Hp.
  - rewrite replay_cons in *.
    destruct (view_eq_cases _ _ V) as [<- | (q & a & b & Hq & -> & ->)].
    + destruct e1 as [q params| | |]; cbn [replay_event fst snd] in *.
      * apply (IH p1 (exec_db q params t1)); try assumption.
        { eapply keys_sub_trans; [exact Hpt | apply exec_db_keys]. }
        intros Hk. apply (exec_db_absorbed q params t1); [exact Hk|].
        apply Ht. eapply keys_sub_trans; [apply exec_db_keys | exact Hk].
      * assert (Hk : keys_sub t1 K).
        { eapply keys_sub_trans; [|exact Hfin].
          apply replay_persisted_keys, keys_sub_refl. }
        apply (IH t1 t1); try assumption.
        { apply keys_sub_refl. }
        { apply Ht, Hk. }
      * apply (IH p1 t1); assumption.
      * apply (IH p1 p1); try assumption.
        { apply keys_sub_refl. }
        { intros _. exact Hp. }
    + cbn [replay_event fst snd] in *.
      apply (IH p1 (exec_db q a t1)); try assumption.
      * eapply keys_sub_trans; [exact Hpt | apply exec_db_keys].
      * intros Hk. apply (dims_same_trans _ t2).
        { apply Ht. eapply keys_sub_trans; [apply exec_db_keys | exact Hk]. }
        apply exec_db_fact. exact Hq.
Qed.

(** A trace replayed on the store it has committed leaves the dimension
    tables of that store as they are. *)
Lemma replay_twice ev1 ev2 d0 :
  Forall2 view_eq ev1 ev2 ->
  let d1 := fst (replay ev1 (d0, d0)) in
  dims_same d1 (fst (replay ev2 (d1, d1))).
Proof.
  intros V d1. apply (replay_rerun ev1 ev2 V d0 d0 d1 d1 d1).
  - apply keys_sub_refl.
  - apply keys_sub_refl.
  - apply dims_same_refl.
  - intros _. apply dims_same_refl.
Qed.

(** ** Two runs over the same input tree *)

Lemma sim_pure {A} (m : M A) :
  (forall w, snd (m w) = w) ->
  (forall w v, fs w = fs v -> fst (m w) = fst (m v)) ->
  sim eq m m.
Proof.
  intros Hs Hr w v r1 w1 r2 v1 Hfs E1 E2.
  pose proof (Hs w) as S1. pose proof (Hs v) as S2.
  pose proof (Hr w v Hfs) as R. rewrite E1 in S1, R. rewrite E2 in S2, R.
  cbn in *. subst. split; [exact Hfs|]. split.
  - destruct r2; reflexivity.
  - exists [], []. rewrite !app_nil_r. repeat split. constructor.
Qed.

Lemma sim_ret {A} (a : A) : sim eq (ret a) (ret a).
Proof. apply sim_pure; reflexivity. Qed.

Lemma sim_lift {A} (r : result A) : sim eq (lift r) (lift r).
Proof. apply sim_pure; reflexivity. Qed.

Lemma sim_read_json filepath : sim eq (read_json filepath) (read_json filepath).
Proof.
  apply sim_pure; unfold read_json.
  - intros w.
    destruct (lookup_path filepath (fs w)) as [[? [?|] | ? ?]|]; reflexivity.
  - intros w v ->. 
    destruct (lookup_path filepath (fs v)) as [[? [?|] | ? ?]|]; reflexivity.
Qed.

Lemma sim_bind {A B} (R : A -> A -> Prop) (R' : B -> B -> Prop)
  (m1 m2 : M A) (k1 k2 : A -> M B) :
  sim R m1 m2 ->
  (forall a b, R a b -> sim R' (k1 a) (k2 b)) ->
  sim R' (bind m1 k1) (bind m2 k2).
Proof.
  intros Hm Hk w v r1 w1 r2 v1 Hfs E1 E2. unfold bind in E1, E2.
  destruct (m1 w) as [ra wa] eqn:Ea. destruct (m2 v) as [rb vb] eqn:Eb.
  destruct (Hm _ _ _ _ _ _ Hfs Ea Eb) as (F & Rr & e1 & e2 & Ev1 & Ev2 & V).
  destruct ra as [a|e], rb as [b|e']; try contradiction.
  - destruct (Hk a b Rr _ _ _ _ _ _ F E1 E2)
      as (F' & Rr' & e1' & e2' & Ev1' & Ev2' & V').
    split; [exact F'|]. split; [exact Rr'|].
    exists (e1 ++ e1')%list, (e2 ++ e2')%list.
    rewrite Ev1', Ev1, Ev2', Ev2, !app_assoc. repeat split.
    apply Forall2_app; assumption.
  - injection E1 as <- <-. injection E2 as <- <-.
    split; [exact F|]. split; [exact Rr|]. exists e1, e2. repeat split; assumption.
Qed.

(** Whether the driver accepts a statement does not depend on the store. *)
Lemma run_query_raise q params d e :
  run_query q params d = Raise e ->
  forall d', run_query q params d' = Raise e.
Proof.
  destruct q;
    repeat (destruct params as [|? params];
            try (cbn; intros H d'; first [discriminate | exact H])).
Qed.

Lemma sim_execute q params : sim eq (execute q params) (execute q params).
Proof.
  intros w v r1 w1 r2 v1 Hfs. unfold execute.
  destruct (run_query q params (txn w)) as [[d res]|e] eqn:E1.
  - destruct (run_query q params (txn v)) as [[d' res']|e'] eqn:E2.
    + intros [= <- <-] [= <- <-]. cbn. repeat split; [exact Hfs|].
      exists [Execute q params], [Execute q params]. repeat split.
      constructor; [apply view_eq_refl | constructor].
    + rewrite (run_query_raise _ _ _ _ E2 (txn w)) in E1. discriminate.
  - rewrite (run_query_raise _ _ _ _ E1 (txn v)).
    intros [= <- <-] [= <- <-]. repeat split; [exact Hfs|].
    exists [], []. rewrite !app_nil_r. repeat split. constructor.
Qed.

Lemma sim_for_each {A} (l : list A) (body : A -> M unit) :
  (forall a, sim eq (body a) (body a)) ->
  sim eq (for_each l body) (for_each l body).
Proof.
  intros H. induction l as [|a l IH]; cbn.
  - apply sim_ret.
  - apply (sim_bind eq); [apply H | intros _ _ _; exact IH].
Qed.

(** The lookup, [fetchone] and the assignment of the ids, in one step. *)
Lemma resolve_step (k : value * value -> M unit) a b c w :
  bind (execute song_select [a; b; c])
    (fun _ =>
       bind fetchone
         (fun results =>
            bind (lift (match results with
                        | Some [songid; artistid] => Ok (songid, artistid)
                        | Some _ => Raise ValueError
                        | None => Ok (VNull, VNull)
                        end)) k)) w
  = k (resolved_ids (txn w) a b c)
      (mk_world (fs w) (persisted w) (txn w)
         (Some (tl (select_song (txn w) a b c)))
         (events w ++ [Execute song_select [a; b; c]])).
Proof.
  unfold bind at 1. unfold execute. cbn [run_query].
  unfold bind at 1. unfold fetchone. cbn [fetched fs persisted txn events].
  unfold resolved_ids.
  destruct (select_song (txn w) a b c) as [|r rows] eqn:E.
  - reflexivity.
  - destruct (select_song_rows (txn w) a b c r) as (s & x & _ & _ & _ & ->).
    { rewrite E. left. reflexivity. }
    reflexivity.
Qed.

Lemma sim_insert_songplay t index row :
  sim eq (insert_songplay t index row) (insert_songplay t index row).
Proof.
  unfold insert_songplay.
  apply (sim_bind eq); [apply sim_lift | intros song ? <-].
  apply (sim_bind eq); [apply sim_lift | intros artist ? <-].
  apply (sim_bind eq); [apply sim_lift | intros length ? <-].
  intros w v r1 w1 r2 v1 Hfs E1 E2.
  rewrite resolve_step in E1, E2.
  destruct (resolved_ids (txn w) song artist length) as [s1 a1].
  destruct (resolved_ids (txn v) song artist length) as [s2 a2].
  assert (K : sim eq
    (start <- lift (loc t index) ;;
     userId <- lift (getattr row "userId") ;;
     level <- lift (getattr row "level") ;;
     sessionId <- lift (getattr row "sessionId") ;;
     location <- lift (getattr row "location") ;;
     userAgent <- lift (getattr row "userAgent") ;;
     execute songplay_table_insert
       [VTime start; userId; level; s1; a1; sessionId; location; userAgent])
    (start <- lift (loc t index) ;;
     userId <- lift (getattr row "userId") ;;
     level <- lift (getattr row "level") ;;
     sessionId <- lift (getattr row "sessionId") ;;
     location <- lift (getattr row "location") ;;
     userAgent <- lift (getattr row "userAgent") ;;
     execute songplay_table_insert
       [VTime start; userId; level; s2; a2; sessionId; location; userAgent])).
  { repeat (apply (sim_bind eq); [apply sim_lift | intros ? ? <-]).
    intros w' v' r1' w1' r2' v1' Hfs'. unfold execute. cbn [run_query].
    intros [= <- <-] [= <- <-]. cbn. repeat split; [exact Hfs'|].
    eexists [_], [_]. repeat split. constructor; [exact I | constructor]. }
  pose proof (fun H => K _ _ _ _ _ _ H E1 E2) as K'. cbn [fs] in K'.
  destruct (K' Hfs) as (F & Rr & e1 & e2 & Ev1 & Ev2 & V).
  cbn [events] in Ev1, Ev2.
  split; [exact F|]. split; [exact Rr|].
  exists (Execute song_select [song; artist; length] :: e1),
         (Execute song_select [song; artist; length] :: e2).
  rewrite Ev1, Ev2, <- !app_assoc. repeat split.
  constructor; [exact I | exact V].
Qed.

Lemma sim_process_song_file filepath :
  sim eq (process_song_file filepath) (process_song_file filepath).
Proof.
  unfold process_song_file.
  repeat first
    [ apply (sim_bind eq); [|intros ? ? <-]
    | apply sim_read_json | apply sim_lift | apply sim_execute ].
Qed.

Lemma sim_process_log_file utcoffset filepath :
  sim eq (process_log_file utcoffset filepath)
    (process_log_file utcoffset filepath).
Proof.
  unfold process_log_file.
  repeat first
    [ apply sim_insert_songplay
    | match goal with
      | |- sim eq (let '(_, _) := ?p in _) _ => destruct p
      end
    | apply sim_for_each; intros ?
    | apply sim_read_json | apply sim_lift | apply sim_execute
    | apply (sim_bind eq); [|intros ? ? <-] ].
Qed.

Lemma sim_commit : sim eq commit commit.
Proof.
  intros w v r1 w1 r2 v1 Hfs [= <- <-] [= <- <-]. cbn.
  repeat split; [exact Hfs|]. exists [Commit], [Commit]. repeat split.
  constructor; [reflexivity | constructor].
Qed.

Lemma sim_print l : sim eq (print l) (print l).
Proof.
  intros w v r1 w1 r2 v1 Hfs [= <- <-] [= <- <-]. cbn.
  repeat split; [exact Hfs|]. exists [Print l], [Print l]. repeat split.
  constructor; [reflexivity | constructor].
Qed.

Lemma sim_close : sim eq close close.
Proof.
  intros w v r1 w1 r2 v1 Hfs [= <- <-] [= <- <-]. cbn.
  repeat split; [exact Hfs|]. exists [Close], [Close]. repeat split.
  constructor; [reflexivity | constructor].
Qed.

Lemma sim_process_files func n :
  (forall f, sim eq (func f) (func f)) ->
  forall files i,
    sim eq (process_files func n i files) (process_files func n i files).
Proof.
  intros H files. induction files as [|f rest IH]; intros i; cbn.
  - apply sim_ret.
  - apply (sim_bind eq); [apply H | intros _ _ _].
    apply (sim_bind eq); [apply sim_commit | intros _ _ _].
    apply (sim_bind eq); [apply sim_print | intros _ _ _].
    apply IH.
Qed.

Lemma sim_process_data filepath func :
  (forall f, sim eq (func f) (func f)) ->
  sim eq (process_data filepath func) (process_data filepath func).
Proof.
  intros H w v r1 w1 r2 v1 Hfs. unfold process_data, all_files.
  rewrite Hfs.
  apply (sim_bind eq);
    [apply sim_print | intros _ _ _; apply sim_process_files; exact H |
     exact Hfs].
Qed.

Lemma sim_main utcoffset : sim eq (main utcoffset) (main utcoffset).
Proof.
  unfold main.
  apply (sim_bind eq);
    [apply sim_process_data; intros; apply sim_process_song_file
    | intros _ _ _].
  apply (sim_bind eq);
    [apply sim_process_data; intros; apply sim_process_log_file
    | intros _ _ _].
  apply sim_close.
Qed.

(** ** The store as a function of the trace *)

Lemma sourced_bind {A B} (m : M A) (k : A -> M B) :
  sourced m -> (forall a, sourced (k a)) -> sourced (bind m k).
Proof.
  intros Hm Hk w r w' E.
  destruct (bind_inv _ _ _ _ _ E) as [(e & -> & E1) | (a & w1 & E1 & E2)].
  - exact (Hm _ _ _ E1).
  - destruct (Hm _ _ _ E1) as (F1 & ev1 & Ev1 & R1).
    destruct (Hk a _ _ _ E2) as (F2 & ev2 & Ev2 & R2).
    split; [congruence|]. exists (ev1 ++ ev2)%list. split.
    + rewrite Ev2, Ev1, app_assoc. reflexivity.
    + rewrite replay_app, <- R1. exact R2.
Qed.

Lemma sourced_ret {A} (a : A) : sourced (ret a).
Proof. apply cursor_only_sourced, cursor_only_ret. Qed.

Lemma sourced_commit : sourced commit.
Proof.
  intros w r w' [= <- <-]. cbn. split; [reflexivity|].
  exists [Commit]. split; reflexivity.
Qed.

Lemma sourced_print l : sourced (print l).
Proof.
  intros w r w' [= <- <-]. cbn. split; [reflexivity|].
  exists [Print l]. split; reflexivity.
Qed.

Lemma sourced_close : sourced close.
Proof.
  intros w r w' [= <- <-]. cbn. split; [reflexivity|].
  exists [Close]. split; reflexivity.
Qed.

Lemma sourced_process_files func n :
  (forall f, sourced (func f)) ->
  forall files i, sourced (process_files func n i files).
Proof.
  intros H files. induction files as [|f rest IH]; intros i; cbn.
  - apply sourced_ret.
  - apply sourced_bind; [apply H | intros _].
    apply sourced_bind; [apply sourced_commit | intros _].
    apply sourced_bind; [apply sourced_print | intros _].
    apply IH.
Qed.

Lemma sourced_process_data filepath func :
  (forall f, sourced (func f)) -> sourced (process_data filepath func).
Proof.
  intros H w r w'. unfold process_data.
  apply sourced_bind; [apply sourced_print | intros _].
  apply sourced_process_files. exact H.
Qed.

Lemma sourced_main utcoffset : sourced (main utcoffset).
Proof.
  unfold main.
  apply sourced_bind;
    [apply sourced_process_data; intros;
     apply cursor_only_sourced, cursor_only_process_song_file | intros _].
  apply sourced_bind;
    [apply sourced_process_data; intros;
     apply cursor_only_sourced, cursor_only_process_log_file | intros _].
  apply sourced_close.
Qed.

(** ** Running the pipeline twice *)

(** C3. Run the pipeline on an input tree, then run it again on the same
    tree against the store the first run left: the second run ends the
    way the first did, and the song, artist and time tables it leaves
    are those of the first run, row for row; the user table has the same
    rows up to the subscription level, hence the same number of rows.
    The policies behind this: on a natural-key conflict the song, artist
    and time inserts change nothing, and the user insert changes the
    subscription level only. *)
Theorem rerun_keeps_dimensions utcoffset tree d0 :
  let run1 := main utcoffset (connect tree d0) in
  let d1 := persisted (snd run1) in
  let run2 := main utcoffset (connect tree d1) in
  let d2 := persisted (snd run2) in
  fst run2 = fst run1 /\
  songs d2 = songs d1 /\
  artists d2 = artists d1 /\
  time d2 = time d1 /\
  map user_identity (users d2) = map user_identity (users d1) /\
  List.length (users d2) = List.length (users d1) /\
  (forall R (key : R -> value) r table,
      has_key (map key table) (key r) = true ->
      insert_if_absent key r table = table) /\
  (forall r table,
      has_key (map user_id table) (user_id r) = true ->
      map user_identity (upsert_user r table) = map user_identity table /\
      List.length (upsert_user r table) = List.length table /\
      Forall (fun r' => value_eqb (user_id r') (user_id r) = true ->
                        level r' = level r)
        (upsert_user r table)).
Proof.
  intros run1 d1 run2 d2.
  destruct (main utcoffset (connect tree d0)) as [r1 w1] eqn:E1.
  destruct (main utcoffset (connect tree d1)) as [r2 w2] eqn:E2.
  destruct (sourced_main utcoffset _ _ _ E1) as (_ & ev1 & Ev1 & R1).
  destruct (sourced_main utcoffset _ _ _ E2) as (_ & ev2 & Ev2 & R2).
  destruct (sim_main utcoffset (connect tree d0) (connect tree d1)
              _ _ _ _ eq_refl E1 E2)
    as (_ & Rr & e1 & e2 & Ev1' & Ev2' & V).
  cbn [connect events persisted txn app] in *.
  rewrite Ev1 in Ev1'. rewrite Ev2 in Ev2'. subst e1 e2.
  assert (H1 : d1 = fst (replay ev1 (d0, d0))).
  { subst d1 run1. cbn [snd]. rewrite <- R1. reflexivity. }
  assert (H2 : d2 = fst (replay ev2 (d1, d1))).
  { subst d2 run2. cbn [snd]. rewrite <- R2. reflexivity. }
  pose proof (replay_twice ev1 ev2 d0 V) as D. cbv zeta in D.
  rewrite <- H1, <- H2 in D. destruct D as (Ds & Da & Dt & Du).
  assert (Hr : r2 = r1).
  { destruct r1 as [[]|], r2 as [[]|]; try contradiction; congruence. }
  subst run1 run2. cbn [fst].
  repeat split; try congruence.
  - rewrite <- (length_map user_identity (users d2)),
      <- (length_map user_identity (users d1)). congruence.
  - intros R key r table. apply insert_if_absent_conflict.
  - apply upsert_user_conflict. assumption.
  - apply upsert_user_conflict. assumption.
  - apply upsert_user_conflict. assumption.
Qed.

(** ** File discovery *)

Lemma node_rect_nested (P : node -> Prop) :
  (forall name content, P (File name content)) ->
  (forall name entries, Forall P entries -> P (Dir name entries)) ->
  forall n, P n.
Proof.
  intros HF HD.
  fix IH 1. intros [name content | name entries].
  - apply HF.
  - apply HD. induction entries as [|c entries IHe]; constructor.
    + apply IH.
    + exact IHe.
Qed.

Lemma walk_dir cwd root name entries :
  walk cwd root (Dir name entries) =
    (glob_json cwd root ++
     flat_map (fun c => walk cwd (root ++ [node_name c]) c) entries)%list.
Proof.
  reflexivity.
Qed.

(** A pattern without [*], [?] and [[] stands for the directory of that
    path. *)
Lemma glob_dirs_literal comps :
  Forall (fun c => has_magic c = false) comps ->
  forall at_ entries,
    glob_dirs comps at_ entries =
      match resolve comps entries with
      | Some sub => [((at_ ++ comps)%list, sub)]
      | None => []
      end.
Proof.
  induction 1 as [|c comps Hc _ IH]; intros at_ entries; cbn [glob_dirs resolve].
  - rewrite app_nil_r. reflexivity.
  - rewrite Hc. destruct (find_entry c entries) as [[? ?|? sub]|];
      try reflexivity.
    rewrite IH, <- app_assoc. reflexivity.
Qed.

Lemma in_glob_json cwd root entries p :
  Forall (fun c => has_magic c = false) root ->
  resolve root cwd = Some entries ->
  (In p (glob_json cwd root) <->
   exists c, In c entries /\ matches_json (node_name c) = true /\
             p = (root ++ [node_name c])%list).
Proof.
  intros Hm Hr. unfold glob_json. rewrite (glob_dirs_literal _ Hm), Hr.
  cbn [flat_map app]. rewrite app_nil_r, in_map_iff. split.
  - intros (c & <- & Hc). apply filter_In in Hc. destruct Hc as (Hin & Hj).
    exists c. repeat split; assumption.
  - intros (c & Hin & Hj & ->). exists c. split; [reflexivity|].
    apply filter_In. split; assumption.
Qed.

Lemma find_entry_NoDup entries c :
  NoDup (map node_name entries) -> In c entries ->
  find_entry (node_name c) entries = Some c.
Proof.
  induction entries as [|d entries IH]; cbn; [contradiction|].
  intros H. inversion H as [|? ? Hn Hd]; subst.
  intros [-> | Hin].
  - rewrite String.eqb_refl. reflexivity.
  - destruct (String.eqb_spec (node_name d) (node_name c)) as [E|];
      [|apply IH; assumption].
    exfalso. apply Hn. rewrite E. apply in_map. exact Hin.
Qed.

Lemma resolve_app (p q : path) entries :
  resolve (p ++ q)%list entries =
    match resolve p entries with
    | Some sub => resolve q sub
    | None => None
    end.
Proof.
  revert entries. induction p as [|c p IH]; intros entries; cbn;
    [reflexivity|].
  destruct (find_entry c entries) as [[? ?|? sub]|]; try reflexivity.
  apply IH.
Qed.

Lemma lookup_path_resolve p cwd name entries :
  lookup_path p cwd = Some (Dir name entries) ->
  resolve p cwd = Some entries.
Proof.
  revert cwd. induction p as [|c p IH]; intros cwd; cbn; [discriminate|].
  destruct p as [|c' p].
  - intros ->. reflexivity.
  - destruct (find_entry c cwd) as [[? ?|? sub]|]; try discriminate.
    apply IH.
Qed.

(** In a plain tree the walk finds exactly the entries under the
    directory whose name matches [*.json], each under the path that
    leads to it. *)
Lemma in_walk cwd n :
  plain n ->
  forall root p,
    (forall name entries,
        n = Dir name entries ->
        Forall (fun c => has_magic c = false) root /\
        resolve root cwd = Some entries) ->
    (In p (walk cwd root n) <->
     exists rel c,
       inside n rel c /\ matches_json (node_name c) = true /\
       p = (root ++ rel)%list).
Proof.
  induction n as [name content | name entries IH] using node_rect_nested;
    intros Hp root p Hr.
  - cbn. split; [contradiction|]. intros (rel & c & H & _). inversion H.
  - inversion Hp as [|? ? Hnd Hnm Hpl]; subst.
    destruct (Hr _ _ eq_refl) as (Hm & Hres).
    rewrite walk_dir, in_app_iff, (in_glob_json _ _ _ _ Hm Hres), in_flat_map.
    rewrite Forall_forall in IH, Hnm, Hpl.
    assert (Hsub : forall d, In d entries ->
              forall name' entries', d = Dir name' entries' ->
                Forall (fun c => has_magic c = false)
                  (root ++ [node_name d]) /\
                resolve (root ++ [node_name d])%list cwd = Some entries').
    { intros d Hin name' entries' ->. split.
      - apply Forall_app. split; [exact Hm|]. constructor; [|constructor].
        exact (Hnm _ Hin).
      - rewrite resolve_app, Hres. cbn [resolve].
        rewrite (find_entry_NoDup entries (Dir name' entries') Hnd Hin).
        reflexivity. }
    split.
    + intros [(c & Hin & Hj & ->) | (d & Hin & Hq)].
      * exists [node_name c], c. repeat split; [|exact Hj].
        apply inside_entry. exact Hin.
      * apply (IH d Hin (Hpl d Hin) _ _ (Hsub d Hin)) in Hq.
        destruct Hq as (rel & c & Hi & Hj & ->).
        exists (node_name d :: rel), c. repeat split; [|exact Hj|].
        -- apply inside_deeper; assumption.
        -- rewrite <- app_assoc. reflexivity.
    + intros (rel & c & Hi & Hj & ->).
      inversion Hi as [? ? ? Hin | ? ? d rel' ? Hin Hi']; subst.
      * left. exists c. repeat split; assumption.
      * right. exists d. split; [exact Hin|].
        apply (IH d Hin (Hpl d Hin) _ _ (Hsub d Hin)).
        exists rel', c. repeat split; [exact Hi' | exact Hj |].
        rewrite <- app_assoc. reflexivity.
Qed.

(** X1. In a tree as a file system holds it, where neither [filepath]
    nor a directory below it has [*], [?] or [[] in its name, the files
    [process_data] hands to [func] are exactly the entries found under
    [filepath], at any depth, whose name matches [*.json]; each is
    handed over under the path that leads to it. *)
Theorem all_files_spec w filepath name entries p :
  Forall (fun c => has_magic c = false) filepath ->
  lookup_path filepath (fs w) = Some (Dir name entries) ->
  plain (Dir name entries) ->
  (In p (all_files w filepath) <->
   exists rel c,
     inside (Dir name entries) rel c /\
     matches_json (node_name c) = true /\
     p = (filepath ++ rel)%list).
Proof.
  intros Hm L Hp. unfold all_files. rewrite L.
  apply in_walk; [exact Hp|].
  intros name' entries' [= _ <-]. split; [exact Hm|].
  exact (lookup_path_resolve _ _ _ _ L).
Qed.

Lemma all_files_spec_witness :
  let w := connect example_tree empty_db in
  let filepath := ["data"; "song_data"] in
  let entries :=
    [Dir "A" [File "a.json" (Some [example_song]); File "notes.txt" None]] in
  let p := ["data"; "song_data"; "A"; "a.json"] in
  In p (all_files w filepath) <->
  exists rel c,
    inside (Dir "song_data" entries) rel c /\
    matches_json (node_name c) = true /\
    p = (filepath ++ rel)%list.
Proof.
  intros w filepath entries p.
  apply (all_files_spec w filepath "song_data" entries p).
  - repeat constructor.
  - reflexivity.
  - apply plain_dir.
    + cbn. constructor; [intros [] | constructor].
    + repeat constructor.
    + constructor; [|constructor]. apply plain_dir.
      * cbn. constructor; [intros [H | []]; discriminate H|].
        constructor; [intros [] | constructor].
      * repeat constructor.
      * repeat constructor.
Defined.

(** ** What each kind of file executes *)

Lemma emits_pure {A} P (m : M A) : (forall w, snd (m w) = w) -> emits P m.
Proof.
  intros H w r w' E. pose proof (H w) as Hw. rewrite E in Hw. cbn in Hw.
  subst w'. exists []. rewrite app_nil_r. split; [reflexivity | constructor].
Qed.

Lemma emits_lift {A} P (r : result A) : emits P (lift r).
Proof. apply emits_pure. reflexivity. Qed.

Lemma emits_ret {A} P (a : A) : emits P (ret a).
Proof. apply emits_pure. reflexivity. Qed.

Lemma emits_read_json P filepath : emits P (read_json filepath).
Proof.
  apply emits_pure. intros w. unfold read_json.
  destruct (lookup_path filepath (fs w)) as [[? [?|] | ? ?]|]; reflexivity.
Qed.

Lemma emits_fetchone P : emits P fetchone.
Proof.
  intros w r w'. unfold fetchone.
  destruct (fetched w) as [[|row rest]|]; intros [= <- <-]; cbn;
    exists []; rewrite app_nil_r; split; try reflexivity; constructor.
Qed.

Lemma emits_execute (P : event -> Prop) q params :
  P (Execute q params) -> emits P (execute q params).
Proof.
  intros HP w r w'. unfold execute.
  destruct (run_query q params (txn w)) as [[d res]|e]; intros [= <- <-].
  - exists [Execute q params]. split; [reflexivity | repeat constructor].
    exact HP.
  - exists []. rewrite app_nil_r. split; [reflexivity | constructor].
Qed.

Lemma emits_bind {A B} P (m : M A) (k : A -> M B) :
  emits P m -> (forall a, emits P (k a)) -> emits P (bind m k).
Proof.
  intros Hm Hk w r w' E.
  destruct (bind_inv _ _ _ _ _ E) as [(e & -> & E1) | (a & w1 & E1 & E2)].
  - exact (Hm _ _ _ E1).
  - destruct (Hm _ _ _ E1) as (ev1 & Ev1 & F1).
    destruct (Hk a _ _ _ E2) as (ev2 & Ev2 & F2).
    exists (ev1 ++ ev2)%list. split.
    + rewrite Ev2, Ev1, app_assoc. reflexivity.
    + apply Forall_app. split; assumption.
Qed.

Lemma emits_for_each {A} P (l : list A) (body : A -> M unit) :
  (forall a, emits P (body a)) -> emits P (for_each l body).
Proof.
  intros H. induction l as [|a l IH]; cbn.
  - apply emits_ret.
  - apply emits_bind; [apply H | intros _; exact IH].
Qed.

Ltac emits_tac :=
  repeat first
    [ apply emits_lift | apply emits_ret | apply emits_read_json
    | apply emits_fetchone
    | apply emits_execute; exact I
    | match goal with
      | |- emits _ (let '(_, _) := ?p in _) => destruct p
      end
    | apply emits_for_each; intros ?
    | apply emits_bind; [|intros ?] ].

Lemma emits_process_song_file filepath :
  emits song_stmt (process_song_file filepath).
Proof. unfold process_song_file. emits_tac. Qed.

Lemma emits_process_log_file utcoffset filepath :
  emits log_stmt (process_log_file utcoffset filepath).
Proof. unfold process_log_file, insert_songplay. emits_tac. Qed.

Lemma emits_weaken {A} (P Q : event -> Prop) (m : M A) :
  (forall e, P e -> Q e) -> emits P m -> emits Q m.
Proof.
  intros H Hm w r w' E. destruct (Hm _ _ _ E) as (ev & Ev & F).
  exists ev. split; [exact Ev|]. revert F. apply Forall_impl. exact H.
Qed.

Lemma emits_commit (P : event -> Prop) : P Commit -> emits P commit.
Proof.
  intros HP w r w' [= <- <-]. exists [Commit]. split; [reflexivity|].
  repeat constructor. exact HP.
Qed.

Lemma emits_print (P : event -> Prop) l : P (Print l) -> emits P (print l).
Proof.
  intros HP w r w' [= <- <-]. exists [Print l]. split; [reflexivity|].
  repeat constructor. exact HP.
Qed.

Lemma emits_close (P : event -> Prop) : P Close -> emits P close.
Proof.
  intros HP w r w' [= <- <-]. exists [Close]. split; [reflexivity|].
  repeat constructor. exact HP.
Qed.

Lemma emits_process_files (P : event -> Prop) func n :
  P Commit -> (forall l, P (Print l)) ->
  (forall f, emits P (func f)) ->
  forall files i, emits P (process_files func n i files).
Proof.
  intros Hc Hp Hf files. induction files as [|f rest IH]; intros i; cbn.
  - apply emits_ret.
  - apply emits_bind; [apply Hf | intros _].
    apply emits_bind; [apply emits_commit, Hc | intros _].
    apply emits_bind; [apply emits_print, Hp | intros _].
    apply IH.
Qed.

Lemma emits_process_data (P : event -> Prop) filepath func :
  P Commit -> (forall l, P (Print l)) ->
  (forall f, emits P (func f)) ->
  emits P (process_data filepath func).
Proof.
  intros Hc Hp Hf w r w'. unfold process_data.
  apply emits_bind; [apply emits_print, Hp | intros _].
  apply emits_process_files; assumption.
Qed.

(** X2. In a run of [main], however it ends, every statement of a
    metadata file comes before every statement of a log file: the trace
    splits into a part without log statements followed by a part without
    song or artist inserts. *)
Theorem main_song_phase_first utcoffset w :
  exists ev1 ev2,
    events (snd (main utcoffset w)) = (events w ++ ev1 ++ ev2)%list /\
    Forall (fun e => ~ log_stmt e) ev1 /\
    Forall (fun e => ~ song_stmt e) ev2.
Proof.
  destruct (main utcoffset w) as [r w'] eqn:E. cbn [snd].
  unfold main in E.
  assert (H1 : emits (fun e => ~ log_stmt e)
                 (process_data ["data"; "song_data"] process_song_file)).
  { apply emits_process_data; try (intros; exact (fun x => x)).
    intros f. apply (emits_weaken song_stmt); [|apply emits_process_song_file].
    intros [[] p| | |]; cbn; tauto. }
  assert (H2 : emits (fun e => ~ song_stmt e)
                 (process_data ["data"; "log_data"] (process_log_file utcoffset)
                  ;;; close)).
  { apply emits_bind; [|intros _; apply emits_close; exact (fun x => x)].
    apply emits_process_data; try (intros; exact (fun x => x)).
    intros f.
    apply (emits_weaken log_stmt); [|apply emits_process_log_file].
    intros [[] p| | |]; cbn; tauto. }
  destruct (bind_inv _ _ _ _ _ E) as [(e & -> & E1) | ([] & w1 & E1 & E2)].
  - destruct (H1 _ _ _ E1) as (ev1 & Ev1 & F1).
    exists ev1, []. rewrite app_nil_r. repeat split; [exact Ev1 | exact F1|].
    constructor.
  - destruct (H1 _ _ _ E1) as (ev1 & Ev1 & F1).
    destruct (H2 _ _ _ E2) as (ev2 & Ev2 & F2).
    exists ev1, ev2. rewrite Ev2, Ev1, app_assoc.
    repeat split; assumption.
Qed.

(** ** What a file leaves alone *)

Lemma exec_db_song_stmt q params d :
  song_stmt (Execute q params) ->
  time (exec_db q params d) = time d /\
  users (exec_db q params d) = users d /\
  songplays (exec_db q params d) = songplays d.
Proof.
  unfold exec_db. destruct q; cbn; try contradiction; intros _;
    repeat (destruct params as [|? params]; try (repeat split; fail)).
Qed.

Lemma exec_db_log_stmt q params d :
  log_stmt (Execute q params) ->
  songs (exec_db q params d) = songs d /\
  artists (exec_db q params d) = artists d.
Proof.
  unfold exec_db. destruct q; cbn; try contradiction; intros _;
    repeat (destruct params as [|? params]; try (repeat split; fail)).
Qed.

Lemma replay_song_stmts ev :
  Forall song_stmt ev ->
  forall s,
    time (snd (replay ev s)) = time (snd s) /\
    users (snd (replay ev s)) = users (snd s) /\
    songplays (snd (replay ev s)) = songplays (snd s).
Proof.
  induction 1 as [|e ev He _ IH]; intros s; [repeat split|].
  rewrite replay_cons. destruct (IH (replay_event s e)) as (T & U & P).
  rewrite T, U, P. destruct e as [q params| | |]; try contradiction.
  cbn [replay_event snd]. apply exec_db_song_stmt. exact He.
Qed.

Lemma replay_log_stmts ev :
  Forall log_stmt ev ->
  forall s,
    songs (snd (replay ev s)) = songs (snd s) /\
    artists (snd (replay ev s)) = artists (snd s).
Proof.
  induction 1 as [|e ev He _ IH]; intros s; [repeat split|].
  rewrite replay_cons. destruct (IH (replay_event s e)) as (S & A).
  rewrite S, A. destruct e as [q params| | |]; try contradiction.
  cbn [replay_event snd]. apply exec_db_log_stmt. exact He.
Qed.

Lemma log_file_frame utcoffset filepath w r w' :
  process_log_file utcoffset filepath w = (r, w') ->
  fs w' = fs w /\ persisted w' = persisted w /\
  songs (txn w') = songs (txn w) /\ artists (txn w') = artists (txn w).
Proof.
  intros E.
  destruct (cursor_only_process_log_file _ _ _ _ _ E)
    as (F & P & ev & Ev & _ & T).
  destruct (emits_process_log_file _ _ _ _ _ E) as (ev' & Ev' & L).
  rewrite Ev in Ev'. apply app_inv_head in Ev'. subst ev'.
  destruct (replay_log_stmts ev L (persisted w, txn w)) as (S & A).
  rewrite <- T in S, A. repeat split; assumption.
Qed.

Lemma song_file_frame filepath w r w' :
  process_song_file filepath w = (r, w') ->
  fs w' = fs w /\ persisted w' = persisted w /\
  time (txn w') = time (txn w) /\ users (txn w') = users (txn w) /\
  songplays (txn w') = songplays (txn w).
Proof.
  intros E.
  destruct (cursor_only_process_song_file _ _ _ _ E)
    as (F & P & ev & Ev & _ & T).
  destruct (emits_process_song_file _ _ _ _ E) as (ev' & Ev' & L).
  rewrite Ev in Ev'. apply app_inv_head in Ev'. subst ev'.
  destruct (replay_song_stmts ev L (persisted w, txn w)) as (Ti & U & SP).
  rewrite <- T in Ti, U, SP. repeat split; assumption.
Qed.

(** X3. However it ends, processing a log file leaves the input tree,
    the committed store and the song and artist tables of the open
    transaction as they were; processing a metadata file leaves the
    tree, the committed store and the time, user and fact tables as they
    were. *)
Theorem file_processors_frame utcoffset filepath w :
  let wl := snd (process_log_file utcoffset filepath w) in
  let ws := snd (process_song_file filepath w) in
  (fs wl = fs w /\ persisted wl = persisted w /\
   songs (txn wl) = songs (txn w) /\ artists (txn wl) = artists (txn w)) /\
  (fs ws = fs w /\ persisted ws = persisted w /\
   time (txn ws) = time (txn w) /\ users (txn ws) = users (txn w) /\
   songplays (txn ws) = songplays (txn w)).
Proof.
  intros wl ws. split.
  - apply (log_file_frame utcoffset filepath w
             (fst (process_log_file utcoffset filepath w))).
    apply surjective_pairing.
  - apply (song_file_frame filepath w (fst (process_song_file filepath w))).
    apply surjective_pairing.
Qed.

(** ** The end of a run *)

Lemma process_data_committed filepath func w w' :
  (forall f, cursor_only (func f)) ->
  txn w = persisted w ->
  process_data filepath func w = (Ok tt, w') ->
  txn w' = persisted w' /\ fs w' = fs w.
Proof.
  intros Hf Hw E. unfold process_data in E.
  apply bind_ok_inv in E. destruct E as ([] & w1 & E1 & E).
  unfold print in E1. injection E1 as <-.
  destruct (process_files_ok func _ Hf _ _ _ _ E) as (F & P & N & _).
  cbn [fs] in F. split; [|exact F].
  destruct (all_files w filepath) as [|f rest].
  - rewrite (N eq_refl). cbn. exact Hw.
  - symmetry. apply P. discriminate.
Qed.

(** X4. A run of [main] that completes on a connection without pending
    work has committed everything: before [close] the committed store
    is the store the transaction sees, so [close], the last event,
    discards nothing. *)
Theorem main_completed_commits_all utcoffset w w' :
  txn w = persisted w ->
  main utcoffset w = (Ok tt, w') ->
  exists wb,
    (process_data ["data"; "song_data"] process_song_file ;;;
     process_data ["data"; "log_data"] (process_log_file utcoffset)) w
    = (Ok tt, wb) /\
    persisted wb = txn wb /\
    persisted w' = persisted wb /\
    txn w' = persisted w' /\
    events w' = (events wb ++ [Close])%list.
Proof.
  intros Hw E. unfold main in E.
  apply bind_ok_inv in E. destruct E as ([] & w1 & E1 & E).
  apply bind_ok_inv in E. destruct E as ([] & w2 & E2 & E).
  unfold close in E. injection E as <-.
  destruct (process_data_committed _ _ _ _
              cursor_only_process_song_file Hw E1) as (C1 & _).
  destruct (process_data_committed _ _ _ _
              (cursor_only_process_log_file utcoffset) C1 E2) as (C2 & _).
  exists w2. cbn. repeat split; try congruence.
  unfold bind. rewrite E1. exact E2.
Qed.

Lemma main_completed_commits_all_witness :
  let w := connect example_tree empty_db in
  let w' := snd (main utc w) in
  exists wb,
    (process_data ["data"; "song_data"] process_song_file ;;;
     process_data ["data"; "log_data"] (process_log_file utc)) w
    = (Ok tt, wb) /\
    persisted wb = txn wb /\
    persisted w' = persisted wb /\
    txn w' = persisted w' /\
    events w' = (events wb ++ [Close])%list.
Proof.
  intros w w'. apply (main_completed_commits_all utc w w').
  - reflexivity.
  - vm_compute. reflexivity.
Defined.

(** X5. Where neither [data/song_data] nor [data/log_data] holds a file
    matching [*.json] (the directories may not exist at all), [main]
    completes without raising: it prints two counts of zero files,
    executes and commits nothing, and closes. *)
Theorem main_without_input utcoffset w :
  all_files w ["data"; "song_data"] = [] ->
  all_files w ["data"; "log_data"] = [] ->
  fst (main utcoffset w) = Ok tt /\
  events (snd (main utcoffset w)) =
    (events w ++
     [Print (FilesFound 0 ["data"; "song_data"]);
      Print (FilesFound 0 ["data"; "log_data"]); Close])%list /\
  persisted (snd (main utcoffset w)) = persisted w.
Proof.
  intros H1 H2. unfold main, process_data, bind.
  rewrite H1. cbn [List.length process_files print ret].
  unfold all_files in *. cbn [fs]. rewrite H2.
  cbn [List.length process_files print ret close fst snd events persisted].
  rewrite <- !app_assoc. repeat split.
Qed.

Lemma main_without_input_witness :
  let w := connect [Dir "data" [Dir "song_data" [File "readme.md" None]]]
             example_db in
  fst (main utc w) = Ok tt /\
  events (snd (main utc w)) =
    (events w ++
     [Print (FilesFound 0 ["data"; "song_data"]);
      Print (FilesFound 0 ["data"; "log_data"]); Close])%list /\
  persisted (snd (main utc w)) = persisted w.
Proof.
  intros w. apply (main_without_input utc w); reflexivity.
Defined.

(** ** Fact rows of a whole run *)

Lemma log_file_fact_count utcoffset filepath w w' :
  process_log_file utcoffset filepath w = (Ok tt, w') ->
  List.length (songplays (txn w')) =
    (List.length (songplays (txn w)) + NextSong_count (fs w) filepath)%nat /\
  fs w' = fs w.
Proof.
  intros E.
  destruct (process_log_file_ok _ _ _ _ E)
    as (name & records & t & Lk & Ft & F & _ & _ & _ & _ & _ & SP & _).
  pose proof (process_log_file_page _ _ _ _ _ _ Lk E) as Hp.
  split; [|exact F].
  unfold NextSong_count. rewrite Lk.
  rewrite <- (NextSong_rows_length records Hp).
  rewrite SP, length_app. unfold songplay_rows.
  rewrite length_map, length_combine_map_snd;
    [reflexivity | eapply Forall2_length; exact Ft].
Qed.

Lemma log_files_fact_count utcoffset n files :
  forall i w w',
    process_files (process_log_file utcoffset) n i files w = (Ok tt, w') ->
    List.length (songplays (txn w')) =
      (List.length (songplays (txn w))
       + list_sum (map (NextSong_count (fs w)) files))%nat /\
    fs w' = fs w.
Proof.
  induction files as [|f rest IH]; intros i w w' E.
  - cbn in E. injection E as <-. cbn. split; [lia | reflexivity].
  - rewrite process_files_cons in E.
    apply bind_ok_inv in E. destruct E as ([] & w1 & E1 & E).
    apply bind_ok_inv in E. destruct E as ([] & w2 & E2 & E).
    apply bind_ok_inv in E. destruct E as ([] & w3 & E3 & E).
    destruct (log_file_fact_count _ _ _ _ E1) as (C1 & F1).
    unfold commit in E2. injection E2 as <-.
    unfold print in E3. injection E3 as <-.
    destruct (IH _ _ _ E) as (C & F). cbn [txn fs] in C, F.
    rewrite F1 in C. split; [|congruence].
    rewrite C, C1. cbn [map].
    change (list_sum (NextSong_count (fs w) f
                      :: map (NextSong_count (fs w)) rest))
      with (NextSong_count (fs w) f
            + list_sum (map (NextSong_count (fs w)) rest))%nat.
    lia.
Qed.

Lemma song_files_no_fact n files :
  forall i w w',
    process_files process_song_file n i files w = (Ok tt, w') ->
    songplays (txn w') = songplays (txn w) /\ fs w' = fs w.
Proof.
  induction files as [|f rest IH]; intros i w w' E.
  - cbn in E. injection E as <-. split; reflexivity.
  - rewrite process_files_cons in E.
    apply bind_ok_inv in E. destruct E as ([] & w1 & E1 & E).
    apply bind_ok_inv in E. destruct E as ([] & w2 & E2 & E).
    apply bind_ok_inv in E. destruct E as ([] & w3 & E3 & E).
    destruct (song_file_frame _ _ _ _ E1) as (F1 & _ & _ & _ & S1).
    unfold commit in E2. injection E2 as <-.
    unfold print in E3. injection E3 as <-.
    destruct (IH _ _ _ E) as (C & F). cbn [txn fs] in C, F.
    split; congruence.
Qed.

Lemma main_fact_count utcoffset w w' :
  txn w = persisted w ->
  main utcoffset w = (Ok tt, w') ->
  List.length (songplays (persisted w')) =
    (List.length (songplays (persisted w))
     + list_sum (map (NextSong_count (fs w))
                   (all_files w ["data"; "log_data"])))%nat.
Proof.
  intros Hw E. unfold main in E.
  apply bind_ok_inv in E. destruct E as ([] & w1 & E1 & E).
  apply bind_ok_inv in E. destruct E as ([] & w2 & E2 & E).
  unfold close in E. injection E as <-. cbn [persisted].
  destruct (process_data_committed _ _ _ _
              cursor_only_process_song_file Hw E1) as (C1 & F1).
  destruct (process_data_committed _ _ _ _
              (cursor_only_process_log_file utcoffset) C1 E2) as (C2 & F2).
  unfold process_data in E1, E2.
  apply bind_ok_inv in E1. destruct E1 as ([] & wa & Ea & E1).
  unfold print in Ea. injection Ea as <-.
  apply song_files_no_fact in E1. destruct E1 as (S1 & _). cbn [txn] in S1.
  apply bind_ok_inv in E2. destruct E2 as ([] & wb & Eb & E2).
  unfold print in Eb. injection Eb as <-.
  apply log_files_fact_count in E2. destruct E2 as (S2 & _).
  cbn [txn fs] in S2.
  rewrite <- C2, S2, S1, Hw. unfold all_files. rewrite F1. reflexivity.
Qed.

(** X6. A completed run of [main] on a fresh connection adds to the
    fact table exactly as many rows as the log files found under
    [data/log_data] have lines whose [page] is [NextSong]. *)
Theorem main_adds_one_fact_per_NextSong utcoffset tree d :
  let run := main utcoffset (connect tree d) in
  fst run = Ok tt ->
  List.length (songplays (persisted (snd run))) =
    (List.length (songplays d)
     + list_sum (map (NextSong_count tree)
                   (all_files (connect tree d) ["data"; "log_data"])))%nat.
Proof.
  intros run H.
  apply (main_fact_count utcoffset (connect tree d) (snd run));
    [reflexivity|].
  rewrite <- H. apply surjective_pairing.
Qed.

Lemma main_adds_one_fact_per_NextSong_witness :
  let run := main utc (connect example_tree empty_db) in
  List.length (songplays (persisted (snd run))) =
    (List.length (songplays empty_db)
     + list_sum (map (NextSong_count example_tree)
                   (all_files (connect example_tree empty_db)
                      ["data"; "log_data"])))%nat.
Proof.
  intros run.
  apply (main_adds_one_fact_per_NextSong utc example_tree empty_db).
  vm_compute. reflexivity.
Defined.

(** X7. The fact table is not protected against a second run: when
    [main] completes on an input tree and is run again on the same tree
    against the store it left, the second run completes too and adds
    every fact row once more. *)
Theorem rerun_duplicates_facts utcoffset tree d0 :
  let run1 := main utcoffset (connect tree d0) in
  let d1 := persisted (snd run1) in
  let run2 := main utcoffset (connect tree d1) in
  let d2 := persisted (snd run2) in
  fst run1 = Ok tt ->
  fst run2 = Ok tt /\
  (List.length (songplays d2) - List.length (songplays d1) =
   List.length (songplays d1) - List.length (songplays d0))%nat /\
  (List.length (songplays d1) <= List.length (songplays d2))%nat.
Proof.
  intros run1 d1 run2 d2 H1.
  destruct (main utcoffset (connect tree d0)) as [r1 w1] eqn:E1.
  destruct (main utcoffset (connect tree d1)) as [r2 w2] eqn:E2.
  subst run1 run2. cbn [fst snd] in *. subst r1.
  destruct (sim_main utcoffset (connect tree d0) (connect tree d1)
              _ _ _ _ eq_refl E1 E2) as (_ & Rr & _).
  destruct r2 as [[]|]; [|contradiction].
  pose proof (main_fact_count utcoffset (connect tree d0) w1 eq_refl E1) as C1.
  pose proof (main_fact_count utcoffset (connect tree d1) w2 eq_refl E2) as C2.
  unfold all_files, connect in C1, C2. cbn [fs persisted] in C1, C2.
  fold d1 in C1. fold d2 in C2.
  split; [reflexivity|]. lia.
Qed.

Lemma rerun_duplicates_facts_witness :
  let run1 := main utc (connect example_tree empty_db) in
  let d1 := persisted (snd run1) in
  let run2 := main utc (connect example_tree d1) in
  let d2 := persisted (snd run2) in
  fst run2 = Ok tt /\
  (List.length (songplays d2) - List.length (songplays d1) =
   List.length (songplays d1) - List.length (songplays empty_db))%nat /\
  (List.length (songplays d1) <= List.length (songplays d2))%nat.
Proof.
  intros run1 d1 run2 d2.
  apply (rerun_duplicates_facts utc example_tree empty_db).
  vm_compute. reflexivity.
Defined.

(** ** Timestamps are converted before anything is executed *)

Lemma rmap_raise {A B} (f : A -> result B) l a e0 :
  In a l -> f a = Raise e0 -> exists e, rmap f l = Raise e.
Proof.
  induction l as [|b l IH]; [contradiction|].
  intros [-> | Hin] Hf; cbn.
  - rewrite Hf. eexists. reflexivity.
  - destruct (f b); cbn; [|eexists; reflexivity].
    destruct (IH Hin Hf) as (e & ->). eexists. reflexivity.
Qed.

(** X8. One filtered row whose timestamp cannot be converted makes
    [process_log_file] raise before any statement is executed: the
    session is left exactly as it was, whatever the other rows hold. *)
Theorem bad_timestamp_aborts_before_any_statement
  utcoffset filepath w name records i r e0 :
  lookup_path filepath (fs w) = Some (File name (Some records)) ->
  In (i, r) (NextSong_rows records) ->
  fromtimestamp utcoffset (cell r "ts") = Raise e0 ->
  exists e, process_log_file utcoffset filepath w = (Raise e, w).
Proof.
  intros Lk Hin Hf. unfold process_log_file, bind, read_json. rewrite Lk.
  unfold lift, filter_NextSong, rbind.
  destruct (column (frame_of_records records) "page");
    [|eexists; reflexivity].
  fold (NextSong_rows records).
  unfold column. cbn [columns rows].
  destruct (mem_string "ts" (columns (frame_of_records records)));
    [|eexists; reflexivity].
  destruct (rmap_raise
              (fun '(j, a) =>
                 rbind (fromtimestamp utcoffset a) (fun b => Ok (j, b)))
              (map (fun '(j, r') => (j, cell r' "ts")) (NextSong_rows records))
              (i, cell r "ts") e0) as (e & He).
  - apply in_map_iff. exists (i, r). split; [reflexivity | exact Hin].
  - rewrite Hf. reflexivity.
  - unfold series_apply. rewrite He. eexists. reflexivity.
Qed.

Lemma bad_timestamp_aborts_before_any_statement_witness :
  let records :=
    [example_event "NextSong" "T" 1541105830796;
     [("page", VStr "NextSong"); ("ts", VStr "yesterday")]] in
  let w := connect [File "events.json" (Some records)] example_db in
  exists e, process_log_file utc ["events.json"] w = (Raise e, w).
Proof.
  intros records w.
  apply (bad_timestamp_aborts_before_any_statement utc ["events.json"] w
           "events.json" records 1%nat
           (map (fun c => (c, cell [("page", VStr "NextSong");
                                    ("ts", VStr "yesterday")] c))
              (frame_columns records)) TypeError).
  - reflexivity.
  - vm_compute. right. left. reflexivity.
  - vm_compute. reflexivity.
Defined.

(** ** Key equality is an equivalence *)

Ltac eqb_to_prop :=
  repeat match goal with
         | H : (_ =? _) = true |- _ => apply Z.eqb_eq in H
         | H : Qeq_bool _ _ = true |- _ => apply Qeq_bool_iff in H
         | H : String.eqb _ _ = true |- _ => apply String.eqb_eq in H
         | H : datetime_eqb _ _ = true |- _ => apply datetime_eqb_eq in H
         | H : inject_Z _ == inject_Z _ |- _ => apply inject_Z_injective in H
         end.

Lemma value_eqb_sym a b : value_eqb a b = true -> value_eqb b a = true.
Proof.
  destruct a, b; cbn; try discriminate; intros H; eqb_to_prop; subst;
    try reflexivity;
    first [ apply Z.eqb_refl | apply String.eqb_refl
          | apply Qeq_bool_iff; symmetry; exact H
          | apply (value_eqb_refl (VTime _)) ].
Qed.

Lemma value_eqb_trans a b c :
  value_eqb a b = true -> value_eqb b c = true -> value_eqb a c = true.
Proof.
  destruct a, b, c; cbn; try discriminate; intros H1 H2; eqb_to_prop; subst;
    try reflexivity;
    first [ apply Z.eqb_refl | apply String.eqb_refl
          | apply (value_eqb_refl (VTime _))
          | apply Qeq_bool_iff; first [ exact H1 | exact H2
                                      | rewrite H1; exact H2
                                      | rewrite <- H2; exact H1 ]
          | apply Z.eqb_eq, inject_Z_injective; rewrite H1; exact H2 ].
Qed.

(** ** The subscription level of a user after a log file *)

Lemma upsert_user_sets_level r table :
  user_has_level (user_id r) (level r) (upsert_user r table).
Proof.
  unfold user_has_level, upsert_user.
  destruct (existsb (fun r' => value_eqb (user_id r') (user_id r)) table) eqn:E.
  - split.
    + apply existsb_exists in E. destruct E as (u & Hin & Hk).
      eexists. split; [apply in_map; exact Hin|].
      rewrite Hk. cbn. exact Hk.
    + intros u Hin Hk. apply in_map_iff in Hin. destruct Hin as (u0 & <- & _).
      destruct (value_eqb (user_id u0) (user_id r)) eqn:E0; cbn in *;
        [reflexivity | congruence].
  - split.
    + exists r. split; [apply in_or_app; right; left; reflexivity|].
      apply value_eqb_refl.
    + intros u Hin Hk. apply in_app_or in Hin. destruct Hin as [Hin | [<- | []]];
        [|reflexivity].
      assert (existsb (fun r' => value_eqb (user_id r') (user_id r)) table = true)
        by (apply existsb_exists; eauto).
      congruence.
Qed.

Lemma upsert_user_other k l r table :
  value_eqb (user_id r) k = false ->
  user_has_level k l table ->
  user_has_level k l (upsert_user r table).
Proof.
  intros Hne ((u & Hin & Hk) & Hall). unfold user_has_level, upsert_user.
  assert (Hother : forall u', value_eqb (user_id u') k = true ->
                              value_eqb (user_id u') (user_id r) = false).
  { intros u' Hu. destruct (value_eqb (user_id u') (user_id r)) eqn:E;
      [|reflexivity].
    rewrite (value_eqb_trans _ _ _ (value_eqb_sym _ _ E) Hu) in Hne.
    discriminate. }
  destruct (existsb (fun r' => value_eqb (user_id r') (user_id r)) table).
  - split.
    + exists u. split; [|exact Hk]. apply in_map_iff. exists u.
      rewrite (Hother u Hk). split; [reflexivity | exact Hin].
    + intros u' Hin' Hk'. apply in_map_iff in Hin'.
      destruct Hin' as (u0 & <- & Hin0).
      destruct (value_eqb (user_id u0) (user_id r)) eqn:E0; cbn in *.
      * rewrite (Hother u0 Hk') in E0. discriminate.
      * apply Hall; assumption.
  - split.
    + exists u. split; [apply in_or_app; left; exact Hin | exact Hk].
    + intros u' Hin' Hk'. apply in_app_or in Hin'.
      destruct Hin' as [Hin' | [<- | []]]; [apply Hall; assumption|].
      congruence.
Qed.

(** X9. Within a log file the last filtered row of a user decides the
    subscription level: after the file has been processed the user table
    of the transaction holds that user, with the level of that row. *)
Theorem last_row_sets_user_level
  utcoffset filepath w w' name records before i r after :
  lookup_path filepath (fs w) = Some (File name (Some records)) ->
  process_log_file utcoffset filepath w = (Ok tt, w') ->
  NextSong_rows records = (before ++ (i, r) :: after)%list ->
  (forall j r', In (j, r') after ->
                value_eqb (cell r' "userId") (cell r "userId") = false) ->
  user_has_level (cell r "userId") (cell r "level") (users (txn w')).
Proof.
  intros Lk E Hrows Hafter.
  destruct (process_log_file_ok _ _ _ _ E)
    as (name' & records' & t & Lk' & _ & _ & _ & _ & _ & _ & U & _).
  rewrite Lk in Lk'. injection Lk' as <- <-.
  rewrite U, Hrows, fold_left_app. cbn [fold_left].
  generalize (upsert_user_sets_level (user_row_of (snd (i, r)))
                (fold_left (fun tbl a => upsert_user (user_row_of (snd a)) tbl)
                   before (users (txn w)))).
  cbn [snd user_row_of user_id level].
  generalize (upsert_user (user_row_of r)
                (fold_left (fun tbl a => upsert_user (user_row_of (snd a)) tbl)
                   before (users (txn w)))).
  clear -Hafter. induction after as [|[j r'] after IH]; intros table H;
    [exact H|].
  cbn [fold_left]. apply IH.
  - intros j' r'' Hin. apply (Hafter j'). right. exact Hin.
  - apply upsert_user_other; [|exact H].
    cbn [snd user_row_of user_id]. apply (Hafter j). left. reflexivity.
Qed.

Lemma last_row_sets_user_level_witness :
  let other : json_record :=
    [("page", VStr "NextSong"); ("ts", VInt 1541105900000);
     ("song", VStr "U"); ("artist", VStr "X"); ("length", VFloat (401 # 2));
     ("userId", VStr "u8"); ("firstName", VStr "C"); ("lastName", VStr "D");
     ("gender", VStr "M"); ("level", VStr "paid"); ("sessionId", VInt 101);
     ("location", VStr "NY"); ("userAgent", VStr "UA")] in
  let records := [example_event "NextSong" "T" 1541105830796; other] in
  let w := connect [File "events.json" (Some records)] example_db in
  let w' := snd (process_log_file utc ["events.json"] w) in
  user_has_level (VStr "u7") (VStr "free") (users (txn w')).
Proof.
  intros other records w w'.
  apply (last_row_sets_user_level utc ["events.json"] w w' "events.json"
           records []
           0%nat
           (map (fun c => (c, cell (nth 0 records []) c))
              (frame_columns records))
           [(1%nat, map (fun c => (c, cell other c)) (frame_columns records))]).
  - reflexivity.
  - vm_compute. reflexivity.
  - vm_compute. reflexivity.
  - intros j r' [[= <- <-] | []]. vm_compute. reflexivity.
Defined.

(** ** Natural keys stay unique *)

Lemma unique_keys_snoc ks k :
  unique_keys ks -> has_key ks k = false -> unique_keys (ks ++ [k]).
Proof.
  induction ks as [|k0 ks IH]; cbn.
  - intros _ _. split; [reflexivity | exact I].
  - intros (H0 & Hu) Hk. apply orb_false_iff in Hk. destruct Hk as (Hk0 & Hk).
    split; [|apply IH; assumption].
    unfold has_key in *. rewrite existsb_app, H0. cbn.
    destruct (value_eqb k k0) eqn:E; [|reflexivity].
    rewrite (value_eqb_sym _ _ E) in Hk0. discriminate.
Qed.

Lemma insert_if_absent_unique {R} (key : R -> value) r table :
  unique_keys (map key table) ->
  unique_keys (map key (insert_if_absent key r table)).
Proof.
  intros H. unfold insert_if_absent.
  destruct (existsb (fun r' => value_eqb (key r') (key r)) table) eqn:E;
    [exact H|].
  rewrite map_app. apply unique_keys_snoc; [exact H|].
  unfold has_key. rewrite existsb_map. exact E.
Qed.

Lemma upsert_user_unique r table :
  unique_keys (map user_id table) ->
  unique_keys (map user_id (upsert_user r table)).
Proof.
  intros H. unfold upsert_user.
  destruct (existsb (fun r' => value_eqb (user_id r') (user_id r)) table) eqn:E.
  - rewrite map_map.
    erewrite map_ext; [exact H|]. intros r'. cbn.
    destruct (value_eqb (user_id r') (user_id r)); reflexivity.
  - rewrite map_app. apply unique_keys_snoc; [exact H|].
    unfold has_key. rewrite existsb_map. exact E.
Qed.

Lemma exec_db_unique q params d : unique_db d -> unique_db (exec_db q params d).
Proof.
  intros (H1 & H2 & H3 & H4). unfold exec_db.
  destruct q;
    repeat (destruct params as [|? params];
            try (repeat split; assumption));
    cbn; unfold unique_db; cbn; repeat split; try assumption;
    first [apply insert_if_absent_unique | apply upsert_user_unique];
    assumption.
Qed.

Lemma replay_unique ev :
  forall s, unique_db (fst s) -> unique_db (snd s) ->
            unique_db (fst (replay ev s)) /\ unique_db (snd (replay ev s)).
Proof.
  induction ev as [|e ev IH]; intros s Hp Ht; [split; assumption|].
  rewrite replay_cons. apply IH;
    destruct e as [q params| | |]; cbn [replay_event fst snd];
    try assumption; apply exec_db_unique; assumption.
Qed.

(** X10. Natural keys stay unique: when no dimension table of the
    store, committed or pending, holds two rows with the same natural
    key, the same is true of the store a run of [main] leaves, however
    the run ends. *)
Theorem main_keeps_keys_unique utcoffset w :
  unique_db (persisted w) ->
  unique_db (txn w) ->
  unique_db (persisted (snd (main utcoffset w))).
Proof.
  intros Hp Ht.
  destruct (main utcoffset w) as [r w'] eqn:E. cbn [snd].
  destruct (sourced_main utcoffset _ _ _ E) as (_ & ev & _ & R).
  destruct (replay_unique ev (persisted w, txn w) Hp Ht) as (H & _).
  rewrite <- R in H. exact H.
Qed.

Lemma main_keeps_keys_unique_witness :
  unique_db (persisted (snd (main utc (connect example_tree example_db)))).
Proof.
  apply (main_keeps_keys_unique utc (connect example_tree example_db));
    vm_compute; repeat split.
Defined.

(** ** Rows are never removed *)

Lemma is_prefix_refl {A} (l : list A) : is_prefix l l.
Proof. exists []. rewrite app_nil_r. reflexivity. Qed.

Lemma is_prefix_trans {A} (a b c : list A) :
  is_prefix a b -> is_prefix b c -> is_prefix a c.
Proof.
  intros (r1 & ->) (r2 & ->). exists (r1 ++ r2)%list.
  rewrite app_assoc. reflexivity.
Qed.

Lemma extends_refl d : extends d d.
Proof. repeat split; apply is_prefix_refl. Qed.

Lemma extends_trans a b c : extends a b -> extends b c -> extends a c.
Proof.
  intros (A1 & A2 & A3 & A4 & A5) (B1 & B2 & B3 & B4 & B5).
  repeat split; eapply is_prefix_trans; eassumption.
Qed.

Lemma insert_if_absent_prefix {R} (key : R -> value) r table :
  is_prefix table (insert_if_absent key r table).
Proof.
  unfold insert_if_absent. destruct (existsb _ table).
  - apply is_prefix_refl.
  - eexists. reflexivity.
Qed.

Lemma upsert_user_prefix r table :
  is_prefix (map user_identity table) (map user_identity (upsert_user r table)).
Proof.
  unfold upsert_user. destruct (existsb _ table).
  - rewrite map_map. erewrite map_ext; [apply is_prefix_refl|].
    intros r'. cbn. destruct (value_eqb (user_id r') (user_id r)); reflexivity.
  - rewrite map_app. eexists. reflexivity.
Qed.

Lemma exec_db_extends q params d : extends d (exec_db q params d).
Proof.
  unfold exec_db.
  destruct q;
    repeat (destruct params as [|? params]; try apply extends_refl);
    cbn; unfold extends; cbn; repeat split; try apply is_prefix_refl;
    first [ apply insert_if_absent_prefix | apply upsert_user_prefix
          | eexists; reflexivity ].
Qed.

Lemma replay_extends ev :
  forall p t, extends p t -> extends p (fst (replay ev (p, t))).
Proof.
  induction ev as [|e ev IH]; intros p t H; [apply extends_refl|].
  rewrite replay_cons. destruct e as [q params| | |]; cbn [replay_event fst snd].
  - apply IH. eapply extends_trans; [exact H | apply exec_db_extends].
  - eapply extends_trans; [exact H|]. apply IH, extends_refl.
  - apply IH, H.
  - apply IH, extends_refl.
Qed.

(** X11. A run of [main] only adds: however it ends, every song,
    artist, time and fact row of the committed store is still there, in
    place and unchanged, and so is every user row up to its subscription
    level; new rows come after them. *)
Theorem main_only_adds_rows utcoffset w :
  extends (persisted w) (txn w) ->
  extends (persisted w) (persisted (snd (main utcoffset w))).
Proof.
  intros H.
  destruct (main utcoffset w) as [r w'] eqn:E. cbn [snd].
  destruct (sourced_main utcoffset _ _ _ E) as (_ & ev & _ & R).
  pose proof (replay_extends ev _ _ H) as X. rewrite <- R in X. exact X.
Qed.

Lemma main_only_adds_rows_witness :
  extends (persisted (connect example_tree example_db))
    (persisted (snd (main utc (connect example_tree example_db)))).
Proof.
  apply (main_only_adds_rows utc (connect example_tree example_db)).
  apply extends_refl.
Defined.

(** X13. Every datetime the conversion gives is a valid one: the year
    is between 1 and 9999, the month between 1 and 12, the day between 1
    and 31, minute and second between 0 and 59, and the microsecond
    below a million. *)
Theorem derived_datetime_valid utcoffset x t :
  fromtimestamp utcoffset x = Ok t ->
  1 <= year t <= 9999 /\
  1 <= month t <= 12 /\
  1 <= day t <= 31 /\
  0 <= hour t <= 23 /\
  0 <= minute t <= 59 /\
  0 <= second t <= 59 /\
  0 <= microsecond t <= 999999.
Proof.
  intros H. destruct (fromtimestamp_fields _ _ _ H) as (us & Hus & F).
  cbv zeta in F. destruct F as (Hc & Hh & Hm & Hs & Hu).
  destruct (fromtimestamp_inv _ _ _ H) as (_ & _ & _ & _ & Hy).
  pose proof (days_from_civil_from_days
                ((us / 1000000 + utcoffset (us / 1000000)) / 86400)) as R.
  rewrite Hc in R. destruct R as (_ & Rm & Rd).
  split; [exact Hy|]. split; [exact Rm|]. split; [exact Rd|].
  rewrite Hh, Hm, Hs, Hu.
  generalize (us / 1000000 + utcoffset (us / 1000000)) as l. intros l.
  repeat split; Z.div_mod_to_equations; lia.
Qed.

Lemma derived_datetime_valid_witness :
  let t := mkdatetime 1969 12 31 23 59 59 999000 in
  1 <= year t <= 9999 /\
  1 <= month t <= 12 /\
  1 <= day t <= 31 /\
  0 <= hour t <= 23 /\
  0 <= minute t <= 59 /\
  0 <= second t <= 59 /\
  0 <= microsecond t <= 999999.
Proof.
  intros t. apply (derived_datetime_valid utc (VInt (-1)) t).
  vm_compute. reflexivity.
Defined.

(** ** A loaded song is found by the lookup *)

Lemma process_song_file_ok filepath w w' :
  process_song_file filepath w = (Ok tt, w') ->
  exists name r rest,
    lookup_path filepath (fs w) = Some (File name (Some (r :: rest))) /\
    songs (txn w') = insert_if_absent song_id (song_row_of r) (songs (txn w)) /\
    artists (txn w') =
      insert_if_absent artist_id (artist_row_of r) (artists (txn w)).
Proof.
  intros E.
  destruct (process_song_file_run _ _ _ _ E)
    as (_ & _ & name & r & rest & L & _ & _ & T & _).
  exists name, r, rest. rewrite T. split; [exact L|]. split; reflexivity.
Qed.

Lemma sql_eqb_refl v : v <> VNull -> sql_eqb v v = true.
Proof.
  intros H. destruct v; try congruence; apply value_eqb_refl.
Qed.

Lemma insert_if_absent_new {R} (key : R -> value) r table :
  has_key (map key table) (key r) = false ->
  insert_if_absent key r table = (table ++ [r])%list.
Proof.
  unfold insert_if_absent, has_key. rewrite existsb_map. intros ->.
  reflexivity.
Qed.

(** X14. Insert, then look up: when a metadata file is processed whose
    first record brings a song id and an artist id that the store does
    not hold yet, and names a title, an artist name, an artist id and a
    duration, the lookup for an event with that title, artist name and
    duration returns the pair of ids of that record among its rows. *)
Theorem loaded_song_is_found filepath w w' name r rest :
  lookup_path filepath (fs w) = Some (File name (Some (r :: rest))) ->
  process_song_file filepath w = (Ok tt, w') ->
  has_key (map song_id (songs (txn w))) (cell r "song_id") = false ->
  has_key (map artist_id (artists (txn w))) (cell r "artist_id") = false ->
  cell r "title" <> VNull ->
  cell r "artist_name" <> VNull ->
  cell r "artist_id" <> VNull ->
  cell r "duration" <> VNull ->
  In [cell r "song_id"; cell r "artist_id"]
    (select_song (txn w') (cell r "title") (cell r "artist_name")
       (cell r "duration")).
Proof.
  intros Lk E Hs Ha Ht Hn Hi Hd.
  destruct (process_song_file_ok _ _ _ E) as (name' & r' & rest' & Lk' & S & A).
  rewrite Lk in Lk'. injection Lk' as <- <- <-.
  rewrite insert_if_absent_new in S by exact Hs.
  rewrite insert_if_absent_new in A by exact Ha.
  unfold select_song. rewrite in_flat_map. exists (song_row_of r). split.
  { rewrite S. apply in_or_app. right. left. reflexivity. }
  rewrite in_flat_map. exists (artist_row_of r). split.
  { rewrite A. apply in_or_app. right. left. reflexivity. }
  unfold pair_matches, song_row_of, artist_row_of.
  cbn [song_artist_id artist_id title artist_name duration song_id].
  rewrite !sql_eqb_refl by assumption. left. reflexivity.
Qed.

Lemma loaded_song_is_found_witness :
  let w := connect [File "a.json" (Some [example_song])] empty_db in
  let w' := snd (process_song_file ["a.json"] w) in
  In [VStr "S1"; VStr "A1"]
    (select_song (txn w') (VStr "T") (VStr "X") (VFloat (401 # 2))).
Proof.
  intros w w'.
  apply (loaded_song_is_found ["a.json"] w w' "a.json" example_song []);
    try reflexivity; vm_compute; discriminate.
Defined.
